(** * The clip catalog of voice-web: server/src/lib/files.ts

    A shallow embedding of the class [Files] and of the callbacks it
    registers with the object store and with its two work queues, followed
    by the properties of the catalog that the specification states.

    Conventions of the embedding.
    - JavaScript strings are [string]; the only characters the code looks
      at are ASCII ('.' and the extensions), so bytes stand for code units.
    - [this.files], a plain object used as a map from glob to recording, is
      an association list of its own properties in creation order; reading
      [this.files[k]] also finds what a plain object inherits from
      Object.prototype.
    - A method is a computation in the monad [M]: it reads and writes the
      state it runs on and either completes normally or throws.
    - The store client and the queue library are outside the class.  Each
      callback the class hands to them is one [Event]; a run of the program
      is a list of events, fired one after the other (run to completion).
    - A callback written as an arrow function runs on the instance; one
      written as a [function] expression runs on the [Receiver] its caller
      gives it.
    - [getFileExt], imported from ./utility, is a parameter of the model;
      concrete runs use the function the specification describes. *)

From Stdlib Require Import ZArith NArith QArith String Ascii List Bool Lia.
From Stdlib Require Import Permutation.
Import ListNotations.

Local Open Scope string_scope.
Local Open Scope list_scope.
Local Open Scope Z_scope.

(** ** Strings and arrays as the code uses them *)

(** [s.indexOf(c)] for a one-character needle: first position, or -1. *)
Fixpoint indexOf (c : ascii) (s : string) : Z :=
  match s with
  | EmptyString => -1
  | String a t =>
      if Ascii.eqb a c then 0
      else let r := indexOf c t in if r =? -1 then -1 else r + 1
  end.

(** [s.lastIndexOf(c)]: last position, or -1. *)
Fixpoint lastIndexOf (c : ascii) (s : string) : Z :=
  match s with
  | EmptyString => -1
  | String a t =>
      let r := lastIndexOf c t in
      if r =? -1 then (if Ascii.eqb a c then 0 else -1) else r + 1
  end.

(** [s.substr(start, len)] (ECMAScript B.2.3.1): a negative [start] counts
    from the end, and a length that is zero or negative gives the empty
    string. *)
Definition substr (s : string) (start len : Z) : string :=
  let size := Z.of_nat (String.length s) in
  let st := if start <? 0 then Z.max (size + start) 0 else start in
  let ln := Z.min (Z.max len 0) (size - st) in
  if ln <=? 0 then "" else substring (Z.to_nat st) (Z.to_nat ln) s.

(** [arr.indexOf(x)] on an array of strings: first position, or -1. *)
Fixpoint arr_indexOf (l : list string) (x : string) : Z :=
  match l with
  | [] => -1
  | y :: t =>
      if String.eqb y x then 0
      else let r := arr_indexOf t x in if r =? -1 then -1 else r + 1
  end.

(** [arr[i]]: [None] is JavaScript's undefined. *)
Definition arr_get {A} (l : list A) (i : Z) : option A :=
  if i <? 0 then None else nth_error l (Z.to_nat i).

(** ASCII lower-casing, for [getFileExt_spec]. *)
Definition lower_ascii (a : ascii) : ascii :=
  let n := N_of_ascii a in
  if ((65 <=? n) && (n <=? 90))%N then ascii_of_N (n + 32) else a.

Fixpoint toLowerCase (s : string) : string :=
  match s with
  | EmptyString => EmptyString
  | String a t => String (lower_ascii a) (toLowerCase t)
  end.

(** ** Numbers as the code uses them *)

(** A finite Number of positive sign, an IEEE 754 double, as
    [Math.random()] returns one: [mant * 2^expo]. *)
Record Double := mkDouble { mant : Z; expo : Z }.

(** The significand has 53 bits at most and the exponent is one of the
    format. *)
Definition is_double (d : Double) : Prop :=
  0 <= mant d < 2 ^ 53 /\ -1074 <= expo d <= 971.

(** The rational a double stands for. *)
Definition value (d : Double) : Q :=
  if 0 <=? expo d then inject_Z (mant d * 2 ^ expo d)
  else mant d # Z.to_pos (2 ^ (- expo d)).

(** Rounding of the integer [m] to 53 significant bits, to nearest, ties
    to even: the result [(m', k)] stands for [m' * 2^k]. *)
Definition round53 (m : Z) : Z * Z :=
  let k := Z.log2 m - 52 in
  if k <=? 0 then (m, 0)
  else
    let q := m / 2 ^ k in
    let r := m mod 2 ^ k in
    let half := 2 ^ (k - 1) in
    if (r <? half) || ((r =? half) && Z.even q) then (q, k) else (q + 1, k).

(** [a * n] for a double [a] and the length [n] of an array, an integer
    that is itself a double: the exact product, rounded.  A product beyond
    the range of the format is Infinity in JavaScript and a large integer
    here: as an index, either is outside every array. *)
Definition times (a : Double) (n : Z) : Double :=
  let (m, k) := round53 (mant a * n) in mkDouble m (expo a + k).

(** [Math.floor(d)]. *)
Definition Math_floor (d : Double) : Z :=
  if 0 <=? expo d then mant d * 2 ^ expo d else mant d / 2 ^ (- expo d).

(** Half the distance from the integer [k], of 2^52 at most, to the double
    before it: 2^(l - 54), for 2^(l - 1) < k <= 2^l. *)
Definition half_gap (k : Z) : Q :=
  if k <=? 0 then 0 else 1 # Z.to_pos (2 ^ (54 - Z.log2_up k)).

(** ** Constants of the module (files.ts, lines 10-12) *)

Definition BATCH_SIZE : Z := 5.
Definition MP3_EXT : string := ".mp3".
Definition CONVERTABLE_EXTS : list string := [".ogg"; ".m4a"].

(** ** The data model *)

(** One entry of [this.files]: [{sentence: ..., exts: [...]}];
    [sentence = None] is null. *)
Record Recording := mkRecording {
  sentence : option string;
  exts : list string
}.

(** [this.files]: own properties in creation order. *)
Definition Obj := list (string * Recording).

(** The own property [k] of [o]: [None] when [o] has none. *)
Fixpoint obj_get (o : Obj) (k : string) : option Recording :=
  match o with
  | [] => None
  | (k', v) :: t => if String.eqb k' k then Some v else obj_get t k
  end.

(** [o[k] = v]: an existing property keeps its place, a new one goes last. *)
Fixpoint obj_put (o : Obj) (k : string) (v : Recording) : Obj :=
  match o with
  | [] => [(k, v)]
  | (k', v') :: t =>
      if String.eqb k' k then (k, v) :: t else (k', v') :: obj_put t k v
  end.

(** Value of a decimal digit. *)
Definition digit_val (a : ascii) : option N :=
  let n := N_of_ascii a in
  if ((48 <=? n) && (n <=? 57))%N then Some (n - 48)%N else None.

Fixpoint parse_digits (s : string) (acc : N) : option N :=
  match s with
  | EmptyString => Some acc
  | String a t =>
      match digit_val a with
      | Some d => parse_digits t (acc * 10 + d)%N
      | None => None
      end
  end.

(** A property name is an array index when it is the canonical decimal
    form of an integer below 2^32 - 1. *)
Definition array_index (k : string) : option N :=
  match k with
  | EmptyString => None
  | String a t =>
      if Ascii.eqb a "0"
      then (match t with EmptyString => Some 0%N | _ => None end)
      else match parse_digits k 0 with
           | Some n => if (n <? 4294967295)%N then Some n else None
           | None => None
           end
  end.

Fixpoint insert_index (n : N) (k : string) (l : list (N * string))
  : list (N * string) :=
  match l with
  | [] => [(n, k)]
  | (m, k') :: t =>
      if (n <=? m)%N then (n, k) :: l else (m, k') :: insert_index n k t
  end.

(** The array-index keys among [ks], in ascending numeric order. *)
Fixpoint index_keys (ks : list string) : list (N * string) :=
  match ks with
  | [] => []
  | k :: t =>
      match array_index k with
      | Some n => insert_index n k (index_keys t)
      | None => index_keys t
      end
  end.

Definition is_name (k : string) : bool :=
  match array_index k with Some _ => false | None => true end.

(** [Object.keys(o)]: array-index keys in ascending order, then the other
    keys in creation order. *)
Definition Object_keys (o : Obj) : list string :=
  let ks := map fst o in
  map snd (index_keys ks) ++ filter is_name ks.

(** The properties a plain object inherits from Object.prototype
    (ECMAScript 19.1.3 and B.2.2).  Each is a function, except '__proto__',
    which reads the prototype itself: all of them are truthy, and none has
    a property [exts] or [sentence]. *)
Definition Object_prototype : list string :=
  ["constructor"; "__defineGetter__"; "__defineSetter__"; "hasOwnProperty";
   "__lookupGetter__"; "__lookupSetter__"; "isPrototypeOf";
   "propertyIsEnumerable"; "toString"; "valueOf"; "__proto__";
   "toLocaleString"].

Definition inherited (k : string) : bool :=
  negb (arr_indexOf Object_prototype k =? -1).

(** What [o[k]] reads: the own property, or else the inherited one, or
    else undefined. *)
Inductive Property :=
| Own (r : Recording)
| Inherited
| Undefined.

Definition obj_lookup (o : Obj) (k : string) : Property :=
  match obj_get o k with
  | Some r => Own r
  | None => if inherited k then Inherited else Undefined
  end.

(** The fields of a [Files] instance (lines 18-27); the store client
    [this.s3] is outside the model. *)
Record Files := mkFiles {
  initialized : bool;
  files : Obj;
  paths : list string;
  mp3s : list string
}.

(** The constructor (lines 29-35). *)
Definition new_Files : Files :=
  {| initialized := false; files := []; paths := []; mp3s := [] |}.

(** ** Computations: state, normal completion or a thrown exception *)

Inductive Exn := TypeError.

Inductive Completion (A : Type) :=
| Normal (a : A)
| Throw (e : Exn).
Arguments Normal {A} a.
Arguments Throw {A} e.

(** A computation over a state of type [S]; what it wrote before throwing
    stays written. *)
Definition M (S A : Type) := S -> Completion A * S.

Definition ret {S A} (a : A) : M S A := fun s => (Normal a, s).

Definition throw {S A} (e : Exn) : M S A := fun s => (Throw e, s).

Definition bind {S A B} (c : M S A) (k : A -> M S B) : M S B :=
  fun s =>
    match c s with
    | (Normal a, s') => k a s'
    | (Throw e, s') => (Throw e, s')
    end.

Definition reads {S A} (f : S -> A) : M S A := fun s => (Normal (f s), s).

Definition modify {S} (f : S -> S) : M S unit := fun s => (Normal tt, f s).

Notation "x <- c1 ;; c2" := (bind c1 (fun x => c2))
  (at level 61, c1 at next level, right associativity).
Notation "c1 ;; c2" := (bind c1 (fun _ => c2))
  (at level 61, right associativity).

(** [arr.forEach(f)]. *)
Fixpoint forEach {S A} (f : A -> M S unit) (l : list A) : M S unit :=
  match l with
  | [] => ret tt
  | x :: t => f x ;; forEach f t
  end.

(** A settled promise, as a function returns it. *)
Inductive Settled (A : Type) :=
| Resolve (a : A)
| Reject (reason : string).
Arguments Resolve {A} a.
Arguments Reject {A} reason.

(** The state of a promise that callbacks settle later. *)
Inductive PState :=
| Pending
| Fulfilled
| Rejected (reason : string).

(** What the store client passes to a callback: [(err, data)]. *)
Inductive S3Result (A : Type) :=
| S3Err (err : string)
| S3Data (data : A).
Arguments S3Err {A} err.
Arguments S3Data {A} data.

(** The receiver of a callback written as a [function] expression: such a
    callback takes its [this] from whoever calls it.  [ThisFiles]: it is
    called on the [Files] instance.  [ThisForeign]: it is called on
    anything else (undefined, or an object of the caller, which has no
    property [files]).  A callback written as an arrow function always
    sees the instance. *)
Inductive Receiver := ThisFiles | ThisForeign.

(** ** Methods of [Files] *)

(** Field updates. *)
Definition set_initialized (b : bool) (st : Files) : Files :=
  {| initialized := b; files := files st; paths := paths st; mp3s := mp3s st |}.

Definition set_files (o : Obj) (st : Files) : Files :=
  {| initialized := initialized st; files := o; paths := paths st;
     mp3s := mp3s st |}.

Definition set_paths (ps : list string) (st : Files) : Files :=
  {| initialized := initialized st; files := files st; paths := ps;
     mp3s := mp3s st |}.

Definition set_mp3s (ms : list string) (st : Files) : Files :=
  {| initialized := initialized st; files := files st; paths := paths st;
     mp3s := ms |}.

(** [this.files[glob]] where the code goes on to use its [exts]: a
    TypeError unless [glob] has an entry of its own (undefined has no
    properties, and what Object.prototype gives has no [exts]). *)
Definition file_of (glob : string) : M Files Recording :=
  fun st =>
    match obj_get (files st) glob with
    | Some r => (Normal r, st)
    | None => (Throw TypeError, st)
    end.

(** [getGlob] (lines 40-42): [path.substr(0, path.indexOf('.'))]. *)
Definition getGlob (path : string) : string :=
  substr path 0 (indexOf "." path).

(** Modelled from the spec: [getFileExt] of server/src/lib/utility, which is
    not among the sources: "the key's file extension, lower-cased"; a key
    with no '.' has the empty extension. *)
Definition getFileExt_spec (path : string) : string :=
  let i := lastIndexOf "." path in
  if i =? -1 then ""
  else toLowerCase (substr path i (Z.of_nat (String.length path) - i)).

(** [getMissingMP3s] (lines 72-81). *)
Fixpoint getMissingMP3s_from (ps : list string) (missing : list string)
  : M Files (list string) :=
  match ps with
  | [] => ret missing
  | path :: rest =>
      info <- file_of path ;;
      if arr_indexOf (exts info) MP3_EXT =? -1
      then getMissingMP3s_from rest (missing ++ [path])
      else getMissingMP3s_from rest missing
  end.

Definition getMissingMP3s : M Files (list string) :=
  ps <- reads paths ;; getMissingMP3s_from ps [].

(** A conversion job [{glob, ext}] and a transcript item [{path, glob}]. *)
Record Job := mkJob { job_glob : string; job_ext : string }.
Record Item := mkItem { item_path : string; item_glob : string }.

(** The [for] loop of lines 144-149: the first entry of [info.exts] that is
    in [CONVERTABLE_EXTS]; [None] is the variable left undefined. *)
Fixpoint pickExt (es : list string) : option string :=
  match es with
  | [] => None
  | e :: rest =>
      if negb (arr_indexOf CONVERTABLE_EXTS e =? -1) then Some e
      else pickExt rest
  end.

(** [if (ext)]: undefined and the empty string are falsy. *)
Definition truthy (ext : option string) : bool :=
  match ext with
  | Some e => negb (String.eqb e "")
  | None => false
  end.

(** The [missing.forEach] of lines 141-158, collecting what it pushes. *)
Fixpoint push_jobs (missing : list string) (queue : list Job)
  : M Files (list Job) :=
  match missing with
  | [] => ret queue
  | glob :: rest =>
      info <- file_of glob ;;
      match pickExt (exts info) with
      | Some ext =>
          if truthy (Some ext)
          then push_jobs rest (queue ++ [mkJob glob ext])
          else push_jobs rest queue
      | None => push_jobs rest queue
      end
  end.

(** What [convertMissingToMP3s] (lines 125-165) returns: a promise already
    resolved, or a pending one together with the jobs it pushed onto its
    new queue. *)
Inductive Conversion :=
| NothingToConvert
| Converting (jobs : list Job).

Definition convertMissingToMP3s : M Files Conversion :=
  missing <- getMissingMP3s ;;
  if Z.of_nat (length missing) <? 1 then ret NothingToConvert
  else jobs <- push_jobs missing [] ;; ret (Converting jobs).

(** [generateMP3List] (lines 170-177). *)
Definition generateMP3List_body (glob : string) : M Files unit :=
  info <- file_of glob ;;
  if negb (arr_indexOf (exts info) MP3_EXT =? -1)
  then modify (fun st => set_mp3s (mp3s st ++ [glob]) st)
  else ret tt.

Definition generateMP3List : M Files unit :=
  modify (set_mp3s []) ;;
  ps <- reads paths ;;
  forEach generateMP3List_body ps.

(** [undefined] turned into a string, as [+] and a property access do. *)
Definition js_string (v : option string) : string :=
  match v with
  | Some s => s
  | None => "undefined"
  end.

(** [this.files[glob].sentence], read: a TypeError when
    [this.files[glob]] is undefined; what Object.prototype gives has no
    [sentence].  [None] is null or undefined. *)
Definition sentence_of (glob : string) : M Files (option string) :=
  fun st =>
    match obj_lookup (files st) glob with
    | Own r => (Normal (sentence r), st)
    | Inherited => (Normal None, st)
    | Undefined => (Throw TypeError, st)
    end.

(** [getRandomClip] (lines 246-263).  [rnd] is the value of
    [Math.random()]; an index outside the array reads undefined. *)
Definition getRandomClip (rnd : Double)
  : M Files (Settled (string * option string)) :=
  ini <- reads initialized ;;
  if negb ini then ret (Reject "Files not init.")
  else
    items <- reads mp3s ;;
    if Z.of_nat (length items) =? 0 then ret (Reject "No files.")
    else
      let glob :=
        arr_get items (Math_floor (times rnd (Z.of_nat (length items)))) in
      let key := (js_string glob ++ MP3_EXT)%string in
      text <- sentence_of (js_string glob) ;;
      ret (Resolve (key, text)).

(** [this.files] inside a [function] callback called on [recv]. *)
Definition files_on (recv : Receiver) : M Files Obj :=
  match recv with
  | ThisFiles => reads files
  | ThisForeign => throw TypeError
  end.

(** A change of [o[glob].exts]: a TypeError unless [glob] has an entry of
    its own. *)
Definition update_file (o : Obj) (glob : string) (f : Recording -> Recording)
  : M Files unit :=
  match obj_get o glob with
  | Some r => modify (set_files (obj_put o glob (f r)))
  | None => throw TypeError
  end.

Definition set_sentence (text : string) (r : Recording) : Recording :=
  {| sentence := Some text; exts := exts r |}.

Definition push_ext (ext : string) (r : Recording) : Recording :=
  {| sentence := sentence r; exts := exts r ++ [ext] |}.

(** [o[glob].sentence = text]: a TypeError when [o[glob]] is undefined;
    when it is what Object.prototype gives, the assignment lands on that
    object of the runtime and the catalog is as it was. *)
Definition assign_sentence (o : Obj) (glob : string) (text : string)
  : M Files unit :=
  match obj_lookup o glob with
  | Own r => modify (set_files (obj_put o glob (set_sentence text r)))
  | Inherited => ret tt
  | Undefined => throw TypeError
  end.

(** The callback [process] gives to [getObject] (lines 49-58), a
    [function] expression; [body] is [s3Data.Body.toString()].  The result
    is the argument it passes to [cb]: [Some err] or [None] for null. *)
Definition process_callback (recv : Receiver) (data : Item)
    (r : S3Result string) : M Files (option string) :=
  match r with
  | S3Err err => ret (Some err)
  | S3Data body =>
      o <- files_on recv ;;
      assign_sentence o (item_glob data) body ;;
      ret None
  end.

(** The callback [convert] gives to [putObject] (lines 106-118), a
    [function] expression.  The counter [finished] and the calls of [cb]
    belong to the queue's bookkeeping and are not part of the state. *)
Definition convert_put_callback (recv : Receiver) (job : Job)
    (r : S3Result unit) : M Files unit :=
  match r with
  | S3Err _ => ret tt
  | S3Data _ =>
      o <- files_on recv ;;
      update_file o (job_glob job) (push_ext MP3_EXT)
  end.

(** ** The running program: the instance, its promises and its queues *)

(** The [listObjectsV2] request of [init]: not sent, sent, answered with
    an error, answered with the keys. *)
Inductive Listing := NotRequested | Requested | Failed | Listed.

Record Sys := mkSys {
  this : Files;                  (* the [Files] instance *)
  listing : Listing;             (* the listing request *)
  initPromise : option PState;   (* the promise [init] returned *)
  txtQueue : list Item;          (* transcript items pushed, not yet fetched *)
  convPromise : option PState;   (* the promise of [convertMissingToMP3s] *)
  convQueue : list Job;          (* conversion jobs pushed, not yet written *)
  thenRan : bool                 (* the [then] callback of [init] has run *)
}.

(** Process start: a fresh instance, [init] not called yet. *)
Definition boot : Sys :=
  {| this := new_Files; listing := NotRequested; initPromise := None;
     txtQueue := []; convPromise := None; convQueue := []; thenRan := false |}.

Definition set_this (st : Files) (s : Sys) : Sys :=
  {| this := st; listing := listing s; initPromise := initPromise s;
     txtQueue := txtQueue s; convPromise := convPromise s;
     convQueue := convQueue s; thenRan := thenRan s |}.

Definition set_listing (l : Listing) (s : Sys) : Sys :=
  {| this := this s; listing := l; initPromise := initPromise s;
     txtQueue := txtQueue s; convPromise := convPromise s;
     convQueue := convQueue s; thenRan := thenRan s |}.

Definition set_initPromise (p : option PState) (s : Sys) : Sys :=
  {| this := this s; listing := listing s; initPromise := p;
     txtQueue := txtQueue s; convPromise := convPromise s;
     convQueue := convQueue s; thenRan := thenRan s |}.

Definition set_txtQueue (q : list Item) (s : Sys) : Sys :=
  {| this := this s; listing := listing s; initPromise := initPromise s;
     txtQueue := q; convPromise := convPromise s;
     convQueue := convQueue s; thenRan := thenRan s |}.

Definition set_convPromise (p : option PState) (s : Sys) : Sys :=
  {| this := this s; listing := listing s; initPromise := initPromise s;
     txtQueue := txtQueue s; convPromise := p;
     convQueue := convQueue s; thenRan := thenRan s |}.

Definition set_convQueue (q : list Job) (s : Sys) : Sys :=
  {| this := this s; listing := listing s; initPromise := initPromise s;
     txtQueue := txtQueue s; convPromise := convPromise s;
     convQueue := q; thenRan := thenRan s |}.

Definition set_thenRan (b : bool) (s : Sys) : Sys :=
  {| this := this s; listing := listing s; initPromise := initPromise s;
     txtQueue := txtQueue s; convPromise := convPromise s;
     convQueue := convQueue s; thenRan := b |}.

(** A method of the instance, run inside the program. *)
Definition on_this {A} (c : M Files A) : M Sys A :=
  fun s => let (r, st) := c (this s) in (r, set_this st s).

(** [res()] of a promise: only a pending promise changes. *)
Definition settle (v : PState) (p : option PState) : option PState :=
  match p with
  | Some Pending => Some v
  | _ => p
  end.

(** [l] without its [i]-th element. *)
Definition remove_nth {A} (i : nat) (l : list A) : list A :=
  firstn i l ++ skipn (S i) l.

(** A callback of the program that the store client, the queue library or
    the promise library calls.  The getObject callback of [convert]
    (lines 95-101) only logs and calls [cb], so it is no event here. *)
Inductive Event :=
| CallInit
| ListingCb (r : S3Result (list string))
| TranscriptCb (i : nat) (recv : Receiver) (r : S3Result string)
| ConvertPutCb (i : nat) (recv : Receiver) (r : S3Result unit)
| QueueDrain
| QueueError (err : string)
| ThenCb.

(** ** Notions used to state the properties *)

(** The glob the specification describes: "the key with the final
    extension segment stripped" (nothing is left of a key with no '.'). *)
Definition glob_by_final_extension (key : string) : string :=
  substr key 0 (lastIndexOf "." key).

(** The source extension the specification describes: the allow-list is
    walked in its priority order, '.ogg' before '.m4a', and the first
    extension the recording has is taken. *)
Fixpoint pick_by_priority (allowed : list string) (es : list string)
  : option string :=
  match allowed with
  | [] => None
  | a :: rest =>
      if negb (arr_indexOf es a =? -1) then Some a
      else pick_by_priority rest es
  end.

(** [e] is the first convertible entry of the array [es]. *)
Definition first_convertible (es : list string) (e : string) : Prop :=
  exists pre post,
    es = pre ++ e :: post /\ In e CONVERTABLE_EXTS /\
    forall x, In x pre -> ~ In x CONVERTABLE_EXTS.

Definition jobs_of (c : Conversion) : list Job :=
  match c with
  | NothingToConvert => []
  | Converting jobs => jobs
  end.

(** [this.files[g].exts.indexOf(MP3_EXT) !== -1], false when [g] has no
    entry. *)
Definition has_mp3 (o : Obj) (g : string) : bool :=
  match obj_get o g with
  | Some r => negb (arr_indexOf (exts r) MP3_EXT =? -1)
  | None => false
  end.

(** The job that the conversion loop pushes for [g], if any. *)
Definition job_for (o : Obj) (g : string) : list Job :=
  match obj_get o g with
  | Some r =>
      match pickExt (exts r) with
      | Some e => if truthy (Some e) then [mkJob g e] else []
      | None => []
      end
  | None => []
  end.

(** No own key of [o] is a name of Object.prototype. *)
Definition own_names (o : Obj) : Prop :=
  forall g, inherited g = true -> obj_get o g = None.

(** Every glob of [ps] has an entry in [o]. *)
Definition known (o : Obj) (ps : list string) : Prop :=
  forall g, In g ps -> obj_get o g <> None.

(** What a [function] callback can do to the instance: nothing (it
    failed, or threw, or wrote to an object of the runtime), or apply [f]
    to the entry of [g]. *)
Definition touched (f : Recording -> Recording) (g : string)
    (st st' : Files) : Prop :=
  st' = st \/
  exists r, obj_get (files st) g = Some r /\
            st' = set_files (obj_put (files st) g (f r)) st.

(** What holds of every state of every run. *)
Record Inv (s : Sys) : Prop := mkInv {
  inv_keys : NoDup (map fst (files (this s)));
  inv_known : known (files (this s)) (paths (this s));
  inv_paths : NoDup (paths (this s));
  inv_mp3s : incl (mp3s (this s)) (paths (this s));
  inv_ready : initialized (this s) = true <-> initPromise s = Some Fulfilled;
  inv_no_reject : forall e, initPromise s <> Some (Rejected e);
  inv_called : listing s <> NotRequested -> initPromise s <> None;
  inv_before :
    listing s <> Listed ->
    this s = new_Files /\ txtQueue s = [] /\ convPromise s = None /\
    convQueue s = [];
  inv_ready_after :
    initialized (this s) = true ->
    listing s = Listed /\
    (paths (this s) = [] \/ convPromise s = Some Fulfilled)
}.

(** ** The callbacks and the runs *)

Section Catalog.

(** [getFileExt] of server/src/lib/utility is not among the sources: the
    program is modelled for any such function ([getFileExt_spec] is the one
    the specification describes). *)
Variable getFileExt : string -> string.

(** The body of the [for] loop of [init] (lines 196-221). *)
Definition scan_key (key : string) : M Sys unit :=
  let glob := getGlob key in
  let ext := getFileExt key in
  if String.eqb glob "" then ret tt
  else
    seen <- reads (fun s => obj_lookup (files (this s)) glob) ;;
    match seen with
    | Undefined =>
        on_this (modify (fun st =>
          set_files (obj_put (files st) glob (mkRecording None [])) st))
    | _ => ret tt
    end ;;
    if String.eqb ext ".txt"
    then modify (fun s => set_txtQueue (txtQueue s ++ [mkItem key glob]) s)
    else
      on_this (o <- reads files ;; update_file o glob (push_ext ext)).

(** [init] up to the listing request (lines 182-189): the transcript queue
    and the promise are created and the request is sent. *)
Definition init : M Sys unit :=
  modify (fun s => set_listing Requested (set_initPromise (Some Pending) s)).

(** The callback of [listObjectsV2] (lines 189-239), an arrow function. *)
Definition listing_callback (r : S3Result (list string)) : M Sys unit :=
  match r with
  | S3Err _ => modify (set_listing Failed)
  | S3Data contents =>
      modify (set_listing Listed) ;;
      forEach scan_key contents ;;
      on_this (modify (fun st => set_paths (Object_keys (files st)) st)) ;;
      ps <- reads (fun s => paths (this s)) ;;
      if Z.of_nat (length ps) =? 0
      then
        on_this (modify (set_initialized true)) ;;
        modify (fun s => set_initPromise (settle Fulfilled (initPromise s)) s)
      else
        c <- on_this convertMissingToMP3s ;;
        match c with
        | NothingToConvert => modify (set_convPromise (Some Fulfilled))
        | Converting jobs =>
            modify (fun s =>
              set_convQueue jobs (set_convPromise (Some Pending) s))
        end
  end.

(** The callback [init] chains on the conversion promise (lines 234-238). *)
Definition then_callback : M Sys unit :=
  on_this generateMP3List ;;
  on_this (modify (set_initialized true)) ;;
  modify (fun s => set_initPromise (settle Fulfilled (initPromise s)) s).

(** Firing one event: [None] when the event cannot happen in [s].  An
    exception that leaves a callback is not caught by the program; the
    state it reached stays, and what the runtime does next is not
    modelled (later events remain possible).  [init] is called once.  The
    drain and error events of the conversion queue are not tied to the jobs
    done, so that whatever the queue library does is covered. *)
Definition fire (e : Event) (s : Sys) : option Sys :=
  match e with
  | CallInit =>
      match listing s with
      | NotRequested => Some (snd (init s))
      | _ => None
      end
  | ListingCb r =>
      match listing s with
      | Requested => Some (snd (listing_callback r s))
      | _ => None
      end
  | TranscriptCb i recv r =>
      match nth_error (txtQueue s) i with
      | Some item =>
          Some (snd (on_this (process_callback recv item r)
                       (set_txtQueue (remove_nth i (txtQueue s)) s)))
      | None => None
      end
  | ConvertPutCb i recv r =>
      match nth_error (convQueue s) i with
      | Some job =>
          Some (snd (on_this (convert_put_callback recv job r)
                       (set_convQueue (remove_nth i (convQueue s)) s)))
      | None => None
      end
  | QueueDrain =>
      match convPromise s with
      | Some Pending => Some (set_convPromise (Some Fulfilled) s)
      | _ => None
      end
  | QueueError err =>
      match convPromise s with
      | Some Pending => Some (set_convPromise (Some (Rejected err)) s)
      | _ => None
      end
  | ThenCb =>
      match convPromise s, thenRan s with
      | Some Fulfilled, false => Some (snd (then_callback (set_thenRan true s)))
      | _, _ => None
      end
  end.

(** A run: the events of a trace fired in order. *)
Fixpoint run (tr : list Event) (s : Sys) : option Sys :=
  match tr with
  | [] => Some s
  | e :: rest =>
      match fire e s with
      | Some s' => run rest s'
      | None => None
      end
  end.

(** ** The listing callback, in closed form *)

(** What one listed key does to [this.files]. *)
Definition scan_files (key : string) (o : Obj) : Obj :=
  let glob := getGlob key in
  if String.eqb glob "" then o
  else
    let o1 :=
      match obj_lookup o glob with
      | Undefined => obj_put o glob (mkRecording None [])
      | _ => o
      end in
    if String.eqb (getFileExt key) ".txt" then o1
    else
      match obj_get o1 glob with
      | Some r => obj_put o1 glob (push_ext (getFileExt key) r)
      | None => o1
      end.

(** The transcript item one listed key pushes, if any. *)
Definition key_items (key : string) : list Item :=
  if String.eqb (getGlob key) "" then []
  else if String.eqb (getFileExt key) ".txt" then [mkItem key (getGlob key)]
  else [].

(** The extension one listed key appends to the recording [g], if any. *)
Definition key_exts (g : string) (key : string) : list string :=
  if String.eqb (getGlob key) "" then []
  else if String.eqb (getFileExt key) ".txt" then []
  else if String.eqb (getGlob key) g then [getFileExt key]
  else [].

Definition scan_all (contents : list string) (o : Obj) : Obj :=
  fold_left (fun acc key => scan_files key acc) contents o.

Definition transcript_items (contents : list string) : list Item :=
  flat_map key_items contents.

(** The extensions the listing gives for the recording [g], in listing
    order: one entry per listed key of [g] that is no transcript. *)
Definition listed_exts (contents : list string) (g : string) : list string :=
  flat_map (key_exts g) contents.

(** The entry of [g], or the one the scan creates on first sight. *)
Definition entry_or_new (o : Obj) (g : string) : Recording :=
  match obj_get o g with
  | Some r => r
  | None => mkRecording None []
  end.

(** A key the scan cannot get past, in a catalog whose own keys are not
    names of Object.prototype: its glob is such a name, so that no entry is
    made for it, and the key is no transcript, so that [exts] is read from
    what Object.prototype gives, which throws. *)
Definition aborts (key : string) : bool :=
  negb (String.eqb (getGlob key) "") && inherited (getGlob key) &&
  negb (String.eqb (getFileExt key) ".txt").

(** The keys the loop goes through: all of them, or those before the first
    at which it throws. *)
Fixpoint scanned (contents : list string) : list string :=
  match contents with
  | [] => []
  | key :: rest => if aborts key then [] else key :: scanned rest
  end.

(** The loop reaches its end. *)
Definition scan_completes (contents : list string) : bool :=
  forallb (fun key => negb (aborts key)) contents.

(** The state the listing callback leaves, given the keys listed: when
    the scan throws, what the keys before did stays, and nothing else is
    done. *)
Definition after_listing (contents : list string) (s : Sys) : Sys :=
  let o := scan_all (scanned contents) (files (this s)) in
  let q := txtQueue s ++ transcript_items (scanned contents) in
  if scan_completes contents then
    let ps := Object_keys o in
    let st := mkFiles (initialized (this s)) o ps (mp3s (this s)) in
    match ps with
    | [] =>
        mkSys (set_initialized true st) Listed
          (settle Fulfilled (initPromise s)) q (convPromise s) (convQueue s)
          (thenRan s)
    | _ :: _ =>
        match filter (fun g => negb (has_mp3 o g)) ps with
        | [] =>
            mkSys st Listed (initPromise s) q (Some Fulfilled) (convQueue s)
              (thenRan s)
        | missing =>
            mkSys st Listed (initPromise s) q (Some Pending)
              (flat_map (job_for o) missing) (thenRan s)
        end
    end
  else
    mkSys (set_files o (this s)) Listed (initPromise s) q (convPromise s)
      (convQueue s) (thenRan s).

(** What the listing must satisfy for the encodings to stay duplicate-free:
    no extension listed twice for one glob. *)
Definition event_ok (e : Event) : Prop :=
  match e with
  | ListingCb (S3Data contents) =>
      forall g, NoDup (listed_exts contents g)
  | _ => True
  end.

(** Encodings are duplicate-free, and every queued conversion is for a
    glob of its own that still lacks '.mp3'. *)
Record InvExts (s : Sys) : Prop := mkInvExts {
  ie_exts : forall g r, obj_get (files (this s)) g = Some r -> NoDup (exts r);
  ie_jobs : NoDup (map job_glob (convQueue s));
  ie_missing :
    forall j, In j (convQueue s) ->
              has_mp3 (files (this s)) (job_glob j) = false
}.

End Catalog.

(** ** Concrete runs *)

(** The state a trace leads to, with the extension function of the
    specification ([boot] when the trace cannot happen). *)
Definition state_after (tr : list Event) : Sys :=
  match run getFileExt_spec tr boot with
  | Some s => s
  | None => boot
  end.

(** A store with one clip already in mp3 and its transcript: the catalog
    is ready, the transcript still queued. *)
Definition trace_ready : list Event :=
  [CallInit; ListingCb (S3Data ["a.mp3"; "a.txt"]); ThenCb].

Definition state_ready : Sys := Eval vm_compute in state_after trace_ready.

(** A store with nothing in it. *)
Definition trace_empty : list Event :=
  [CallInit; ListingCb (S3Data [])].

Definition state_empty : Sys := Eval vm_compute in state_after trace_empty.

(** The store of the specification's scenario, listed and not yet
    converted. *)
Definition trace_listed : list Event :=
  [CallInit; ListingCb (S3Data ["a.ogg"; "a.txt"; "b.m4a"; "b.mp3"; "c.wav"])].

Definition state_listed : Sys := Eval vm_compute in state_after trace_listed.

(** A listing that failed. *)
Definition trace_failed : list Event :=
  [CallInit; ListingCb (S3Err "NetworkingError")].

Definition state_failed : Sys := Eval vm_compute in state_after trace_failed.

(** Two takes of one clip, both in ogg. *)
Definition trace_two_takes : list Event :=
  [CallInit; ListingCb (S3Data ["clip.v1.ogg"; "clip.v2.ogg"])].

Definition state_two_takes : Sys :=
  Eval vm_compute in state_after trace_two_takes.

(** The scenario run to the end, every callback called on the instance:
    'a' is converted, its transcript fetched, the queue drains. *)
Definition trace_scenario (recv : Receiver) : list Event :=
  trace_listed ++
  [ConvertPutCb 0 recv (S3Data tt); TranscriptCb 0 recv (S3Data "hello");
   QueueDrain; ThenCb].

Definition state_scenario_on_instance : Sys :=
  Eval vm_compute in state_after (trace_scenario ThisFiles).

(** The same events, the callbacks called as the store client calls
    them. *)
Definition state_scenario_off_instance : Sys :=
  Eval vm_compute in state_after (trace_scenario ThisForeign).

(** ** The steps of a run, by shape *)

Section Steps.

Variable getFileExt : string -> string.

(** The events that can fire in a state of a run, each with the state it
    leaves. *)
Inductive fired : Event -> Sys -> Sys -> Prop :=
| fired_init s :
    listing s = NotRequested ->
    fired CallInit s (set_listing Requested (set_initPromise (Some Pending) s))
| fired_listing_err s err :
    listing s = Requested ->
    fired (ListingCb (S3Err err)) s (set_listing Failed s)
| fired_listing_data s contents :
    listing s = Requested -> this s = new_Files -> txtQueue s = [] ->
    convPromise s = None -> convQueue s = [] ->
    initPromise s = Some Pending ->
    fired (ListingCb (S3Data contents)) s (after_listing getFileExt contents s)
| fired_transcript s i recv r item :
    listing s = Listed -> nth_error (txtQueue s) i = Some item ->
    fired (TranscriptCb i recv r) s
      (set_this (snd (process_callback recv item r (this s)))
         (set_txtQueue (remove_nth i (txtQueue s)) s))
| fired_convert s i recv r job :
    listing s = Listed -> nth_error (convQueue s) i = Some job ->
    fired (ConvertPutCb i recv r) s
      (set_this (snd (convert_put_callback recv job r (this s)))
         (set_convQueue (remove_nth i (convQueue s)) s))
| fired_drain s :
    listing s = Listed -> convPromise s = Some Pending ->
    fired QueueDrain s (set_convPromise (Some Fulfilled) s)
| fired_error s err :
    listing s = Listed -> convPromise s = Some Pending ->
    fired (QueueError err) s (set_convPromise (Some (Rejected err)) s)
| fired_then s :
    listing s = Listed -> convPromise s = Some Fulfilled ->
    thenRan s = false ->
    fired ThenCb s
      (mkSys (mkFiles true (files (this s)) (paths (this s))
                (filter (has_mp3 (files (this s))) (paths (this s))))
         Listed (Some Fulfilled) (txtQueue s) (Some Fulfilled) (convQueue s)
         true).

(** A transcript item as the scan pushes it: the glob of its key, which
    is not empty, and a key whose extension is '.txt'. *)
Definition item_ok (it : Item) : Prop :=
  item_glob it = getGlob (item_path it) /\ item_glob it <> "" /\
  getFileExt (item_path it) = ".txt".

(** A conversion job as [convertMissingToMP3s] pushes it, seen from the
    catalog [st]. *)
Definition job_ok (st : Files) (j : Job) : Prop :=
  In (job_glob j) (paths st) /\ In (job_ext j) CONVERTABLE_EXTS /\
  exists r, obj_get (files st) (job_glob j) = Some r /\ In (job_ext j) (exts r).

(** More of what holds of every state of every run. *)
Record Inv2 (s : Sys) : Prop := mkInv2 {
  i2_then : thenRan s = true -> initialized (this s) = true;
  i2_ready :
    initialized (this s) = true -> thenRan s = true \/ convPromise s = None;
  i2_conv : convPromise s <> None -> paths (this s) <> [];
  i2_mp3s_nodup : NoDup (mp3s (this s));
  i2_mp3s_has :
    forall g, In g (mp3s (this s)) -> has_mp3 (files (this s)) g = true;
  i2_mp3s_late : initialized (this s) = false -> mp3s (this s) = [];
  i2_own : own_names (files (this s));
  i2_items :
    forall it, In it (txtQueue s) ->
               item_ok it /\
               (inherited (item_glob it) = false ->
                obj_get (files (this s)) (item_glob it) <> None);
  i2_no_txt :
    forall g r, obj_get (files (this s)) g = Some r -> ~ In ".txt" (exts r);
  i2_jobs : forall j, In j (convQueue s) -> job_ok (this s) j;
  i2_jobs_nodup : NoDup (map job_glob (convQueue s))
}.

End Steps.

(** ** One call of [convert] (lines 83-120) *)

(** The argument of [convert]: one job, or an array of jobs. *)
Inductive JobsArg :=
| OneJob (job : Job)
| ManyJobs (jobs : list Job).

(** [if (!Array.isArray(jobs)) jobs = [jobs]] (lines 84-86). *)
Definition as_array (arg : JobsArg) : list Job :=
  match arg with
  | OneJob job => [job]
  | ManyJobs jobs => jobs
  end.

(** What one call of [convert] works on: the instance, its local counter
    [finished], and the number of times it has called [cb]. *)
Record Batch := mkBatch {
  b_this : Files;
  b_finished : Z;
  b_cb : nat
}.

(** [convert] up to the end of its [forEach]: the counter is at zero and
    no callback has run. *)
Definition new_Batch (st : Files) : Batch :=
  {| b_this := st; b_finished := 0; b_cb := 0 |}.

(** [cb()]. *)
Definition call_cb : M Batch unit :=
  modify (fun b => mkBatch (b_this b) (b_finished b) (S (b_cb b))).

(** A method of the instance, run inside a call of [convert]. *)
Definition in_batch {A} (c : M Files A) : M Batch A :=
  fun b =>
    let (r, st) := c (b_this b) in (r, mkBatch st (b_finished b) (b_cb b)).

(** The callback [convert] gives to [getObject] (lines 95-101). *)
Definition convert_get (r : S3Result unit) : M Batch unit :=
  match r with
  | S3Err _ => call_cb
  | S3Data _ => ret tt
  end.

(** The callback [convert] gives to [putObject] (lines 106-118), with the
    counter and the calls of [cb]. *)
Definition convert_put (recv : Receiver) (arg : JobsArg) (job : Job)
    (r : S3Result unit) : M Batch unit :=
  match r with
  | S3Err _ => call_cb
  | S3Data _ =>
      in_batch (convert_put_callback recv job r) ;;
      modify (fun b => mkBatch (b_this b) (b_finished b + 1) (b_cb b)) ;;
      finished <- reads b_finished ;;
      if finished =? Z.of_nat (length (as_array arg)) then call_cb
      else ret tt
  end.

(** The callbacks of one call of [convert], as the store client calls
    them: for some job, the one of [getObject] or the one of
    [putObject]. *)
Inductive BatchEvent :=
| GetCb (r : S3Result unit)
| PutCb (recv : Receiver) (job : Job) (r : S3Result unit).

(** Firing one callback; an exception that leaves it stops that callback
    only. *)
Definition batch_fire (arg : JobsArg) (e : BatchEvent) (b : Batch) : Batch :=
  match e with
  | GetCb r => snd (convert_get r b)
  | PutCb recv job r => snd (convert_put recv arg job r b)
  end.

Definition batch_run (arg : JobsArg) (evs : list BatchEvent) (b : Batch)
  : Batch :=
  fold_left (fun acc e => batch_fire arg e acc) evs b.

(** The callbacks that received an error. *)
Definition is_error (e : BatchEvent) : bool :=
  match e with
  | GetCb (S3Err _) => true
  | PutCb _ _ (S3Err _) => true
  | _ => false
  end.

(** The [putObject] callbacks that received no error. *)
Definition is_put_success (e : BatchEvent) : bool :=
  match e with
  | PutCb _ _ (S3Data _) => true
  | _ => false
  end.

(** The call of [cb] that [finished === jobs.length] triggers: one, when
    [succ] increments take the counter from [before], below [n], to [n]. *)
Definition completion_calls (before n succ : Z) : nat :=
  if (before <? n) && (n <=? before + succ) then 1%nat else 0%nat.

(** The receiver and the glob of a [putObject] callback. *)
Definition put_on (recv : Receiver) (e : BatchEvent) : Prop :=
  match e with
  | PutCb recv' _ _ => recv' = recv
  | GetCb _ => True
  end.

Definition put_known (o : Obj) (e : BatchEvent) : Prop :=
  match e with
  | PutCb _ job _ => obj_get o (job_glob job) <> None
  | GetCb _ => True
  end.

(** What a run never takes away from a recording: between [a] and [b],
    every entry stays, its encodings are extended at the end and its
    transcript, once set, is not null. *)
Definition kept (a b : Sys) : Prop :=
  forall g r,
    obj_get (files (this a)) g = Some r ->
    exists r' extra,
      obj_get (files (this b)) g = Some r' /\
      exts r' = exts r ++ extra /\
      (sentence r <> None -> sentence r' <> None).

(** The callback of [process] is called off the instance. *)
Definition process_off_instance (e : Event) : Prop :=
  match e with
  | TranscriptCb _ recv _ => recv = ThisForeign
  | _ => True
  end.

(** ** More concrete runs *)

(** The draw 1/2. *)
Definition half : Double := mkDouble 1 (-1).

(** The keys of the specification's scenario. *)
Definition scenario_contents : list string :=
  ["a.ogg"; "a.txt"; "b.m4a"; "b.mp3"; "c.wav"].

(** [init] called, the listing not yet answered. *)
Definition state_called : Sys := Eval vm_compute in state_after [CallInit].

(** What follows the listing in the scenario. *)
Definition scenario_tail (recv : Receiver) : list Event :=
  [ConvertPutCb 0 recv (S3Data tt); TranscriptCb 0 recv (S3Data "hello");
   QueueDrain; ThenCb].

(** A transcript that arrives after the catalog is ready. *)
Definition late_transcript : list Event :=
  [TranscriptCb 0 ThisFiles (S3Data "hello")].

Definition state_ready_later : Sys :=
  Eval vm_compute in state_after (trace_ready ++ late_transcript).

(** The conversion queue emits 'error' after the listing. *)
Definition trace_queue_error : list Event :=
  trace_listed ++ [QueueError "boom"].

Definition state_queue_error : Sys :=
  Eval vm_compute in state_after trace_queue_error.

Definition after_queue_error : list Event :=
  [ConvertPutCb 0 ThisForeign (S3Data tt);
   TranscriptCb 0 ThisForeign (S3Data "hello")].

Definition state_queue_error_later : Sys :=
  Eval vm_compute in state_after (trace_queue_error ++ after_queue_error).

(** A store that holds one clip, in a format that cannot be converted. *)
Definition trace_wav : list Event :=
  [CallInit; ListingCb (S3Data ["c.wav"])].

Definition state_wav : Sys := Eval vm_compute in state_after trace_wav.

(** A store in which a clip is named as a property of Object.prototype:
    the scan throws at 'constructor.ogg'. *)
Definition contents_cut : list string :=
  ["a.ogg"; "a.txt"; "constructor.ogg"; "a.m4a"].

Definition trace_cut : list Event :=
  [CallInit; ListingCb (S3Data contents_cut)].

Definition state_cut : Sys := Eval vm_compute in state_after trace_cut.

(** The transcript queued before the scan threw arrives. *)
Definition state_cut_later : Sys :=
  Eval vm_compute in state_after (trace_cut ++ late_transcript).

(** A store that holds one transcript, named as a property of
    Object.prototype. *)
Definition contents_named : list string := ["toString.txt"].

Definition trace_named : list Event :=
  [CallInit; ListingCb (S3Data contents_named)].

Definition state_named : Sys := Eval vm_compute in state_after trace_named.

(** A store of seven clips, all in mp3, and a draw whose product with 7 is
    just below 4. *)
Definition contents_seven : list string :=
  ["a.mp3"; "b.mp3"; "c.mp3"; "d.mp3"; "e.mp3"; "f.mp3"; "g.mp3"].

Definition trace_seven : list Event :=
  [CallInit; ListingCb (S3Data contents_seven); ThenCb].

Definition state_seven : Sys := Eval vm_compute in state_after trace_seven.

Definition draw_below_four : Double := mkDouble 2573485501354569 (-52).

(** One call of [convert] with two jobs: both sources are read, the
    first result is written, the second write fails. *)
Definition two_jobs : JobsArg :=
  ManyJobs [mkJob "a" ".ogg"; mkJob "b" ".m4a"].

Definition two_jobs_callbacks (recv : Receiver) : list BatchEvent :=
  [GetCb (S3Data tt); GetCb (S3Data tt);
   PutCb recv (mkJob "a" ".ogg") (S3Data tt);
   PutCb recv (mkJob "b" ".m4a") (S3Err "SlowDown")].

(** ** Arrays and objects *)

Lemma arr_indexOf_ge l x : -1 <= arr_indexOf l x.
Proof.
  induction l as [|y t IH]; simpl; [lia|].
  destruct (String.eqb y x); [lia|].
  destruct (arr_indexOf t x =? -1); lia.
Qed.

Lemma arr_indexOf_absent l x : arr_indexOf l x = -1 <-> ~ In x l.
Proof.
  induction l as [|y t IH]; simpl.
  - split; [intros _ [] | reflexivity].
  - destruct (String.eqb_spec y x) as [->|Hne].
    + split; [discriminate | intros H; exfalso; apply H; now left].
    + destruct (Z.eqb_spec (arr_indexOf t x) (-1)) as [E|E].
      * split; [|reflexivity].
        intros _ [H|H]; [congruence | now apply IH in H].
      * pose proof (arr_indexOf_ge t x) as Hge.
        split; [lia|].
        intros H; exfalso; apply E, IH. intros Hin; apply H; now right.
Qed.

Lemma arr_indexOf_present l x : (arr_indexOf l x =? -1) = false <-> In x l.
Proof.
  rewrite Z.eqb_neq, arr_indexOf_absent.
  split; [|tauto].
  intros H. destruct (in_dec string_dec x l); tauto.
Qed.

Lemma obj_get_put_eq o k v : obj_get (obj_put o k v) k = Some v.
Proof.
  induction o as [|[k' v'] t IH]; simpl.
  - now rewrite String.eqb_refl.
  - destruct (String.eqb_spec k' k) as [->|Hne]; simpl.
    + now rewrite String.eqb_refl.
    + apply String.eqb_neq in Hne. now rewrite Hne.
Qed.

Lemma obj_get_put_ne o k k' v :
  k <> k' -> obj_get (obj_put o k v) k' = obj_get o k'.
Proof.
  intros Hne. induction o as [|[k0 v0] t IH]; simpl.
  - apply String.eqb_neq in Hne. now rewrite Hne.
  - destruct (String.eqb_spec k0 k) as [->|Hk]; simpl.
    + apply String.eqb_neq in Hne. now rewrite Hne.
    + now rewrite IH.
Qed.

Lemma obj_get_Some_key o k r : obj_get o k = Some r -> In k (map fst o).
Proof.
  induction o as [|[k' v'] t IH]; simpl; [discriminate|].
  destruct (String.eqb_spec k' k) as [->|Hne]; [now left | right; auto].
Qed.

Lemma obj_get_key o k : In k (map fst o) -> obj_get o k <> None.
Proof.
  induction o as [|[k' v'] t IH]; simpl; [tauto|].
  destruct (String.eqb_spec k' k) as [->|Hne]; [discriminate|].
  intros [H|H]; [congruence | auto].
Qed.

(** Writing an existing property leaves the keys and their order alone. *)
Lemma obj_put_keys_present o k v :
  In k (map fst o) -> map fst (obj_put o k v) = map fst o.
Proof.
  induction o as [|[k' v'] t IH]; simpl; [tauto|].
  destruct (String.eqb_spec k' k) as [->|Hne]; simpl; [reflexivity|].
  intros [H|H]; [congruence | now rewrite IH].
Qed.

(** Writing a new property appends its key. *)
Lemma obj_put_keys_absent o k v :
  ~ In k (map fst o) -> map fst (obj_put o k v) = map fst o ++ [k].
Proof.
  induction o as [|[k' v'] t IH]; simpl; [reflexivity|].
  destruct (String.eqb_spec k' k) as [->|Hne]; simpl.
  - intros H; exfalso; apply H; now left.
  - intros H. rewrite IH; [reflexivity | tauto].
Qed.

Lemma insert_index_perm n k l : Permutation (insert_index n k l) ((n, k) :: l).
Proof.
  induction l as [|[m k'] t IH]; simpl; [reflexivity|].
  destruct (n <=? m)%N; [reflexivity|].
  rewrite IH. apply perm_swap.
Qed.

Lemma index_keys_perm ks :
  Permutation (map snd (index_keys ks) ++ filter is_name ks) ks.
Proof.
  induction ks as [|k t IH]; simpl; [reflexivity|].
  unfold is_name at 1. destruct (array_index k) as [n|].
  - rewrite (Permutation_map snd (insert_index_perm n k (index_keys t))).
    simpl. now apply perm_skip.
  - rewrite <- Permutation_middle. now apply perm_skip.
Qed.

(** [Object.keys] lists exactly the own keys. *)
Lemma Object_keys_perm o : Permutation (Object_keys o) (map fst o).
Proof. apply index_keys_perm. Qed.

Lemma Object_keys_In o k : In k (Object_keys o) <-> In k (map fst o).
Proof.
  split; apply Permutation_in;
    [apply Object_keys_perm | symmetry; apply Object_keys_perm].
Qed.

(** ** [getGlob] *)

Lemma indexOf_ge c s : -1 <= indexOf c s.
Proof.
  induction s as [|a t IH]; simpl; [lia|].
  destruct (Ascii.eqb a c); [lia|].
  destruct (indexOf c t =? -1); lia.
Qed.

Lemma indexOf_le_length c s : indexOf c s < Z.of_nat (String.length s).
Proof.
  induction s as [|a t IH]; simpl String.length; simpl indexOf; [lia|].
  destruct (Ascii.eqb a c); [lia|].
  destruct (indexOf c t =? -1); lia.
Qed.

Lemma substr_0 s len :
  substr s 0 len =
  let ln := Z.min (Z.max len 0) (Z.of_nat (String.length s)) in
  if ln <=? 0 then "" else substring 0 (Z.to_nat ln) s.
Proof.
  unfold substr. change (0 <? 0) with false. cbv iota.
  now rewrite Z.sub_0_r.
Qed.

(** A key with no '.' has the empty glob. *)
Lemma getGlob_no_dot key : indexOf "." key = -1 -> getGlob key = "".
Proof.
  intros H. unfold getGlob. rewrite substr_0, H. cbv zeta.
  replace (Z.min (Z.max (-1) 0) (Z.of_nat (String.length key)) <=? 0)
    with true; [reflexivity|].
  symmetry. apply Z.leb_le. lia.
Qed.

(** A key that starts with '.' has the empty glob. *)
Lemma getGlob_dot t : getGlob (String "." t) = "".
Proof. reflexivity. Qed.

Lemma substring_0_0 s : substring 0 0 s = "".
Proof. now destruct s. Qed.

(** The glob of a key whose first character is no '.' and which has a '.'
    further on. *)
Lemma getGlob_cons a t :
  Ascii.eqb a "." = false -> indexOf "." t <> -1 ->
  getGlob (String a t) = String a (getGlob t).
Proof.
  intros Ha Ht. unfold getGlob. rewrite !substr_0. cbv zeta.
  simpl indexOf. rewrite Ha.
  apply Z.eqb_neq in Ht. rewrite Ht. apply Z.eqb_neq in Ht.
  pose proof (indexOf_ge "." t) as Hge.
  pose proof (indexOf_le_length "." t) as Hlt.
  simpl String.length.
  set (n := indexOf "." t) in *.
  set (len := Z.of_nat (String.length t)) in *.
  replace (Z.of_nat (S (String.length t))) with (len + 1) by (unfold len; lia).
  replace (Z.min (Z.max (n + 1) 0) (len + 1)) with (n + 1) by lia.
  replace (Z.min (Z.max n 0) len) with n by lia.
  replace (n + 1 <=? 0) with false by (symmetry; apply Z.leb_gt; lia).
  replace (Z.to_nat (n + 1)) with (S (Z.to_nat n)) by lia.
  cbn [substring].
  destruct (Z.leb_spec n 0) as [H0|H0].
  - replace n with 0 by lia. simpl. now rewrite substring_0_0.
  - reflexivity.
Qed.

Lemma indexOf_app_dot base e : indexOf "." (base ++ String "." e) <> -1.
Proof.
  induction base as [|a b IH]; simpl; [discriminate|].
  destruct (Ascii.eqb a "."); [discriminate|].
  apply Z.eqb_neq in IH. rewrite IH.
  pose proof (indexOf_ge "." (b ++ String "." e)). lia.
Qed.

(** Two keys that differ only in what follows their last '.' have the same
    glob. *)
Lemma getGlob_same_base base e1 e2 :
  getGlob (base ++ String "." e1) = getGlob (base ++ String "." e2).
Proof.
  induction base as [|a b IH]; [reflexivity|].
  change (String a b ++ String "." e1)%string
    with (String a (b ++ String "." e1)).
  change (String a b ++ String "." e2)%string
    with (String a (b ++ String "." e2)).
  destruct (Ascii.eqb a ".") eqn:Ea.
  - apply Ascii.eqb_eq in Ea. subst a. reflexivity.
  - rewrite !getGlob_cons by (try assumption; apply indexOf_app_dot).
    now rewrite IH.
Qed.

(** The glob of a key with one '.' is what precedes it. *)
Lemma getGlob_one_dot base e :
  indexOf "." base = -1 -> getGlob (base ++ String "." e) = base.
Proof.
  induction base as [|a b IH]; intros H; [reflexivity|].
  simpl in H. destruct (Ascii.eqb a ".") eqn:Ea; [discriminate|].
  pose proof (indexOf_ge "." b) as Hge.
  destruct (indexOf "." b =? -1) eqn:Eb; [|lia].
  apply Z.eqb_eq in Eb.
  change (String a b ++ String "." e)%string
    with (String a (b ++ String "." e)).
  rewrite getGlob_cons by (try assumption; apply indexOf_app_dot).
  now rewrite IH.
Qed.

(** ** The methods, in closed form *)

Ltac unfold_m :=
  unfold bind, reads, modify, ret, throw, file_of; simpl.

Lemma known_cons o g ps : known o (g :: ps) -> obj_get o g <> None /\ known o ps.
Proof.
  intros H; split; [apply H; now left | intros x Hx; apply H; now right].
Qed.

Lemma has_mp3_In o g :
  has_mp3 o g = true <-> exists r, obj_get o g = Some r /\ In MP3_EXT (exts r).
Proof.
  unfold has_mp3. destruct (obj_get o g) as [r|].
  - rewrite negb_true_iff, arr_indexOf_present.
    split; [intros H; now exists r | intros [r' [E H]]; congruence].
  - split; [discriminate | intros [r [E _]]; discriminate].
Qed.

Lemma getMissingMP3s_from_known ps : forall acc st,
  known (files st) ps ->
  getMissingMP3s_from ps acc st =
  (Normal (acc ++ filter (fun g => negb (has_mp3 (files st) g)) ps), st).
Proof.
  induction ps as [|g ps IH]; intros acc st Hk; simpl.
  - now rewrite app_nil_r.
  - apply known_cons in Hk as [Hg Hk]. unfold_m. unfold has_mp3.
    destruct (obj_get (files st) g) as [r|] eqn:E; [|congruence].
    destruct (arr_indexOf (exts r) MP3_EXT =? -1); simpl.
    + rewrite IH by assumption. now rewrite <- app_assoc.
    + now apply IH.
Qed.

Lemma getMissingMP3s_known st :
  known (files st) (paths st) ->
  getMissingMP3s st =
  (Normal (filter (fun g => negb (has_mp3 (files st) g)) (paths st)), st).
Proof.
  intros Hk. unfold getMissingMP3s. unfold_m.
  now rewrite getMissingMP3s_from_known.
Qed.

Lemma push_jobs_known missing : forall q st,
  known (files st) missing ->
  push_jobs missing q st =
  (Normal (q ++ flat_map (job_for (files st)) missing), st).
Proof.
  induction missing as [|g ms IH]; intros q st Hk; simpl.
  - unfold_m. now rewrite app_nil_r.
  - apply known_cons in Hk as [Hg Hk]. unfold_m. unfold job_for.
    destruct (obj_get (files st) g) as [r|] eqn:E; [|congruence].
    destruct (pickExt (exts r)) as [e|]; [|now apply IH].
    unfold truthy. destruct (String.eqb e ""); simpl.
    + now apply IH.
    + rewrite IH by assumption. now rewrite <- app_assoc.
Qed.

Lemma convertible_nonempty e : In e CONVERTABLE_EXTS -> truthy (Some e) = true.
Proof.
  simpl. intros [<-|[<-|[]]]; reflexivity.
Qed.

(** The loop over [info.exts] finds the first convertible entry. *)
Lemma pickExt_Some es e : pickExt es = Some e <-> first_convertible es e.
Proof.
  induction es as [|x t IH]; cbn [pickExt].
  - split; [discriminate|].
    intros [pre [post [E _]]]. destruct pre; discriminate.
  - destruct (arr_indexOf CONVERTABLE_EXTS x =? -1) eqn:Ex; cbn [negb].
    + apply Z.eqb_eq, arr_indexOf_absent in Ex.
      rewrite IH. split.
      * intros [pre [post [E [Hin Hpre]]]].
        exists (x :: pre), post. subst t. repeat split; auto.
        intros y [<-|Hy]; auto.
      * intros [pre [post [E [Hin Hpre]]]].
        destruct pre as [|p pre]; simpl in E; injection E as -> ->.
        -- contradiction.
        -- exists pre, post. repeat split; auto.
           intros y Hy. apply Hpre. now right.
    + apply arr_indexOf_present in Ex. split.
      * intros [= ->]. exists [], t.
        split; [reflexivity | split; [assumption | intros y []]].
      * intros [pre [post [E [Hin Hpre]]]].
        destruct pre as [|p pre]; simpl in E; injection E as -> ->.
        -- reflexivity.
        -- exfalso. apply (Hpre p); [now left | assumption].
Qed.

(** The loop leaves [ext] undefined when no entry is convertible. *)
Lemma pickExt_None es :
  pickExt es = None <-> forall x, In x es -> ~ In x CONVERTABLE_EXTS.
Proof.
  induction es as [|x t IH]; cbn [pickExt].
  - split; [intros _ y [] | reflexivity].
  - destruct (arr_indexOf CONVERTABLE_EXTS x =? -1) eqn:Ex; cbn [negb].
    + apply Z.eqb_eq, arr_indexOf_absent in Ex. rewrite IH. split.
      * intros H y [<-|Hy]; [assumption | now apply H].
      * intros H y Hy. apply H. now right.
    + apply arr_indexOf_present in Ex. split; [discriminate|].
      intros H. exfalso. apply (H x); [now left | assumption].
Qed.

Lemma job_for_In o g j :
  In j (job_for o g) <->
  exists r, obj_get o g = Some r /\ job_glob j = g /\
            first_convertible (exts r) (job_ext j).
Proof.
  unfold job_for. destruct (obj_get o g) as [r|].
  - destruct (pickExt (exts r)) as [e|] eqn:Ep.
    + pose proof Ep as Hf. apply pickExt_Some in Hf.
      rewrite convertible_nonempty by (destruct Hf as [? [? [_ [H _]]]]; exact H).
      simpl. split.
      * intros [<-|[]]. exists r. simpl. auto.
      * intros [r' [[= <-] [Hg He]]]. apply pickExt_Some in He.
        left. destruct j as [g' e']; simpl in *. congruence.
    + split; [intros [] |].
      intros [r' [[= <-] [_ He]]]. apply pickExt_Some in He. congruence.
  - split; [intros [] | intros [r [E _]]; discriminate].
Qed.

Lemma generateMP3List_loop_known ps : forall st,
  known (files st) ps ->
  forEach generateMP3List_body ps st =
  (Normal tt, set_mp3s (mp3s st ++ filter (has_mp3 (files st)) ps) st).
Proof.
  induction ps as [|g ps IH]; intros st Hk; simpl.
  - unfold_m. rewrite app_nil_r. now destruct st.
  - apply known_cons in Hk as [Hg Hk].
    unfold generateMP3List_body. unfold_m. unfold has_mp3.
    destruct (obj_get (files st) g) as [r|] eqn:E; [|congruence].
    destruct (arr_indexOf (exts r) MP3_EXT =? -1); simpl.
    + now apply IH.
    + rewrite IH by assumption. simpl. unfold set_mp3s; simpl.
      now rewrite <- app_assoc.
Qed.

Lemma generateMP3List_known st :
  known (files st) (paths st) ->
  generateMP3List st =
  (Normal tt, set_mp3s (filter (has_mp3 (files st)) (paths st)) st).
Proof.
  intros Hk. unfold generateMP3List. unfold_m.
  now rewrite generateMP3List_loop_known.
Qed.

(** ** Runs of the program *)

Section Runs.

Variable getFileExt : string -> string.

Lemma obj_lookup_own o k r : obj_get o k = Some r -> obj_lookup o k = Own r.
Proof. intros E. unfold obj_lookup. now rewrite E. Qed.

Lemma obj_lookup_inherited o k :
  obj_get o k = None -> inherited k = true -> obj_lookup o k = Inherited.
Proof. intros E H. unfold obj_lookup. now rewrite E, H. Qed.

Lemma obj_lookup_undefined o k :
  obj_get o k = None -> inherited k = false -> obj_lookup o k = Undefined.
Proof. intros E H. unfold obj_lookup. now rewrite E, H. Qed.

(** A key whose glob only Object.prototype knows leaves the catalog as it
    is. *)
Lemma scan_files_inherited key o :
  obj_get o (getGlob key) = None -> inherited (getGlob key) = true ->
  scan_files getFileExt key o = o.
Proof.
  intros E H. unfold scan_files.
  destruct (String.eqb (getGlob key) ""); [reflexivity|].
  rewrite obj_lookup_inherited by assumption.
  destruct (String.eqb (getFileExt key) ".txt"); [reflexivity|].
  now rewrite E.
Qed.

Lemma aborts_true key :
  aborts getFileExt key = true ->
  getGlob key <> "" /\ inherited (getGlob key) = true /\
  getFileExt key <> ".txt".
Proof.
  unfold aborts. intros H.
  apply andb_true_iff in H as [H H3]. apply andb_true_iff in H as [H1 H2].
  apply negb_true_iff in H1, H3.
  apply String.eqb_neq in H1, H3. auto.
Qed.

Lemma aborts_false key :
  aborts getFileExt key = false ->
  getGlob key = "" \/ inherited (getGlob key) = false \/
  getFileExt key = ".txt".
Proof.
  unfold aborts. intros H.
  destruct (String.eqb_spec (getGlob key) ""); [now left|].
  destruct (inherited (getGlob key)); [|now right; left].
  destruct (String.eqb_spec (getFileExt key) ".txt"); [now right; right|].
  discriminate.
Qed.

Lemma scan_key_closed key ini o ps ms l ip tq cp cq tr :
  own_names o ->
  scan_key getFileExt key (mkSys (mkFiles ini o ps ms) l ip tq cp cq tr) =
  ((if aborts getFileExt key then Throw TypeError else Normal tt),
   mkSys (mkFiles ini (scan_files getFileExt key o) ps ms) l ip
     (tq ++ key_items getFileExt key) cp cq tr).
Proof.
  intros Hown. unfold scan_key, scan_files, key_items, aborts.
  destruct (String.eqb (getGlob key) "");
    [unfold_m; now rewrite app_nil_r|].
  unfold bind at 1. unfold reads at 1. cbn [this files negb andb].
  destruct (obj_get o (getGlob key)) as [r|] eqn:E.
  - rewrite (obj_lookup_own _ _ _ E).
    replace (inherited (getGlob key)) with false.
    + unfold bind at 1, ret at 1. cbn [andb].
      destruct (String.eqb (getFileExt key) ".txt"); [reflexivity|].
      unfold on_this, update_file. unfold_m. rewrite E.
      now rewrite app_nil_r.
    + destruct (inherited (getGlob key)) eqn:Ei; [|reflexivity].
      rewrite (Hown _ Ei) in E. discriminate.
  - destruct (inherited (getGlob key)) eqn:Ei.
    + rewrite (obj_lookup_inherited _ _ E Ei).
      unfold bind at 1, ret at 1. cbn [andb].
      destruct (String.eqb (getFileExt key) ".txt"); [reflexivity|].
      unfold on_this, update_file. unfold_m. rewrite E. unfold_m.
      now rewrite app_nil_r.
    + rewrite (obj_lookup_undefined _ _ E Ei).
      unfold on_this at 1. unfold_m.
      destruct (String.eqb (getFileExt key) ".txt"); [reflexivity|].
      unfold on_this, update_file. unfold_m. rewrite obj_get_put_eq.
      now rewrite app_nil_r.
Qed.

(** A key with no glob leaves the catalog as it is. *)
Lemma scan_files_skip key o : getGlob key = "" -> scan_files getFileExt key o = o.
Proof. intros E. unfold scan_files. now rewrite E. Qed.

Lemma scan_files_get_other key o g :
  g <> getGlob key -> obj_get (scan_files getFileExt key o) g = obj_get o g.
Proof.
  intros Hne. unfold scan_files.
  destruct (String.eqb (getGlob key) ""); [reflexivity|].
  assert (H1 : obj_get
            match obj_lookup o (getGlob key) with
            | Undefined => obj_put o (getGlob key) (mkRecording None [])
            | _ => o
            end g = obj_get o g).
  { destruct (obj_lookup o (getGlob key)); try reflexivity.
    apply obj_get_put_ne. congruence. }
  destruct (String.eqb (getFileExt key) ".txt"); [exact H1|].
  match goal with
  | |- context [match obj_get ?x ?k with Some _ => _ | None => _ end] =>
      destruct (obj_get x k) as [r|]
  end; [|exact H1].
  rewrite obj_get_put_ne by congruence. exact H1.
Qed.

Lemma scan_files_get_same key o :
  getGlob key <> "" ->
  obj_get o (getGlob key) <> None \/ inherited (getGlob key) = false ->
  obj_get (scan_files getFileExt key o) (getGlob key) =
  Some (mkRecording (sentence (entry_or_new o (getGlob key)))
          (exts (entry_or_new o (getGlob key)) ++ key_exts getFileExt (getGlob key) key)).
Proof.
  intros Hne Hcase. unfold scan_files, key_exts, entry_or_new.
  apply String.eqb_neq in Hne. rewrite Hne, String.eqb_refl.
  destruct (obj_get o (getGlob key)) as [r|] eqn:E.
  - rewrite (obj_lookup_own _ _ _ E).
    destruct (String.eqb (getFileExt key) ".txt").
    + rewrite E, app_nil_r. now destruct r.
    + rewrite E. now rewrite obj_get_put_eq.
  - destruct Hcase as [Hc|Hc]; [congruence|].
    rewrite (obj_lookup_undefined _ _ E Hc).
    destruct (String.eqb (getFileExt key) ".txt").
    + now rewrite obj_get_put_eq.
    + rewrite obj_get_put_eq. now rewrite obj_get_put_eq.
Qed.

(** The scan makes no entry under a name of Object.prototype. *)
Lemma scan_files_own_names key o :
  own_names o -> own_names (scan_files getFileExt key o).
Proof.
  intros Hown g Hg.
  destruct (string_dec g (getGlob key)) as [->|Hne].
  - rewrite scan_files_inherited; auto.
  - rewrite scan_files_get_other by assumption. auto.
Qed.

Lemma scan_all_own_names contents : forall o,
  own_names o -> own_names (scan_all getFileExt contents o).
Proof.
  induction contents as [|key t IH]; intros o H; simpl; [assumption|].
  apply IH. now apply scan_files_own_names.
Qed.

Lemma own_names_nil : own_names [].
Proof. intros g _. reflexivity. Qed.

Lemma scan_closed contents : forall ini o ps ms l ip tq cp cq tr,
  own_names o ->
  forEach (scan_key getFileExt) contents
    (mkSys (mkFiles ini o ps ms) l ip tq cp cq tr) =
  ((if scan_completes getFileExt contents then Normal tt
    else Throw TypeError),
   mkSys (mkFiles ini (scan_all getFileExt (scanned getFileExt contents) o)
            ps ms) l ip
     (tq ++ transcript_items getFileExt (scanned getFileExt contents))
     cp cq tr).
Proof.
  induction contents as [|key t IH]; intros ini o ps ms l ip tq cp cq tr Hown;
    simpl.
  - unfold_m. now rewrite app_nil_r.
  - unfold bind at 1. rewrite scan_key_closed by assumption.
    destruct (aborts getFileExt key) eqn:Ea; cbn [negb andb].
    + apply aborts_true in Ea as [Hne [Hin Htxt]].
      rewrite scan_files_inherited by auto.
      unfold key_items. apply String.eqb_neq in Hne, Htxt.
      rewrite Hne, Htxt. simpl. now rewrite !app_nil_r.
    + rewrite IH by now apply scan_files_own_names.
      simpl. now rewrite <- app_assoc.
Qed.

Lemma scanned_In key contents :
  In key (scanned getFileExt contents) ->
  In key contents /\ aborts getFileExt key = false.
Proof.
  induction contents as [|k t IH]; simpl; [intros []|].
  destruct (aborts getFileExt k) eqn:Ea; [intros []|].
  intros [<-|H]; [auto | split; [right|]; now apply IH].
Qed.

Lemma scanned_complete contents :
  scan_completes getFileExt contents = true ->
  scanned getFileExt contents = contents.
Proof.
  induction contents as [|k t IH]; simpl; [reflexivity|].
  destruct (aborts getFileExt k); simpl; [discriminate|].
  intros H. now rewrite IH.
Qed.

(** The keys gone through are the first of the listing. *)
Lemma scanned_prefix contents :
  exists rest, contents = scanned getFileExt contents ++ rest.
Proof.
  induction contents as [|k t [rest IH]]; simpl; [now exists []|].
  destruct (aborts getFileExt k); [now exists (k :: t)|].
  exists rest. simpl. now rewrite <- IH.
Qed.

(** When the loop throws, a key of the listing is one it cannot get
    past. *)
Lemma scan_completes_false contents :
  scan_completes getFileExt contents = false <->
  exists key, In key contents /\ aborts getFileExt key = true.
Proof.
  unfold scan_completes. split.
  - intros H. destruct (forallb _ contents) eqn:E; [discriminate|].
    clear H. induction contents as [|k t IH]; simpl in E; [discriminate|].
    destruct (aborts getFileExt k) eqn:Ea.
    + exists k. split; [now left | assumption].
    + destruct (IH E) as [key [Hin Hk]]. exists key. split; [now right|assumption].
  - intros [key [Hin Hk]].
    destruct (forallb _ contents) eqn:E; [|reflexivity].
    rewrite forallb_forall in E. specialize (E key Hin).
    rewrite Hk in E. discriminate.
Qed.

Lemma key_exts_other g key : g <> getGlob key -> key_exts getFileExt g key = [].
Proof.
  intros Hne. unfold key_exts.
  destruct (String.eqb (getGlob key) ""); [reflexivity|].
  destruct (String.eqb (getFileExt key) ".txt"); [reflexivity|].
  destruct (String.eqb_spec (getGlob key) g); [congruence | reflexivity].
Qed.

Lemma key_exts_skip g key : getGlob key = "" -> key_exts getFileExt g key = [].
Proof. intros E. unfold key_exts. now rewrite E. Qed.

Lemma key_exts_txt g key :
  getFileExt key = ".txt" -> key_exts getFileExt g key = [].
Proof.
  intros E. unfold key_exts. rewrite E.
  now destruct (String.eqb (getGlob key) "").
Qed.

(** After one key, every entry holds what it held, or what the scan creates
    for it, followed by the extension the key appends. *)
Lemma scan_files_entry key o g r :
  obj_get (scan_files getFileExt key o) g = Some r ->
  sentence r = sentence (entry_or_new o g) /\
  exts r = exts (entry_or_new o g) ++ key_exts getFileExt g key.
Proof.
  destruct (string_dec (getGlob key) "") as [E0|N0].
  - rewrite scan_files_skip, key_exts_skip, app_nil_r by assumption.
    unfold entry_or_new. now intros ->.
  - destruct (string_dec g (getGlob key)) as [->|Hne].
    + destruct (obj_get o (getGlob key)) as [r0|] eqn:E.
      * rewrite scan_files_get_same by (try assumption; left; congruence).
        now intros [= <-].
      * destruct (inherited (getGlob key)) eqn:Ei.
        -- rewrite scan_files_inherited by assumption. congruence.
        -- rewrite scan_files_get_same by (try assumption; now right).
           now intros [= <-].
    + rewrite scan_files_get_other, key_exts_other, app_nil_r by assumption.
      unfold entry_or_new. now intros ->.
Qed.

(** An entry, once there, stays. *)
Lemma scan_files_keeps key o g :
  obj_get o g <> None -> obj_get (scan_files getFileExt key o) g <> None.
Proof.
  intros H.
  destruct (string_dec (getGlob key) "") as [E0|N0].
  - now rewrite scan_files_skip.
  - destruct (string_dec g (getGlob key)) as [->|Hne].
    + rewrite scan_files_get_same by (try assumption; now left).
      discriminate.
    + now rewrite scan_files_get_other.
Qed.

(** A key that makes no entry for its glob appends nothing, unless the
    scan cannot get past it. *)
Lemma key_exts_no_entry key o g :
  aborts getFileExt key = false ->
  obj_get (scan_files getFileExt key o) g = None ->
  key_exts getFileExt g key = [].
Proof.
  intros Ha E1.
  destruct (string_dec (getGlob key) "") as [Ek|Nk];
    [now apply key_exts_skip|].
  destruct (string_dec g (getGlob key)) as [->|Hne];
    [|now apply key_exts_other].
  destruct (aborts_false _ Ha) as [H|[H|H]].
  - contradiction.
  - rewrite scan_files_get_same in E1 by (try assumption; now right).
    discriminate.
  - now apply key_exts_txt.
Qed.

(** After the scan, the encodings of a recording are its encodings before
    the scan followed by the extensions of the keys gone through. *)
Lemma scan_all_entry contents : forall o g r,
  (forall key, In key contents -> aborts getFileExt key = false) ->
  obj_get (scan_all getFileExt contents o) g = Some r ->
  exts r = exts (entry_or_new o g) ++ listed_exts getFileExt contents g.
Proof.
  induction contents as [|key t IH]; intros o g r Hno H; simpl in *.
  - rewrite app_nil_r. unfold entry_or_new. now rewrite H.
  - apply IH in H; [|intros k Hk; apply Hno; now right].
    rewrite H. rewrite app_assoc. f_equal.
    unfold entry_or_new at 1.
    destruct (obj_get (scan_files getFileExt key o) g) as [r1|] eqn:E1.
    + now apply scan_files_entry in E1.
    + assert (E0 : obj_get o g = None).
      { destruct (obj_get o g) eqn:E0; [|reflexivity].
        exfalso. apply (scan_files_keeps key o g); congruence. }
      unfold entry_or_new. rewrite E0. simpl.
      symmetry. apply (key_exts_no_entry key o); [|assumption].
      apply Hno. now left.
Qed.

Lemma obj_put_NoDup o k v :
  NoDup (map fst o) -> NoDup (map fst (obj_put o k v)).
Proof.
  intros H. destruct (in_dec string_dec k (map fst o)) as [Hin|Hout].
  - now rewrite obj_put_keys_present.
  - rewrite obj_put_keys_absent by assumption.
    apply NoDup_app; [assumption | repeat constructor; intros [] |].
    intros x Hx [<-|[]]. contradiction.
Qed.

Lemma scan_files_NoDup key o :
  NoDup (map fst o) -> NoDup (map fst (scan_files getFileExt key o)).
Proof.
  intros H. unfold scan_files.
  destruct (String.eqb (getGlob key) ""); [assumption|].
  assert (H1 : NoDup (map fst
            match obj_lookup o (getGlob key) with
            | Undefined => obj_put o (getGlob key) (mkRecording None [])
            | _ => o
            end)).
  { destruct (obj_lookup o (getGlob key)); try assumption.
    now apply obj_put_NoDup. }
  destruct (String.eqb (getFileExt key) ".txt"); [exact H1|].
  match goal with
  | |- context [match obj_get ?x ?k with Some _ => _ | None => _ end] =>
      destruct (obj_get x k) as [r|]
  end; [|exact H1].
  now apply obj_put_NoDup.
Qed.

Lemma scan_all_NoDup contents : forall o,
  NoDup (map fst o) -> NoDup (map fst (scan_all getFileExt contents o)).
Proof.
  induction contents as [|key t IH]; intros o H; simpl; [assumption|].
  apply IH. now apply scan_files_NoDup.
Qed.

(** A listed key with no '.' (a directory marker) is skipped: it creates
    no entry and queues no transcript. *)
Lemma scan_skips_key_without_dot key o :
  indexOf "." key = -1 ->
  scan_files getFileExt key o = o /\ key_items getFileExt key = [].
Proof.
  intros H. apply getGlob_no_dot in H. split.
  - now apply scan_files_skip.
  - unfold key_items. now rewrite H.
Qed.

Lemma known_Object_keys o : known o (Object_keys o).
Proof. intros g Hg. apply obj_get_key. now apply Object_keys_In. Qed.

Lemma known_filter o ps f : known o ps -> known o (filter f ps).
Proof. intros H g Hg. apply H. apply filter_In in Hg. tauto. Qed.

Lemma convertMissingToMP3s_known st :
  known (files st) (paths st) ->
  convertMissingToMP3s st =
  (Normal
     match filter (fun g => negb (has_mp3 (files st) g)) (paths st) with
     | [] => NothingToConvert
     | missing => Converting (flat_map (job_for (files st)) missing)
     end, st).
Proof.
  intros Hk. unfold convertMissingToMP3s. unfold bind at 1.
  rewrite getMissingMP3s_known by assumption.
  pose proof (known_filter _ _ (fun g => negb (has_mp3 (files st) g)) Hk) as Hm.
  destruct (filter _ (paths st)) as [|m ms] eqn:E; [reflexivity|].
  replace (Z.of_nat (length (m :: ms)) <? 1) with false
    by (symmetry; apply Z.ltb_ge; simpl length; lia).
  unfold bind. rewrite push_jobs_known by assumption. reflexivity.
Qed.

Lemma listing_callback_data contents s :
  own_names (files (this s)) ->
  listing_callback getFileExt (S3Data contents) s =
  ((if scan_completes getFileExt contents then Normal tt
    else Throw TypeError),
   after_listing getFileExt contents s).
Proof.
  destruct s as [[ini o ps ms] l ip tq cp cq tr]. cbn [this files].
  intros Hown.
  unfold listing_callback, after_listing.
  unfold bind at 1. unfold modify at 1. unfold set_listing. simpl.
  unfold bind at 1. rewrite scan_closed by assumption.
  destruct (scan_completes getFileExt contents); [|reflexivity].
  unfold bind at 1. unfold on_this at 1. unfold modify at 1.
  unfold set_paths, set_this. simpl.
  unfold bind at 1. unfold reads at 1. simpl.
  set (o' := scan_all getFileExt (scanned getFileExt contents) o).
  destruct (Object_keys o') as [|p ps'] eqn:Ek.
  - reflexivity.
  - replace (Z.of_nat (length (p :: ps')) =? 0) with false
      by (symmetry; apply Z.eqb_neq; simpl length; lia).
    rewrite <- Ek.
    assert (Hk : known o' (Object_keys o')) by apply known_Object_keys.
    clear Ek. revert Hk.
    generalize (Object_keys o') as pl.
    intros pl Hk.
    unfold bind at 1. unfold on_this at 1. simpl.
    rewrite convertMissingToMP3s_known by exact Hk.
    simpl.
    destruct (filter _ pl) as [|m mss]; reflexivity.
Qed.

Lemma update_file_touched o g f st :
  o = files st -> touched f g st (snd (update_file o g f st)).
Proof.
  intros ->. unfold update_file, touched.
  destruct (obj_get (files st) g) as [r|]; simpl; [|now left].
  right. now exists r.
Qed.

Lemma process_callback_touched recv item r st :
  exists body,
    touched (set_sentence body) (item_glob item) st
      (snd (process_callback recv item r st)).
Proof.
  destruct r as [err|body]; simpl.
  - exists "". now left.
  - exists body. destruct recv; unfold_m; [|now left].
    unfold assign_sentence, obj_lookup.
    destruct (obj_get (files st) (item_glob item)) as [rec|] eqn:E; unfold_m.
    + right. now exists rec.
    + destruct (inherited (item_glob item)); now left.
Qed.

Lemma convert_put_callback_touched recv job r st :
  touched (push_ext MP3_EXT) (job_glob job) st
    (snd (convert_put_callback recv job r st)).
Proof.
  destruct r as [err|u]; simpl; [now left|].
  destruct recv; unfold_m; [|now left].
  now apply update_file_touched.
Qed.

Lemma touched_fields f g st st' :
  touched f g st st' ->
  initialized st' = initialized st /\ paths st' = paths st /\
  mp3s st' = mp3s st /\ map fst (files st') = map fst (files st) /\
  (forall k, obj_get (files st) k <> None -> obj_get (files st') k <> None).
Proof.
  intros [->|[r [E ->]]]; [repeat split; auto|].
  simpl. repeat split; auto.
  - apply obj_put_keys_present. eapply obj_get_Some_key; eassumption.
  - intros k Hk. destruct (string_dec g k) as [->|Hne].
    + rewrite obj_get_put_eq. discriminate.
    + now rewrite obj_get_put_ne.
Qed.

Lemma then_callback_known s :
  known (files (this s)) (paths (this s)) ->
  then_callback s =
  (Normal tt,
   mkSys (mkFiles true (files (this s)) (paths (this s))
            (filter (has_mp3 (files (this s))) (paths (this s))))
     (listing s) (settle Fulfilled (initPromise s)) (txtQueue s)
     (convPromise s) (convQueue s) (thenRan s)).
Proof.
  intros Hk. unfold then_callback.
  unfold bind at 1. unfold on_this at 1.
  rewrite generateMP3List_known by assumption.
  reflexivity.
Qed.

Lemma boot_Inv : Inv boot.
Proof.
  constructor; simpl; try (intros; discriminate); try constructor;
    try (intros g []); try discriminate; auto.
Qed.

Lemma Inv_touched f g s s' :
  Inv s -> touched f g (this s) (this s') ->
  listing s = Listed -> listing s' = Listed ->
  initPromise s' = initPromise s -> convPromise s' = convPromise s ->
  Inv s'.
Proof.
  intros HI Ht HL HL' Hip Hcp.
  destruct (touched_fields _ _ _ _ Ht) as [Hi [Hp [Hm [Hk Hg]]]].
  destruct HI as [I1 I2 I3 I4 I5 I6 I7 I8 I9].
  constructor.
  - now rewrite Hk.
  - rewrite Hp. intros k Hin. apply Hg. now apply I2.
  - now rewrite Hp.
  - now rewrite Hp, Hm.
  - now rewrite Hi, Hip.
  - now rewrite Hip.
  - rewrite Hip. intros _. apply I7. rewrite HL. discriminate.
  - intros H. congruence.
  - rewrite Hi, Hp, Hcp. intros H. split; [assumption | now apply I9].
Qed.

Lemma queued_Listed s :
  Inv s -> txtQueue s <> [] \/ convQueue s <> [] \/ convPromise s <> None ->
  listing s = Listed.
Proof.
  intros HI H.
  destruct (listing s) eqn:E; [| | |reflexivity];
    destruct (inv_before s HI) as [_ [H1 [H2 H3]]];
    try (rewrite E; discriminate); tauto.
Qed.

Lemma nth_error_nonempty {A} (l : list A) i x : nth_error l i = Some x -> l <> [].
Proof. intros H ->. destruct i; discriminate. Qed.

Lemma after_listing_Inv contents s :
  Inv s -> listing s = Requested -> Inv (after_listing getFileExt contents s).
Proof.
  intros HI HL.
  destruct (inv_before s HI) as [Hthis [Htq [Hcp Hcq]]];
    [rewrite HL; discriminate|].
  assert (Hip : initPromise s = Some Pending).
  { pose proof (inv_called s HI) as Hc. pose proof (inv_no_reject s HI) as Hr.
    pose proof (inv_ready s HI) as Hy. rewrite Hthis in Hy. simpl in Hy.
    destruct (initPromise s) as [[| |e]|].
    - reflexivity.
    - destruct Hy as [_ Hy]. discriminate Hy. reflexivity.
    - exfalso. now apply (Hr e).
    - exfalso. apply Hc; [rewrite HL; discriminate | reflexivity]. }
  unfold after_listing. rewrite Hthis, Hip, Hcp. simpl.
  set (o := scan_all getFileExt (scanned getFileExt contents) []).
  assert (Hnd : NoDup (map fst o)).
  { apply scan_all_NoDup. constructor. }
  assert (Hpd : NoDup (Object_keys o)).
  { eapply Permutation_NoDup; [symmetry; apply Object_keys_perm | exact Hnd]. }
  pose proof (known_Object_keys o) as Hk.
  destruct (scan_completes getFileExt contents).
  - revert Hpd Hk. generalize (Object_keys o) as pl.
    intros [|p pl] Hpd Hk.
    + constructor; simpl; auto; try discriminate; try tauto;
        apply incl_nil_l.
    + destruct (filter _ (p :: pl)) as [|m mss];
        constructor; simpl; auto; try discriminate;
        try apply incl_nil_l; try (split; discriminate);
        try (intros H; now elim H).
  - constructor; simpl; auto; try discriminate;
      try apply incl_nil_l; try (split; discriminate);
      try (intros H; now elim H); try (intros g []); try constructor.
Qed.

(** Firing an event keeps the invariant. *)
Lemma fire_Inv e s s' :
  Inv s -> fire getFileExt e s = Some s' -> Inv s'.
Proof.
  intros HI Hf. destruct e as [|r|i recv r|i recv r| |err|]; simpl in Hf.
  - (* CallInit *)
    destruct (listing s) eqn:HL; try discriminate. injection Hf as <-.
    destruct (inv_before s HI) as [Hthis [Htq [Hcp Hcq]]];
      [rewrite HL; discriminate|].
    destruct HI as [I1 I2 I3 I4 I5 I6 I7 I8 I9].
    constructor; simpl; auto; try discriminate.
    + rewrite Hthis. simpl. split; discriminate.
    + rewrite Hthis. simpl. discriminate.
  - (* ListingCb *)
    destruct (listing s) eqn:HL; try discriminate. injection Hf as <-.
    destruct r as [err|contents].
    + simpl. destruct HI as [I1 I2 I3 I4 I5 I6 I7 I8 I9].
      constructor; simpl; auto.
      * intros _. apply I7. rewrite HL. discriminate.
      * intros _. apply I8. rewrite HL. discriminate.
      * intros H. apply I9 in H. rewrite HL in H. destruct H; discriminate.
    + destruct (inv_before s HI) as [Hthis _]; [rewrite HL; discriminate|].
      rewrite listing_callback_data
        by (rewrite Hthis; apply own_names_nil).
      simpl. now apply after_listing_Inv.
  - (* TranscriptCb *)
    destruct (nth_error (txtQueue s) i) as [item|] eqn:En; [|discriminate].
    injection Hf as <-.
    assert (HL : listing s = Listed).
    { apply queued_Listed; [assumption|]. left.
      eapply nth_error_nonempty; eassumption. }
    destruct (process_callback_touched recv item r (this s)) as [body Ht].
    eapply Inv_touched with (s := s); [assumption | | assumption | | |];
      unfold on_this; simpl;
      destruct (process_callback recv item r (this s)); simpl in *;
      try reflexivity; try assumption. exact Ht.
  - (* ConvertPutCb *)
    destruct (nth_error (convQueue s) i) as [job|] eqn:En; [|discriminate].
    injection Hf as <-.
    assert (HL : listing s = Listed).
    { apply queued_Listed; [assumption|]. right; left.
      eapply nth_error_nonempty; eassumption. }
    pose proof (convert_put_callback_touched recv job r (this s)) as Ht.
    eapply Inv_touched with (s := s); [assumption | | assumption | | |];
      unfold on_this; simpl;
      destruct (convert_put_callback recv job r (this s)); simpl in *;
      try reflexivity; try assumption. exact Ht.
  - (* QueueDrain *)
    destruct (convPromise s) as [[| |e]|] eqn:Ec; try discriminate.
    injection Hf as <-.
    assert (HL : listing s = Listed).
    { apply queued_Listed; [assumption|]. right; right. congruence. }
    destruct HI as [I1 I2 I3 I4 I5 I6 I7 I8 I9].
    constructor; simpl; auto.
    all: intros H; try congruence.
  - (* QueueError *)
    destruct (convPromise s) as [[| |e]|] eqn:Ec; try discriminate.
    injection Hf as <-.
    assert (HL : listing s = Listed).
    { apply queued_Listed; [assumption|]. right; right. congruence. }
    destruct HI as [I1 I2 I3 I4 I5 I6 I7 I8 I9].
    constructor; simpl; auto.
    all: intros H; try congruence.
    split; [assumption|].
    destruct (I9 H) as [_ [Hp|Hp]]; [now left | congruence].
  - (* ThenCb *)
    destruct (convPromise s) as [[| |e]|] eqn:Ec; try discriminate.
    destruct (thenRan s) eqn:Et; [discriminate|]. injection Hf as <-.
    assert (HL : listing s = Listed).
    { apply queued_Listed; [assumption|]. right; right. congruence. }
    rewrite then_callback_known by (simpl; apply (inv_known s HI)).
    simpl.
    assert (Hip : settle Fulfilled (initPromise s) = Some Fulfilled).
    { pose proof (inv_called s HI) as Hc.
      pose proof (inv_no_reject s HI) as Hr.
      destruct (initPromise s) as [[| |e]|]; simpl; try reflexivity.
      - exfalso. now apply (Hr e).
      - exfalso. apply Hc; [rewrite HL; discriminate | reflexivity]. }
    destruct HI as [I1 I2 I3 I4 I5 I6 I7 I8 I9].
    constructor; simpl; auto; try (rewrite Hip); try discriminate.
    + intros x Hx. apply filter_In in Hx. tauto.
    + tauto.
    + intros H. congruence.
Qed.

Lemma run_Inv tr : forall s s',
  Inv s -> run getFileExt tr s = Some s' -> Inv s'.
Proof.
  induction tr as [|e tr IH]; intros s s' HI Hr; simpl in Hr.
  - now injection Hr as <-.
  - destruct (fire getFileExt e s) as [s1|] eqn:Ef; [|discriminate].
    eapply IH; [|eassumption]. eapply fire_Inv; eassumption.
Qed.

(** Every state of every run satisfies the invariant. *)
Lemma reachable_Inv tr s : run getFileExt tr boot = Some s -> Inv s.
Proof. apply run_Inv, boot_Inv. Qed.

Lemma fire_listing_data contents s :
  Inv s ->
  fire getFileExt (ListingCb (S3Data contents)) s =
  match listing s with
  | Requested => Some (after_listing getFileExt contents s)
  | _ => None
  end.
Proof.
  intros HI. unfold fire. destruct (listing s) eqn:HL; try reflexivity.
  destruct (inv_before s HI) as [Hthis _]; [rewrite HL; discriminate|].
  rewrite listing_callback_data by (rewrite Hthis; apply own_names_nil).
  reflexivity.
Qed.

(** ** The random draw *)

Lemma pos_pow2 e : 0 <= e -> Z.pos (Z.to_pos (2 ^ e)) = 2 ^ e.
Proof. intros H. apply Z2Pos.id. apply Z.pow_pos_nonneg; lia. Qed.

Lemma value_lt_1 d :
  0 <= mant d -> (value d < 1)%Q ->
  mant d = 0 \/ (expo d < 0 /\ mant d < 2 ^ (- expo d)).
Proof.
  intros Hm. unfold value.
  destruct (Z.leb_spec 0 (expo d)) as [He|He].
  - unfold Qlt. simpl. rewrite Z.mul_1_r. intros H.
    assert (0 < 2 ^ expo d) by (apply Z.pow_pos_nonneg; lia).
    left. nia.
  - unfold Qlt. simpl. rewrite pos_pow2 by lia. intros H. right. lia.
Qed.

(** What rounding to 53 bits gives: an integer kept as it is when it has
    53 bits at most, and otherwise one of the two neighbours of the exact
    quotient, the upper one when the remainder is above half a unit, or is
    half a unit with an odd quotient. *)
Lemma round53_spec m :
  0 <= m ->
  let (m', k) := round53 m in
  0 <= k /\ 0 <= m' /\
  (k = 0 -> m' = m /\ m < 2 ^ 53) /\
  (0 < k ->
     2 ^ 52 <= m / 2 ^ k < 2 ^ 53 /\
     (m' = m / 2 ^ k \/ m' = m / 2 ^ k + 1) /\
     (m' = m / 2 ^ k + 1 <->
        2 ^ (k - 1) < m mod 2 ^ k \/
        (m mod 2 ^ k = 2 ^ (k - 1) /\ Z.odd (m / 2 ^ k) = true))).
Proof.
  intros Hm. unfold round53.
  destruct (Z.leb_spec (Z.log2 m - 52) 0) as [Hk|Hk].
  - cbv beta iota. split; [lia|]. split; [lia|].
    split; [|intros H; exfalso; lia].
    intros _. split; [reflexivity|].
    destruct (Z.eq_dec m 0) as [->|Hne]; [reflexivity|].
    apply Z.log2_lt_pow2; lia.
  - assert (Hpos : 0 < m).
    { destruct (Z.eq_dec m 0) as [->|Hne]; [simpl in Hk; lia | lia]. }
    set (k := Z.log2 m - 52) in *.
    pose proof (Z.log2_spec m Hpos) as [Hlo Hhi].
    replace (Z.log2 m) with (k + 52) in Hlo by lia.
    replace (Z.succ (Z.log2 m)) with (k + 53) in Hhi by lia.
    rewrite Z.pow_add_r in Hlo, Hhi by lia.
    assert (H2k : 0 < 2 ^ k) by (apply Z.pow_pos_nonneg; lia).
    assert (Hq : 2 ^ 52 <= m / 2 ^ k < 2 ^ 53).
    { split.
      - apply Z.div_le_lower_bound; lia.
      - apply Z.div_lt_upper_bound; lia. }
    assert (Hodd : forall q, Z.odd q = negb (Z.even q)).
    { intros q. now rewrite Z.negb_even. }
    cbv zeta.
    destruct (Z.ltb_spec (m mod 2 ^ k) (2 ^ (k - 1))) as [Hr|Hr];
      cbn [orb andb].
    + split; [lia|]. split; [lia|]. split; [intros H; exfalso; lia|].
      intros _. split; [exact Hq|]. split; [now left|]. split; [lia|].
      intros [H|[H _]]; lia.
    + destruct (Z.eqb_spec (m mod 2 ^ k) (2 ^ (k - 1))) as [He|He];
        cbn [orb andb].
      * destruct (Z.even (m / 2 ^ k)) eqn:Ev.
        -- split; [lia|]. split; [lia|]. split; [intros H; exfalso; lia|].
           intros _. split; [exact Hq|]. split; [now left|]. split; [lia|].
           intros [H|[_ H]]; [lia|]. rewrite Hodd, Ev in H. discriminate.
        -- split; [lia|]. split; [lia|]. split; [intros H; exfalso; lia|].
           intros _. split; [exact Hq|]. split; [now right|].
           split; [|reflexivity]. intros _. right.
           split; [assumption|]. now rewrite Hodd, Ev.
      * split; [lia|]. split; [lia|]. split; [intros H; exfalso; lia|].
        intros _. split; [exact Hq|]. split; [now right|].
        split; [|reflexivity]. intros _. left. lia.
Qed.

(** The product of a double below 1 and a positive integer, rounded and
    floored, is below the integer. *)
Lemma random_index_range (rnd : Double) (n : Z) :
  is_double rnd -> (value rnd < 1)%Q -> 0 < n ->
  0 <= Math_floor (times rnd n) < n.
Proof.
  intros [[Hm0 Hm1] He] Hlt Hn.
  destruct rnd as [m e]. cbn [mant expo] in *.
  apply value_lt_1 in Hlt; [|assumption]. cbn [mant expo] in Hlt.
  unfold times, Math_floor. cbn [mant expo].
  destruct Hlt as [->|[Hneg Hmd]].
  - (* the draw is zero *)
    rewrite Z.mul_0_l. change (round53 0) with (0, 0). cbn [mant expo].
    destruct (0 <=? e + 0); [rewrite Z.mul_0_l | rewrite Zdiv_0_l]; lia.
  - pose proof (round53_spec (m * n)) as Hs.
    destruct (round53 (m * n)) as [m' k].
    destruct Hs as [Hk [Hm' [Hz Hp]]]; [nia|].
    cbn [mant expo].
    set (D := 2 ^ (- e)) in *.
    assert (HD : 0 < D) by (apply Z.pow_pos_nonneg; lia).
    assert (Hbound : m' * 2 ^ k < n * D).
    { destruct (Z.eq_dec k 0) as [->|Hk0].
      - destruct (Hz eq_refl) as [-> _]. simpl. nia.
      - destruct Hp as [Hq [Hcase Hup]]; [lia|].
        assert (H2k : 0 < 2 ^ k) by (apply Z.pow_pos_nonneg; lia).
        pose proof (Z.div_mod (m * n) (2 ^ k)) as Hdm.
        pose proof (Z.mod_pos_bound (m * n) (2 ^ k) H2k) as Hr.
        assert (Hh : 2 * 2 ^ (k - 1) = 2 ^ k).
        { rewrite <- Z.pow_succ_r by lia. f_equal. lia. }
        (* the rounded product is the product plus half a unit at most *)
        assert (Hr1 : 2 * (m' * 2 ^ k) <= 2 * (m * n) + 2 ^ k).
        { destruct Hcase as [->| ->].
          - nia.
          - assert (Hge : 2 ^ (k - 1) <= (m * n) mod 2 ^ k).
            { destruct Hup as [Hup _].
              destruct (Hup eq_refl) as [H|[H _]]; lia. }
            nia. }
        (* half a unit is at most the product over 2^53 *)
        assert (Hr2 : 2 ^ 52 * 2 ^ k <= m * n) by nia.
        (* a double below 1 is at most 1 - 2^-53 *)
        assert (Hr3 : m * (2 ^ 53 + 1) < D * 2 ^ 53).
        { destruct (Z.le_gt_cases D (2 ^ 53)) as [HDs|HDl].
          - nia.
          - assert (2 ^ 54 <= D).
            { unfold D in *. destruct (Z.le_gt_cases 54 (- e)) as [H54|H54].
              - apply Z.pow_le_mono_r; lia.
              - exfalso.
                assert (2 ^ (- e) <= 2 ^ 53)
                  by (apply Z.pow_le_mono_r; lia).
                lia. }
            nia. }
        nia. }
    assert (Hk2 : 2 ^ k = 2 ^ (e + k) * D \/ e + k < 0).
    { destruct (Z.le_gt_cases 0 (e + k)) as [H|H]; [left|now right].
      unfold D. rewrite <- Z.pow_add_r by lia. f_equal. lia. }
    destruct (Z.leb_spec 0 (e + k)) as [HE|HE].
    + destruct Hk2 as [Hk2|Hk2]; [|lia].
      assert (0 < 2 ^ (e + k)) by (apply Z.pow_pos_nonneg; lia).
      split; [nia|]. rewrite Hk2 in Hbound. nia.
    + assert (HG : 0 < 2 ^ (- (e + k))) by (apply Z.pow_pos_nonneg; lia).
      split; [apply Z.div_pos; lia|].
      apply Z.div_lt_upper_bound; [assumption|].
      assert (HDG : D = 2 ^ (- (e + k)) * 2 ^ k).
      { unfold D. rewrite <- Z.pow_add_r by lia. f_equal. lia. }
      assert (H2k : 0 < 2 ^ k) by (apply Z.pow_pos_nonneg; lia).
      rewrite HDG in Hbound. nia.
Qed.

Lemma pow2_pos e : 0 <= e -> 0 < 2 ^ e.
Proof. intros H. apply Z.pow_pos_nonneg; lia. Qed.

Lemma pow2_split a b : 0 <= a -> 0 <= b -> 2 ^ (a + b) = 2 ^ a * 2 ^ b.
Proof. intros Ha Hb. now apply Z.pow_add_r. Qed.

(** Powers of two are a factor of two apart. *)
Lemma pow2_lt_twice a b :
  0 <= a -> 0 <= b -> 2 ^ a < 2 * 2 ^ b -> 2 ^ a <= 2 ^ b.
Proof.
  intros Ha Hb H. rewrite <- Z.pow_succ_r in H by assumption.
  apply Z.pow_lt_mono_r_iff in H; [|lia|lia].
  apply Z.pow_le_mono_r; lia.
Qed.

Lemma pow2_le_factor a b :
  0 <= a -> 0 <= b -> 2 ^ a <= 2 ^ b -> 2 ^ b = 2 ^ a * 2 ^ (b - a) /\ a <= b.
Proof.
  intros Ha Hb H. apply Z.pow_le_mono_r_iff in H; [|lia|lia].
  split; [|assumption]. rewrite <- Z.pow_add_r by lia. f_equal. lia.
Qed.

(** The integers up to 2^52 and their place among the powers of two. *)
Lemma log2_up_bounds k :
  0 < k <= 2 ^ 52 ->
  let c := 54 - Z.log2_up k in
  2 <= c <= 54 /\ 2 ^ 53 < k * 2 ^ c <= 2 ^ 54.
Proof.
  intros [Hk0 Hk1]. cbv zeta.
  assert (HL0 : 0 <= Z.log2_up k) by apply Z.log2_up_nonneg.
  assert (HL1 : Z.log2_up k <= 52).
  { change 52 with (Z.log2_up (2 ^ 52)). now apply Z.log2_up_le_mono. }
  split; [lia|].
  destruct (Z.eq_dec k 1) as [->|Hne].
  - change (Z.log2_up 1) with 0. simpl. lia.
  - destruct (Z.log2_up_spec k) as [Hlo Hhi]; [lia|].
    set (L := Z.log2_up k) in *.
    assert (HLpos : 1 <= L).
    { destruct (Z.eq_dec L 0) as [E0|N0]; [|lia].
      rewrite E0 in Hhi. simpl in Hhi. lia. }
    assert (E1 : 2 ^ 53 = 2 ^ (Z.pred L) * 2 ^ (54 - L)).
    { rewrite <- Z.pow_add_r by lia. f_equal. lia. }
    assert (E2 : 2 ^ 54 = 2 ^ L * 2 ^ (54 - L)).
    { rewrite <- Z.pow_add_r by lia. f_equal. lia. }
    assert (0 < 2 ^ (54 - L)) by (apply pow2_pos; lia).
    rewrite E1, E2. split; nia.
Qed.

Lemma div_ge_iff a b k : 0 < b -> (k <= a / b <-> k * b <= a).
Proof.
  intros Hb. split; intros H.
  - pose proof (Z.mul_div_le a b Hb). nia.
  - apply Z.div_le_lower_bound; lia.
Qed.

(** Arithmetic of the thresholds. *)
Lemma threshold_integer C k X : 4 <= C -> (k <= X <-> k * C - 1 <= X * C).
Proof. intros HC. split; intros H; nia. Qed.

Lemma threshold_below C D k M :
  0 < C -> 0 < D -> k * D <= M -> (k * C - 1) * D <= M * C.
Proof. intros HC HD H. nia. Qed.

Lemma threshold_scale C D k M :
  0 < C -> 0 < D -> (k * C - 1) * D <= M * C -> M < k * D -> C <= D.
Proof.
  intros HC HD H Hlt.
  assert (M * C <= (k * D - 1) * C) by nia. nia.
Qed.

Lemma threshold_exact C J k M :
  0 < C -> 1 <= J -> 2 ^ 53 < k * C -> M < 2 ^ 53 ->
  (k * C - 1) * (C * J) <= M * C -> False.
Proof.
  intros HC HJ Hk HM H.
  assert (H1 : (k * C - 1) * J <= M) by nia.
  assert (H2 : 2 ^ 53 * J <= (k * C - 1) * J) by nia.
  nia.
Qed.

Lemma threshold_large C D P S k q r M :
  0 < C -> 0 < D -> 1 <= P -> S = P * D -> M = S * q + r -> 0 <= r ->
  k <= 2 ^ 52 -> 2 ^ 52 <= q -> 0 < k ->
  (k * C - 1) * D <= M * C.
Proof.
  intros HC HD HP HS HM Hr Hk Hq Hk0.
  apply threshold_below; try assumption.
  assert (H1 : k * D <= q * D) by nia.
  assert (H2 : q * D <= q * (P * D)) by nia.
  subst M S. nia.
Qed.

Lemma threshold_up C G S h k q r M :
  0 < C -> 0 < G -> 0 < S -> 2 * h = S -> M = S * q + r -> h <= r ->
  q = k * G - 1 -> C <= 2 * G ->
  (k * C - 1) * (G * S) <= M * C.
Proof.
  intros HC HG HS Hh HM Hr Hq HCG. subst M q S.
  assert (H1 : (2 * k * G - 1) * h * C <= (2 * h * (k * G - 1) + r) * C) by nia.
  assert (H2 : (k * C - 1) * (G * (2 * h)) <= (2 * k * G - 1) * h * C).
  { assert (H3 : 0 <= h * (2 * G - C)) by nia. nia. }
  lia.
Qed.

Lemma threshold_small C G S k q r M :
  0 < C -> 0 < G -> 0 < S -> M = S * q + r -> 0 <= r < S -> q < 2 ^ 53 ->
  2 ^ 53 < k * C -> (k * C - 1) * (G * S) <= M * C -> G < C.
Proof.
  intros HC HG HS HM Hr Hq Hk H. subst M.
  assert (H1 : (S * q + r) * C < (q + 1) * S * C) by nia.
  assert (H2 : (k * C - 1) * G * S < (q + 1) * C * S) by nia.
  assert (H3 : (k * C - 1) * G < (q + 1) * C) by nia.
  assert (H4 : 2 ^ 53 * G <= (k * C - 1) * G) by nia.
  assert (H5 : (q + 1) * C <= 2 ^ 53 * C) by nia.
  nia.
Qed.

Lemma threshold_near C G S h k q r M :
  0 < C -> 0 < G -> 0 < S -> 2 * h = S -> M = S * q + r -> 0 <= r < S ->
  2 * G <= C -> q < k * G -> (k * C - 1) * (G * S) <= M * C ->
  q = k * G - 1 /\ h <= r.
Proof.
  intros HC HG HS Hh HM Hr HGC Hq H. subst M.
  assert (H1 : (S * q + r) * C < (q + 1) * S * C) by nia.
  assert (H2 : (k * C - 1) * G * S < (q + 1) * C * S) by nia.
  assert (H3 : (k * C - 1) * G < (q + 1) * C) by nia.
  assert (H4 : (k * G - q - 1) * C < G) by nia.
  assert (Hq1 : q = k * G - 1) by nia.
  split; [assumption|]. subst q S.
  assert (H5 : (k * C - 1) * G * (2 * h) <=
               (2 * h * (k * G - 1) + r) * C) by nia.
  assert (H6 : (C - G) * (2 * h) <= r * C) by nia.
  assert (H7 : C * h <= r * C) by nia.
  nia.
Qed.

(** The rounded product reaches the integer [k] exactly when the exact
    product reaches [k] less half the gap below it. *)
Lemma floor_times_ge (m e n k : Z) :
  0 <= m < 2 ^ 53 -> 0 < n -> 0 < k <= 2 ^ 52 ->
  let C := 2 ^ (54 - Z.log2_up k) in
  k <= Math_floor (times (mkDouble m e) n) <->
  (if 0 <=? e then k * C - 1 <= m * n * 2 ^ e * C
   else (k * C - 1) * 2 ^ (- e) <= m * n * C).
Proof.
  intros Hm Hn Hk. cbv zeta.
  destruct (log2_up_bounds k Hk) as [Hc HkC].
  set (c := 54 - Z.log2_up k) in *.
  assert (HC : 4 <= 2 ^ c).
  { change 4 with (2 ^ 2). apply Z.pow_le_mono_r; lia. }
  unfold times, Math_floor. cbn [mant expo].
  pose proof (round53_spec (m * n)) as Hs.
  destruct (round53 (m * n)) as [m' s].
  assert (HM : 0 <= m * n) by nia.
  destruct (Hs HM) as [Hs0 [Hm' [Hz Hp]]]. clear Hs.
  set (M := m * n) in *. cbn [mant expo].
  set (C := 2 ^ c) in *.
  destruct (Z.eq_dec s 0) as [->|Hsn].
  - (* the product is exact *)
    destruct (Hz eq_refl) as [-> HM53]. rewrite Z.add_0_r.
    destruct (Z.leb_spec 0 e) as [He|He].
    + now apply threshold_integer.
    + assert (HD : 0 < 2 ^ (- e)) by (apply pow2_pos; lia).
      rewrite div_ge_iff by assumption.
      split; intros H; [apply threshold_below; lia|].
      destruct (Z.le_gt_cases (k * 2 ^ (- e)) M) as [Hle|Hgt]; [assumption|].
      exfalso.
      assert (HCD : C <= 2 ^ (- e)).
      { apply (threshold_scale C _ k M); try assumption; lia. }
      destruct (pow2_le_factor c (- e)) as [HDf Hce]; [lia|lia|exact HCD|].
      fold C in HDf.
      assert (HJ : 0 < 2 ^ (- e - c)) by (apply pow2_pos; lia).
      rewrite HDf in H.
      apply (threshold_exact C (2 ^ (- e - c)) k M); try assumption; lia.
  - (* the product is rounded *)
    destruct Hp as [Hq [Hcase Hup]]; [lia|].
    assert (H2s : 0 < 2 ^ s) by (apply pow2_pos; lia).
    pose proof (Z.div_mod M (2 ^ s)) as Hdm.
    pose proof (Z.mod_pos_bound M (2 ^ s) H2s) as Hr.
    assert (Hh : 2 * 2 ^ (s - 1) = 2 ^ s).
    { rewrite <- Z.pow_succ_r by lia. f_equal. lia. }
    set (q := M / 2 ^ s) in *. set (r := M mod 2 ^ s) in *.
    set (S := 2 ^ s) in *. set (h := 2 ^ (s - 1)) in *.
    assert (HMq : M = S * q + r) by lia.
    assert (Hm'q : q <= m' <= q + 1) by lia.
    destruct (Z.leb_spec 0 (e + s)) as [HE|HE].
    + (* the result is an integer of 2^52 at least *)
      assert (HP : 0 < 2 ^ (e + s)) by (apply pow2_pos; lia).
      assert (Hbig : k <= m' * 2 ^ (e + s)).
      { assert (m' <= m' * 2 ^ (e + s)) by (clear - HP Hm'; nia). lia. }
      split; [intros _|intros _; exact Hbig].
      destruct (Z.leb_spec 0 e) as [He|He].
      * assert (HPe : 0 < 2 ^ e) by (apply pow2_pos; lia).
        assert (HkM : k <= M).
        { assert (q <= S * q) by (clear - H2s Hq; nia). lia. }
        assert (HMX : M <= M * 2 ^ e) by (clear - HPe HM; nia).
        apply threshold_integer; [assumption | lia].
      * assert (HSD : S = 2 ^ (e + s) * 2 ^ (- e)).
        { unfold S. rewrite <- Z.pow_add_r by lia. f_equal. lia. }
        assert (HD : 0 < 2 ^ (- e)) by (apply pow2_pos; lia).
        apply (threshold_large C _ (2 ^ (e + s)) S k q r M);
          try assumption; lia.
    + assert (He : e < 0) by lia.
      replace (0 <=? e) with false by (symmetry; apply Z.leb_gt; lia).
      assert (HG : 0 < 2 ^ (- (e + s))) by (apply pow2_pos; lia).
      rewrite div_ge_iff by assumption.
      assert (HDG : 2 ^ (- e) = 2 ^ (- (e + s)) * S).
      { unfold S. rewrite <- Z.pow_add_r by lia. f_equal. lia. }
      rewrite HDG.
      assert (HGeven : 2 ^ (- (e + s)) = 2 * 2 ^ (- (e + s) - 1)).
      { rewrite <- Z.pow_succ_r by lia. f_equal. lia. }
      assert (HG1 : 0 < 2 ^ (- (e + s) - 1)) by (apply pow2_pos; lia).
      set (G := 2 ^ (- (e + s))) in *. set (G1 := 2 ^ (- (e + s) - 1)) in *.
      split.
      * (* the result reaches k *)
        intros HK.
        destruct (Z.le_gt_cases (k * G) q) as [Hle|Hgt].
        { apply threshold_below; [lia | clear - HG H2s; nia |].
          assert (k * G * S <= q * S) by (clear - Hle H2s; nia). lia. }
        assert (Hq1 : q = k * G - 1) by lia.
        assert (Hupm : m' = q + 1) by lia.
        assert (Hrh : h <= r).
        { destruct Hup as [Hup _]. destruct (Hup Hupm) as [H|[H _]]; lia. }
        assert (HCG : C <= 2 * G).
        { assert (Hlt : 2 ^ c < 2 * 2 ^ (- (e + s) + 1)).
          { rewrite Z.pow_add_r by lia. fold C G.
            assert (2 ^ 52 < k * G) by lia.
            assert (k * G * C <= 2 ^ 54 * G) by (clear - HkC HG; nia).
            assert (2 ^ 52 * C < k * G * C) by (clear - H HC; nia).
            change (2 ^ 1) with 2. lia. }
          apply pow2_lt_twice in Hlt; [|lia|lia].
          rewrite Z.pow_add_r in Hlt by lia. fold C G in Hlt.
          change (2 ^ 1) with 2 in Hlt. lia. }
        apply (threshold_up C G S h k q r M); try assumption; lia.
      * (* the exact product reaches the threshold *)
        intros HT.
        destruct (Z.le_gt_cases (k * G) q) as [Hle|Hgt]; [lia|].
        assert (HGC : 2 * G <= C).
        { assert (Hlt : G < C).
          { apply (threshold_small C G S k q r M); try assumption; lia. }
          assert (Hlt2 : 2 ^ (- (e + s) + 1) < 2 * 2 ^ c).
          { rewrite Z.pow_add_r by lia. fold C G.
            change (2 ^ 1) with 2. lia. }
          apply pow2_lt_twice in Hlt2; [|lia|lia].
          rewrite Z.pow_add_r in Hlt2 by lia. fold C G in Hlt2.
          change (2 ^ 1) with 2 in Hlt2. lia. }
        destruct (threshold_near C G S h k q r M) as [Hq1 Hrh];
          try assumption; try lia.
        assert (Hupm : m' = q + 1).
        { apply Hup. destruct (Z.eq_dec r h) as [Hrh'|Hrh']; [right|left; lia].
          split; [assumption|]. apply Z.odd_spec.
          exists (k * G1 - 1). lia. }
        lia.
Qed.

(** The threshold of [floor_times_ge], over the rationals. *)
Lemma threshold_value (a : Double) (n k : Z) :
  0 < k <= 2 ^ 52 ->
  let C := 2 ^ (54 - Z.log2_up k) in
  (inject_Z k - half_gap k <= value a * inject_Z n)%Q <->
  (if 0 <=? expo a then k * C - 1 <= mant a * n * 2 ^ expo a * C
   else (k * C - 1) * 2 ^ (- expo a) <= mant a * n * C).
Proof.
  intros Hk. cbv zeta.
  destruct (log2_up_bounds k Hk) as [Hc _].
  destruct a as [m e]. unfold half_gap, value. cbn [mant expo].
  replace (k <=? 0) with false by (symmetry; apply Z.leb_gt; lia).
  destruct (Z.leb_spec 0 e) as [He|He];
    unfold Qle, Qminus, Qplus, Qopp, Qmult, inject_Z; cbn [Qnum Qden];
    rewrite ?Pos.mul_1_l, ?Pos.mul_1_r, ?Z.mul_1_r, ?pos_pow2 by lia;
    split; intros H; lia.
Qed.

Lemma value_nonneg (a : Double) : 0 <= mant a -> (0 <= value a)%Q.
Proof.
  intros Hm. unfold value. destruct (Z.leb_spec 0 (expo a)) as [He|He].
  - unfold Qle. simpl. rewrite Z.mul_1_r.
    assert (0 < 2 ^ expo a) by (apply pow2_pos; lia). nia.
  - unfold Qle. simpl. lia.
Qed.

(** The index drawn is [i] exactly when the exact product lies between
    the thresholds of [i] and of [i + 1]. *)
Lemma floor_times_eq (a : Double) (n i : Z) :
  is_double a -> 0 <= i < n -> n <= 2 ^ 52 ->
  Math_floor (times a n) = i <->
  (inject_Z i - half_gap i <= value a * inject_Z n)%Q /\
  (value a * inject_Z n < inject_Z (i + 1) - half_gap (i + 1))%Q.
Proof.
  intros [Hm He] Hi Hn.
  assert (Hup : i + 1 <= Math_floor (times a n) <->
                (inject_Z (i + 1) - half_gap (i + 1) <=
                 value a * inject_Z n)%Q).
  { rewrite threshold_value by lia. destruct a as [m e].
    apply floor_times_ge; simpl in *; lia. }
  assert (Hlo : i <= Math_floor (times a n) <->
                (inject_Z i - half_gap i <= value a * inject_Z n)%Q).
  { destruct (Z.eq_dec i 0) as [->|Hne].
    - split; intros _.
      + change (inject_Z 0 - half_gap 0)%Q with (0 - 0)%Q.
        setoid_replace (0 - 0)%Q with 0%Q by reflexivity.
        apply Qmult_le_0_compat; [now apply value_nonneg|].
        change 0%Q with (inject_Z 0). rewrite <- Zle_Qle. lia.
      + destruct a as [m e]. unfold times, Math_floor. cbn [mant expo] in *.
        pose proof (round53_spec (m * n)) as Hs.
        destruct (round53 (m * n)) as [m' s]. cbn [mant expo].
        destruct Hs as [_ [Hm' _]]; [nia|].
        destruct (Z.leb_spec 0 (e + s)) as [HE|HE].
        * assert (0 <= 2 ^ (e + s)) by (apply Z.pow_nonneg; lia). nia.
        * apply Z.div_pos; [assumption | apply pow2_pos; lia].
    - rewrite threshold_value by lia. destruct a as [m e].
      apply floor_times_ge; simpl in *; lia. }
  split.
  - intros E. rewrite <- Hlo. split; [lia|].
    apply Qnot_le_lt. rewrite <- Hup. lia.
  - intros [H1 H2]. apply Hlo in H1. apply Qlt_not_le in H2.
    rewrite <- Hup in H2. lia.
Qed.

(** A draw that selects the position [i] of [n]: a multiple of 2^-33. *)
Lemma draw_for_index (i n : Z) :
  0 <= i < n -> n < 2 ^ 32 ->
  let rnd := mkDouble ((i * 2 ^ 33 + n - 1) / n) (-33) in
  is_double rnd /\ (value rnd < 1)%Q /\ Math_floor (times rnd n) = i.
Proof.
  intros Hi Hn. cbv zeta.
  set (c := (i * 2 ^ 33 + n - 1) / n).
  assert (Hn0 : 0 < n) by lia.
  pose proof (Z.mul_div_le (i * 2 ^ 33 + n - 1) n Hn0) as Hle.
  pose proof (Z.div_mod (i * 2 ^ 33 + n - 1) n ltac:(lia)) as Hdm.
  pose proof (Z.mod_pos_bound (i * 2 ^ 33 + n - 1) n Hn0) as Hmod.
  fold c in Hle, Hdm.
  assert (Hlo : i * 2 ^ 33 <= n * c) by lia.
  assert (Hc0 : 0 <= c) by nia.
  assert (Hc1 : c < 2 ^ 33) by nia.
  assert (Hd : is_double (mkDouble c (-33))).
  { unfold is_double. simpl. lia. }
  assert (Hv : (value (mkDouble c (-33)) < 1)%Q).
  { unfold value, Qlt. simpl. lia. }
  split; [exact Hd|]. split; [exact Hv|].
  pose proof (random_index_range _ n Hd Hv Hn0) as Hrange.
  assert (Hup : ~ i + 1 <= Math_floor (times (mkDouble c (-33)) n)).
  { rewrite floor_times_ge by (simpl in *; lia).
    change (0 <=? -33) with false. cbv iota.
    change (- -33) with 33.
    destruct (log2_up_bounds (i + 1)) as [Hc HkC]; [lia|].
    assert (HC : 4 <= 2 ^ (54 - Z.log2_up (i + 1))).
    { change 4 with (2 ^ 2). apply Z.pow_le_mono_r; lia. }
    set (C := 2 ^ (54 - Z.log2_up (i + 1))) in *.
    assert (c * n * C <= (i * 2 ^ 33 + n - 1) * C) by nia.
    nia. }
  assert (Hlow : i <= Math_floor (times (mkDouble c (-33)) n)).
  { destruct (Z.eq_dec i 0) as [->|Hne]; [lia|].
    rewrite floor_times_ge by (simpl in *; lia).
    change (0 <=? -33) with false. cbv iota.
    change (- -33) with 33.
    destruct (log2_up_bounds i) as [Hc HkC]; [lia|].
    assert (HC : 4 <= 2 ^ (54 - Z.log2_up i)).
    { change 4 with (2 ^ 2). apply Z.pow_le_mono_r; lia. }
    set (C := 2 ^ (54 - Z.log2_up i)) in *.
    assert (i * 2 ^ 33 * C <= c * n * C) by nia.
    nia. }
  lia.
Qed.

Lemma arr_get_In {A} (l : list A) i x : arr_get l i = Some x -> In x l.
Proof.
  unfold arr_get. destruct (i <? 0); [discriminate|]. apply nth_error_In.
Qed.

Lemma arr_get_in_range {A} (l : list A) i :
  0 <= i < Z.of_nat (length l) -> exists x, arr_get l i = Some x.
Proof.
  intros [H0 H1]. unfold arr_get.
  replace (i <? 0) with false by (symmetry; apply Z.ltb_ge; assumption).
  destruct (nth_error l (Z.to_nat i)) as [x|] eqn:E; [now exists x|].
  apply nth_error_None in E. lia.
Qed.

(** ** The claims *)

(** C10. [getRandomClip] never mutates the instance: whatever the draw and
    whatever the outcome (a rejection, a returned pair, or an exception),
    the flag [initialized], the map [files], the sequence [paths] and the
    list [mp3s] are after the call what they were before it. *)
Theorem getRandomClip_leaves_state (rnd : Double) (st : Files) :
  snd (getRandomClip rnd st) = st.
Proof.
  unfold getRandomClip, bind, reads, ret, sentence_of.
  destruct (initialized st); cbn [negb]; [|reflexivity].
  destruct (Z.of_nat (length (mp3s st)) =? 0); [reflexivity|].
  match goal with
  | |- context [obj_lookup ?o ?k] => destruct (obj_lookup o k)
  end; reflexivity.
Qed.

(** C4. A call of [getRandomClip] made while the promise of [init] is not
    fulfilled returns a promise rejected with 'Files not init.'; a call
    made after it is fulfilled, with an empty [mp3s], returns a promise
    rejected with 'No files.'.  Both are normal returns: nothing is
    thrown. *)
Theorem getRandomClip_rejects (tr : list Event) (s : Sys) (rnd : Double) :
  run getFileExt tr boot = Some s ->
  (initPromise s <> Some Fulfilled ->
   getRandomClip rnd (this s) = (Normal (Reject "Files not init."), this s)) /\
  (initPromise s = Some Fulfilled -> mp3s (this s) = [] ->
   getRandomClip rnd (this s) = (Normal (Reject "No files."), this s)).
Proof.
  intros Hr. apply reachable_Inv in Hr.
  pose proof (inv_ready s Hr) as Hy.
  unfold getRandomClip, bind, reads, ret. split.
  - intros Hn. destruct (initialized (this s)); [|reflexivity].
    exfalso. apply Hn. now apply Hy.
  - intros Hf Hm. destruct Hy as [_ Hy]. rewrite (Hy Hf). cbn [negb].
    rewrite Hm. reflexivity.
Qed.

(** C5. When the catalog is ready and [mp3s] is not empty, whatever
    double of [0, 1) [Math.random()] returns, [getRandomClip] returns a
    promise resolved with the pair [(glob + '.mp3', sentence)] for a [glob]
    of [mp3s], which is also one of [paths] and has an entry in [files];
    [sentence] is the transcript stored in that entry, null included. *)
Theorem getRandomClip_pair (tr : list Event) (s : Sys) (rnd : Double) :
  run getFileExt tr boot = Some s ->
  is_double rnd -> (value rnd < 1)%Q ->
  initialized (this s) = true -> mp3s (this s) <> [] ->
  exists glob info,
    In glob (mp3s (this s)) /\ In glob (paths (this s)) /\
    obj_get (files (this s)) glob = Some info /\
    getRandomClip rnd (this s) =
    (Normal (Resolve ((glob ++ MP3_EXT)%string, sentence info)), this s).
Proof.
  intros Hr H0 H1 Hi Hm. apply reachable_Inv in Hr.
  assert (Hlen : 0 < Z.of_nat (length (mp3s (this s)))).
  { destruct (mp3s (this s)); [congruence | simpl length; lia]. }
  destruct (arr_get_in_range (mp3s (this s))
              (Math_floor (times rnd (Z.of_nat (length (mp3s (this s)))))))
    as [glob Hg]; [now apply random_index_range|].
  pose proof (arr_get_In _ _ _ Hg) as Hin.
  pose proof (inv_mp3s s Hr glob Hin) as Hp.
  destruct (obj_get (files (this s)) glob) as [info|] eqn:E;
    [|exfalso; now apply (inv_known s Hr glob Hp)].
  exists glob, info. repeat split; try assumption.
  unfold getRandomClip, bind, reads, ret, sentence_of. rewrite Hi.
  cbn [negb].
  replace (Z.of_nat (length (mp3s (this s))) =? 0) with false
    by (symmetry; apply Z.eqb_neq; lia).
  rewrite Hg. cbn [js_string]. rewrite (obj_lookup_own _ _ _ E).
  reflexivity.
Qed.

(** C6. In every state of a run [generateMP3List] completes, leaves
    [files] and [paths] alone, and makes [mp3s] the globs of [paths] whose
    [exts] contain '.mp3': a glob is in the new [mp3s] if and only if it is
    in [paths] and its entry has '.mp3' among its [exts].  The same holds
    of the state in which the [then] callback of [init], which calls it,
    leaves the program. *)
Theorem generateMP3List_canonical (tr : list Event) (s : Sys) :
  run getFileExt tr boot = Some s ->
  (exists st',
     generateMP3List (this s) = (Normal tt, st') /\
     files st' = files (this s) /\ paths st' = paths (this s) /\
     forall g,
       In g (mp3s st') <->
       In g (paths st') /\
       exists r, obj_get (files st') g = Some r /\ In MP3_EXT (exts r)) /\
  (forall s',
     fire getFileExt ThenCb s = Some s' ->
     forall g,
       In g (mp3s (this s')) <->
       In g (paths (this s')) /\
       exists r, obj_get (files (this s')) g = Some r /\ In MP3_EXT (exts r)).
Proof.
  intros Hr. apply reachable_Inv in Hr. split.
  - eexists. split; [apply generateMP3List_known, (inv_known s Hr)|].
    simpl. split; [reflexivity | split; [reflexivity|]].
    intros g. rewrite filter_In, has_mp3_In. reflexivity.
  - intros s' Hf g. simpl in Hf.
    destruct (convPromise s) as [[| |e]|]; try discriminate.
    destruct (thenRan s); [discriminate|]. injection Hf as <-.
    rewrite then_callback_known by (simpl; apply (inv_known s Hr)).
    simpl. rewrite filter_In, has_mp3_In. reflexivity.
Qed.

(** C9, as the code has it.  In every state of a run
    [convertMissingToMP3s] completes without touching the instance, and it
    pushes a job [{glob, ext}] exactly when [glob] is in [paths], lacks
    '.mp3', and [ext] is the first entry of its [exts], in the order they
    were appended, that is in the allow-list; a glob with no convertible
    entry gets no job. *)
Theorem conversion_source_first_convertible (tr : list Event) (s : Sys) :
  run getFileExt tr boot = Some s ->
  exists c,
    convertMissingToMP3s (this s) = (Normal c, this s) /\
    forall g e,
      In (mkJob g e) (jobs_of c) <->
      In g (paths (this s)) /\
      exists r, obj_get (files (this s)) g = Some r /\
                ~ In MP3_EXT (exts r) /\ first_convertible (exts r) e.
Proof.
  intros Hr. apply reachable_Inv in Hr.
  eexists. split; [apply convertMissingToMP3s_known, (inv_known s Hr)|].
  intros g e.
  set (o := files (this s)).
  assert (Hj : jobs_of
            match filter (fun g => negb (has_mp3 o g)) (paths (this s)) with
            | [] => NothingToConvert
            | m :: ms => Converting (flat_map (job_for o) (m :: ms))
            end =
          flat_map (job_for o)
            (filter (fun g => negb (has_mp3 o g)) (paths (this s)))).
  { destruct (filter _ (paths (this s))); reflexivity. }
  rewrite Hj, in_flat_map. split.
  - intros [x [Hx Hin]]. apply filter_In in Hx as [Hp Hm].
    apply job_for_In in Hin as [r [E [Hg He]]]. simpl in Hg, He. subst x.
    split; [assumption|]. exists r. repeat split; try assumption.
    intros Hmp. apply negb_true_iff in Hm.
    assert (Ht : has_mp3 o g = true) by (apply has_mp3_In; now exists r).
    congruence.
  - intros [Hp [r [E [Hm He]]]]. exists g. split.
    + apply filter_In. split; [assumption|].
      apply negb_true_iff. destruct (has_mp3 o g) eqn:Hh; [|reflexivity].
      apply has_mp3_In in Hh as [r' [E' Hin]].
      exfalso. apply Hm. congruence.
    + apply job_for_In. exists r. simpl. auto.
Qed.

(** C7, at a key with two dots.  [getGlob] cuts the key at its first '.',
    not at its last: of 'clip.v2.ogg' it keeps 'clip', where stripping the
    final extension leaves 'clip.v2'. *)
Theorem getGlob_cuts_at_first_dot :
  getGlob "clip.v2.ogg" = "clip" /\
  glob_by_final_extension "clip.v2.ogg" = "clip.v2".
Proof. split; reflexivity. Qed.

(** C3, at a successful fetch.  The callback of [process] is a [function]
    expression; called by the store client it does not run on the
    instance, so reading [this.files[data.glob]] throws a TypeError: the
    catalog is left as it was and [cb] is never called. *)
Theorem process_callback_off_instance
    (data : Item) (body : string) (st : Files) :
  process_callback ThisForeign data (S3Data body) st = (Throw TypeError, st).
Proof. reflexivity. Qed.

(** What the callback of [process] does when it runs on the instance:
    the transcript of the glob becomes the text fetched. *)
Lemma process_callback_on_instance data body st r :
  obj_get (files st) (item_glob data) = Some r ->
  exists st',
    process_callback ThisFiles data (S3Data body) st = (Normal None, st') /\
    obj_get (files st') (item_glob data) = Some (set_sentence body r).
Proof.
  intros E. eexists. split.
  - unfold process_callback, files_on, assign_sentence. unfold_m.
    rewrite (obj_lookup_own _ _ _ E). unfold_m. reflexivity.
  - simpl. apply obj_get_put_eq.
Qed.

(** In a run, a transcript fetched by a callback that is not called on
    the instance leaves the instance as it was. *)
Lemma transcript_callback_off_instance i body s s' :
  fire getFileExt (TranscriptCb i ThisForeign (S3Data body)) s = Some s' ->
  this s' = this s.
Proof.
  simpl. destruct (nth_error (txtQueue s) i); [|discriminate].
  now intros [= <-].
Qed.

(** The promise of [init] is never rejected. *)
Lemma init_never_rejected tr s err :
  run getFileExt tr boot = Some s -> initPromise s <> Some (Rejected err).
Proof. intros Hr. apply reachable_Inv in Hr. apply (inv_no_reject s Hr). Qed.

(** C1, at a failed listing.  When [listObjectsV2] calls back with an
    error, the callback logs and returns: no event can follow and the
    promise of [init] stays pending, neither rejected nor fulfilled. *)
Theorem init_pending_after_listing_error
    (err : string) (tr : list Event) (s : Sys) :
  run getFileExt (CallInit :: ListingCb (S3Err err) :: tr) boot = Some s ->
  tr = [] /\ initPromise s = Some Pending /\ initialized (this s) = false.
Proof.
  simpl. destruct tr as [|e tr]; simpl.
  - intros [= <-]. auto.
  - destruct e as [|r|i recv r|i recv r| |e'|]; simpl;
      try discriminate; destruct i; discriminate.
Qed.



(** ** Encodings without duplicates *)

Lemma job_for_glob o g j : In j (job_for o g) -> job_glob j = g.
Proof. intros H. apply job_for_In in H as [r [_ [H _]]]. exact H. Qed.

Lemma flat_map_job_for_glob o l j :
  In j (flat_map (job_for o) l) -> In (job_glob j) l.
Proof.
  intros H. apply in_flat_map in H as [x [Hx Hj]].
  apply job_for_glob in Hj. now subst x.
Qed.

Lemma job_for_short o g :
  job_for o g = [] \/ exists e, job_for o g = [mkJob g e].
Proof.
  unfold job_for. destruct (obj_get o g) as [r|]; [|now left].
  destruct (pickExt (exts r)) as [e|]; [|now left].
  destruct (truthy (Some e)); [right; now exists e | now left].
Qed.

(** Globs that differ get jobs that differ. *)
Lemma jobs_NoDup o l :
  NoDup l -> NoDup (map job_glob (flat_map (job_for o) l)).
Proof.
  induction l as [|g l IH]; intros Hnd; simpl; [constructor|].
  inversion Hnd as [|? ? Hg Hl]; subst.
  destruct (job_for_short o g) as [->|[e ->]]; simpl; [now apply IH|].
  constructor; [|now apply IH].
  intros Hin. apply in_map_iff in Hin as [j [Ej Hj]].
  apply flat_map_job_for_glob in Hj. congruence.
Qed.

Lemma nth_error_remove_split {A} (l : list A) : forall i x,
  nth_error l i = Some x ->
  exists l1 l2, l = l1 ++ x :: l2 /\ remove_nth i l = l1 ++ l2.
Proof.
  induction l as [|a l IH]; intros [|i] x H; simpl in H; try discriminate.
  - injection H as ->. now exists [], l.
  - destruct (IH i x H) as [l1 [l2 [E1 E2]]].
    exists (a :: l1), l2. split; [simpl; congruence|].
    change (remove_nth (S i) (a :: l)) with (a :: remove_nth i l).
    now rewrite E2.
Qed.

Lemma has_mp3_same_exts o o' g :
  option_map exts (obj_get o' g) = option_map exts (obj_get o g) ->
  has_mp3 o' g = has_mp3 o g.
Proof.
  unfold has_mp3.
  destruct (obj_get o' g) as [r'|], (obj_get o g) as [r|]; simpl;
    intros [=]; congruence.
Qed.

(** A transcript changes no encodings. *)
Lemma touched_sentence_exts body g st st' k :
  touched (set_sentence body) g st st' ->
  option_map exts (obj_get (files st') k) =
  option_map exts (obj_get (files st) k).
Proof.
  intros [->|[r [E ->]]]; [reflexivity|]. simpl.
  destruct (string_dec g k) as [->|Hne].
  - now rewrite obj_get_put_eq, E.
  - now rewrite obj_get_put_ne.
Qed.

Lemma InvExts_this s s' :
  InvExts s -> files (this s') = files (this s) ->
  convQueue s' = convQueue s -> InvExts s'.
Proof.
  intros [H1 H2 H3] Hf Hq. constructor; rewrite ?Hf, ?Hq; assumption.
Qed.

(** The keys gone through give no extension twice if the listing gives
    none twice. *)
Lemma listed_exts_scanned contents g :
  NoDup (listed_exts getFileExt contents g) ->
  NoDup (listed_exts getFileExt (scanned getFileExt contents) g).
Proof.
  destruct (scanned_prefix contents) as [rest E].
  set (sc := scanned getFileExt contents) in *. clearbody sc.
  unfold listed_exts. rewrite E, flat_map_app.
  apply NoDup_app_remove_r.
Qed.

Lemma scanned_entry contents g r :
  obj_get (scan_all getFileExt (scanned getFileExt contents) []) g = Some r ->
  exts r = listed_exts getFileExt (scanned getFileExt contents) g.
Proof.
  intros E. apply scan_all_entry in E; [exact E|].
  intros key Hk. now apply scanned_In in Hk.
Qed.

Lemma after_listing_InvExts contents s :
  Inv s -> listing s = Requested ->
  (forall g, NoDup (listed_exts getFileExt contents g)) ->
  InvExts (after_listing getFileExt contents s).
Proof.
  intros HI HL Hok.
  destruct (inv_before s HI) as [Hthis [_ [_ Hcq]]];
    [rewrite HL; discriminate|].
  set (o := scan_all getFileExt (scanned getFileExt contents) []).
  assert (Hex : forall g r, obj_get o g = Some r -> NoDup (exts r)).
  { intros g r E. apply scanned_entry in E. rewrite E.
    apply listed_exts_scanned, Hok. }
  assert (Hpd : NoDup (Object_keys o)).
  { eapply Permutation_NoDup; [symmetry; apply Object_keys_perm|].
    apply scan_all_NoDup. constructor. }
  unfold after_listing. rewrite Hthis, Hcq. simpl. fold o.
  destruct (scan_completes getFileExt contents).
  - revert Hpd. generalize (Object_keys o) as pl.
    intros [|p pl] Hpd.
    + constructor; simpl; [exact Hex | constructor | intros j []].
    + destruct (filter _ (p :: pl)) as [|m ms] eqn:Ef.
      * constructor; simpl; [exact Hex | constructor | intros j []].
      * change (job_for o m ++ flat_map (job_for o) ms)
          with (flat_map (job_for o) (m :: ms)).
        rewrite <- Ef. constructor; cbn [this files convQueue].
        -- exact Hex.
        -- apply jobs_NoDup, NoDup_filter, Hpd.
        -- intros j Hj. apply flat_map_job_for_glob in Hj.
           apply filter_In in Hj as [_ Hj]. now apply negb_true_iff in Hj.
  - constructor; simpl; [exact Hex | constructor | intros j []].
Qed.

Lemma fire_InvExts e s s' :
  Inv s -> InvExts s -> event_ok getFileExt e ->
  fire getFileExt e s = Some s' -> InvExts s'.
Proof.
  intros HI HE Hok Hf.
  destruct e as [|r|i recv r|i recv r| |err|].
  - (* CallInit *)
    simpl in Hf. destruct (listing s); try discriminate.
    injection Hf as <-. now apply (InvExts_this s).
  - (* ListingCb *)
    destruct r as [err|contents].
    + simpl in Hf. destruct (listing s); try discriminate.
      injection Hf as <-. now apply (InvExts_this s).
    + rewrite fire_listing_data in Hf by assumption.
      destruct (listing s) eqn:HL; try discriminate. injection Hf as <-.
      now apply after_listing_InvExts.
  - (* TranscriptCb *)
    simpl in Hf.
    destruct (nth_error (txtQueue s) i) as [item|]; [|discriminate].
    injection Hf as <-.
    destruct (process_callback_touched recv item r (this s)) as [body Ht].
    unfold on_this. simpl.
    destruct (process_callback recv item r (this s)) as [c st']. simpl in *.
    destruct HE as [H1 H2 H3]. constructor; simpl.
    + intros g rec E.
      pose proof (touched_sentence_exts _ _ _ _ g Ht) as Hx.
      rewrite E in Hx. simpl in Hx.
      destruct (obj_get (files (this s)) g) as [rec0|] eqn:E0;
        [|discriminate].
      injection Hx as ->. now apply (H1 g rec0).
    + exact H2.
    + intros j Hj. rewrite <- (H3 j Hj). apply has_mp3_same_exts.
      eapply touched_sentence_exts; eassumption.
  - (* ConvertPutCb *)
    simpl in Hf.
    destruct (nth_error (convQueue s) i) as [job|] eqn:En; [|discriminate].
    injection Hf as <-.
    pose proof (convert_put_callback_touched recv job r (this s)) as Ht.
    unfold on_this. simpl.
    destruct (convert_put_callback recv job r (this s)) as [c st'].
    simpl in *.
    destruct (nth_error_remove_split _ _ _ En) as [l1 [l2 [El Er]]].
    destruct HE as [H1 H2 H3].
    rewrite El, map_app in H2. simpl in H2.
    assert (Hq : NoDup (map job_glob (remove_nth i (convQueue s)))).
    { rewrite Er, map_app. eapply NoDup_remove_1; eassumption. }
    assert (Hg : forall j, In j (remove_nth i (convQueue s)) ->
                   job_glob j <> job_glob job /\ In j (convQueue s)).
    { intros j Hj. rewrite Er in Hj. split.
      - intros Heq. apply NoDup_remove_2 in H2. apply H2.
        rewrite <- map_app, <- Heq. now apply in_map.
      - rewrite El. apply in_app_iff. apply in_app_iff in Hj.
        simpl. tauto. }
    destruct Ht as [->|[rec [E ->]]].
    + constructor; simpl; [exact H1 | exact Hq |].
      intros j Hj. apply H3. now apply Hg.
    + constructor; simpl.
      * intros g rec' E'. destruct (string_dec (job_glob job) g) as [<-|Hne].
        -- rewrite obj_get_put_eq in E'. injection E' as <-. simpl.
           apply NoDup_app; [now apply (H1 _ _ E) | repeat constructor; intros [] |].
           intros x Hx [<-|[]].
           assert (Hm : has_mp3 (files (this s)) (job_glob job) = false).
           { apply H3. rewrite El. apply in_app_iff. simpl. tauto. }
           assert (Ht : has_mp3 (files (this s)) (job_glob job) = true).
           { apply has_mp3_In. now exists rec. }
           congruence.
        -- rewrite obj_get_put_ne in E' by assumption. now apply (H1 _ _ E').
      * exact Hq.
      * intros j Hj. destruct (Hg j Hj) as [Hne Hin].
        rewrite <- (H3 j Hin). apply has_mp3_same_exts.
        rewrite obj_get_put_ne by congruence. reflexivity.
  - (* QueueDrain *)
    simpl in Hf. destruct (convPromise s) as [[| |e]|]; try discriminate.
    injection Hf as <-. now apply (InvExts_this s).
  - (* QueueError *)
    simpl in Hf. destruct (convPromise s) as [[| |e]|]; try discriminate.
    injection Hf as <-. now apply (InvExts_this s).
  - (* ThenCb *)
    simpl in Hf. destruct (convPromise s) as [[| |e]|]; try discriminate.
    destruct (thenRan s); [discriminate|]. injection Hf as <-.
    rewrite then_callback_known by (simpl; apply (inv_known s HI)).
    now apply (InvExts_this s).
Qed.

Lemma run_InvExts tr : forall s s',
  Inv s -> InvExts s -> (forall e, In e tr -> event_ok getFileExt e) ->
  run getFileExt tr s = Some s' -> InvExts s'.
Proof.
  induction tr as [|e tr IH]; intros s s' HI HE Hok Hr; simpl in Hr.
  - now injection Hr as <-.
  - destruct (fire getFileExt e s) as [s1|] eqn:Ef; [|discriminate].
    apply (IH s1 s').
    + eapply fire_Inv; eassumption.
    + eapply fire_InvExts; try eassumption. apply Hok. now left.
    + intros e' He'. apply Hok. now right.
    + assumption.
Qed.

Lemma boot_InvExts : InvExts boot.
Proof.
  constructor; simpl; [discriminate | constructor | intros j []].
Qed.

(** C8, as the code has it.  [exts] is an array and [push] appends
    without looking: the listing callback leaves in each recording the
    extensions of its non-transcript keys among the keys the scan went
    through (all the keys listed, unless the scan throws), one entry per
    key, in listing order.  So, at every point of a run whose listing gives
    no extension twice for one glob, no recording has a duplicate among its
    encodings. *)
Theorem encodings_follow_the_listing (tr : list Event) (s : Sys) :
  run getFileExt tr boot = Some s ->
  (forall contents s' g r,
     fire getFileExt (ListingCb (S3Data contents)) s = Some s' ->
     obj_get (files (this s')) g = Some r ->
     exts r = listed_exts getFileExt (scanned getFileExt contents) g /\
     (scan_completes getFileExt contents = true ->
      exts r = listed_exts getFileExt contents g)) /\
  ((forall contents, In (ListingCb (S3Data contents)) tr ->
      forall g, NoDup (listed_exts getFileExt contents g)) ->
   forall g r, obj_get (files (this s)) g = Some r -> NoDup (exts r)).
Proof.
  intros Hr. split.
  - intros contents s' g r Hf E. apply reachable_Inv in Hr.
    rewrite fire_listing_data in Hf by assumption.
    destruct (listing s) eqn:HL; try discriminate. injection Hf as <-.
    destruct (inv_before s Hr) as [Hthis _]; [rewrite HL; discriminate|].
    assert (E' : obj_get
                   (scan_all getFileExt (scanned getFileExt contents) []) g =
                 Some r).
    { revert E. unfold after_listing. rewrite Hthis. simpl.
      destruct (scan_completes getFileExt contents); [|trivial].
      destruct (Object_keys _) as [|p pl]; [trivial|].
      destruct (filter _ (p :: pl)); trivial. }
    apply scanned_entry in E'. split; [exact E'|].
    intros Hc. now rewrite scanned_complete in E'.
  - intros Hok.
    apply (ie_exts s).
    apply (run_InvExts tr boot s boot_Inv boot_InvExts); [|assumption].
    intros [|[err|contents]| | | | |] He; simpl; auto.
Qed.

End Runs.

(** ** The claims at concrete runs *)

Lemma getRandomClip_rejects_witness :
  run getFileExt_spec trace_empty boot = Some state_empty /\
  getRandomClip half (this state_empty) =
  (Normal (Reject "No files."), this state_empty).
Proof.
  split; [reflexivity|].
  apply (getRandomClip_rejects getFileExt_spec trace_empty state_empty
           half); reflexivity.
Defined.

Lemma getRandomClip_pair_witness :
  run getFileExt_spec trace_ready boot = Some state_ready /\
  exists glob info,
    In glob (mp3s (this state_ready)) /\
    In glob (paths (this state_ready)) /\
    obj_get (files (this state_ready)) glob = Some info /\
    getRandomClip half (this state_ready) =
    (Normal (Resolve ((glob ++ MP3_EXT)%string, sentence info)),
     this state_ready).
Proof.
  split; [reflexivity|].
  apply (getRandomClip_pair getFileExt_spec trace_ready state_ready half).
  - reflexivity.
  - unfold is_double; simpl; lia.
  - reflexivity.
  - reflexivity.
  - simpl; discriminate.
Defined.

Lemma generateMP3List_canonical_witness :
  run getFileExt_spec trace_listed boot = Some state_listed /\
  exists st',
    generateMP3List (this state_listed) = (Normal tt, st') /\
    files st' = files (this state_listed) /\
    paths st' = paths (this state_listed) /\
    forall g,
      In g (mp3s st') <->
      In g (paths st') /\
      exists r, obj_get (files st') g = Some r /\ In MP3_EXT (exts r).
Proof.
  split; [reflexivity|].
  apply (generateMP3List_canonical getFileExt_spec trace_listed state_listed).
  reflexivity.
Defined.

Lemma conversion_source_first_convertible_witness :
  run getFileExt_spec trace_listed boot = Some state_listed /\
  exists c,
    convertMissingToMP3s (this state_listed) = (Normal c, this state_listed) /\
    forall g e,
      In (mkJob g e) (jobs_of c) <->
      In g (paths (this state_listed)) /\
      exists r, obj_get (files (this state_listed)) g = Some r /\
                ~ In MP3_EXT (exts r) /\ first_convertible (exts r) e.
Proof.
  split; [reflexivity|].
  apply (conversion_source_first_convertible getFileExt_spec trace_listed
           state_listed).
  reflexivity.
Defined.

Lemma init_pending_after_listing_error_witness :
  run getFileExt_spec trace_failed boot = Some state_failed /\
  @nil Event = [] /\ initPromise state_failed = Some Pending /\
  initialized (this state_failed) = false.
Proof.
  split; [reflexivity|].
  apply (init_pending_after_listing_error getFileExt_spec "NetworkingError"
           [] state_failed).
  reflexivity.
Defined.



(** C9, as stated, fails: a recording whose encodings are '.m4a' then
    '.ogg' (the order in which a store lists them) is converted from
    '.m4a', where the priority order '.ogg' before '.m4a' selects
    '.ogg'. *)
Lemma conversion_source_not_by_priority :
  ~ (forall es, pickExt es = pick_by_priority CONVERTABLE_EXTS es).
Proof.
  intros H. specialize (H [".m4a"; ".ogg"]). discriminate H.
Qed.

Lemma encodings_follow_the_listing_witness :
  run getFileExt_spec trace_listed boot = Some state_listed /\
  forall g r,
    obj_get (files (this state_listed)) g = Some r -> NoDup (exts r).
Proof.
  split; [reflexivity|].
  apply (encodings_follow_the_listing getFileExt_spec trace_listed
           state_listed); [reflexivity|].
  intros contents [H|[H|[]]]; [discriminate|].
  injection H as <-. intros g. lazy - [String.eqb].
  repeat match goal with
         | |- context [String.eqb ?a ?b] => destruct (String.eqb_spec a b)
         end;
    subst; try discriminate; repeat constructor; simpl; intuition discriminate.
Defined.

(** C8, as stated, fails: two keys of the glob 'clip' with the extension
    '.ogg' leave '.ogg' twice in its encodings. *)
Lemma encodings_can_repeat :
  ~ (forall tr s g r,
       run getFileExt_spec tr boot = Some s ->
       obj_get (files (this s)) g = Some r -> NoDup (exts r)).
Proof.
  intros H.
  specialize (H trace_two_takes state_two_takes "clip"
                (mkRecording None [".ogg"; ".ogg"]) eq_refl eq_refl).
  inversion H as [|x l Hx Hl]; subst. apply Hx. now left.
Qed.

(** ** The scenario of the specification *)

Example getGlob_examples :
  getGlob "a.ogg" = "a" /\ getGlob "clips/" = "" /\ getGlob "README" = "" /\
  getGlob "v1.0/clip.ogg" = "v1".
Proof. repeat split. Qed.

(** Listing the store of the scenario: three recordings, one transcript
    item, one conversion job ('b' has its mp3, 'c.wav' is not
    convertible). *)
Example scenario_listed :
  run getFileExt_spec trace_listed boot = Some state_listed /\
  files (this state_listed) =
    [("a", mkRecording None [".ogg"]);
     ("b", mkRecording None [".m4a"; ".mp3"]);
     ("c", mkRecording None [".wav"])] /\
  paths (this state_listed) = ["a"; "b"; "c"] /\
  txtQueue state_listed = [mkItem "a.txt" "a"] /\
  convQueue state_listed = [mkJob "a" ".ogg"] /\
  initialized (this state_listed) = false.
Proof. repeat split. Qed.

(** Were the callbacks of [process] and [convert] called on the instance,
    the scenario would end as the specification tells it. *)
Example scenario_on_instance :
  run getFileExt_spec (trace_scenario ThisFiles) boot =
  Some state_scenario_on_instance /\
  mp3s (this state_scenario_on_instance) = ["a"; "b"] /\
  obj_get (files (this state_scenario_on_instance)) "a" =
  Some (mkRecording (Some "hello") [".ogg"; ".mp3"]) /\
  initPromise state_scenario_on_instance = Some Fulfilled.
Proof. repeat split. Qed.

(** Called by the store client, they throw: 'a' keeps a null transcript
    and never gains '.mp3'. *)
Example scenario_off_instance :
  run getFileExt_spec (trace_scenario ThisForeign) boot =
  Some state_scenario_off_instance /\
  mp3s (this state_scenario_off_instance) = ["b"] /\
  obj_get (files (this state_scenario_off_instance)) "a" =
  Some (mkRecording None [".ogg"]).
Proof. repeat split. Qed.

(** Keys with numeric globs: [Object.keys] lists them first, in ascending
    order. *)
Example Object_keys_order :
  Object_keys [("b", mkRecording None []); ("10", mkRecording None []);
               ("9", mkRecording None []); ("a", mkRecording None [])] =
  ["9"; "10"; "b"; "a"].
Proof. reflexivity. Qed.

(** A clip named as a property of Object.prototype cuts the scan short:
    'a' keeps the one encoding listed before it, [paths] stays empty and
    the promise of [init] stays pending. *)
Example scan_cut_short :
  run getFileExt_spec trace_cut boot = Some state_cut /\
  files (this state_cut) = [("a", mkRecording None [".ogg"])] /\
  txtQueue state_cut = [mkItem "a.txt" "a"] /\
  paths (this state_cut) = [] /\
  initialized (this state_cut) = false /\
  initPromise state_cut = Some Pending /\ convPromise state_cut = None.
Proof. repeat split. Qed.

(** A transcript named as a property of Object.prototype is queued but
    gets no entry: the catalog is found empty and declared ready. *)
Example transcript_without_entry :
  run getFileExt_spec trace_named boot = Some state_named /\
  files (this state_named) = [] /\
  txtQueue state_named = [mkItem "toString.txt" "toString"] /\
  initialized (this state_named) = true /\
  initPromise state_named = Some Fulfilled.
Proof. repeat split. Qed.

(** Of seven clips, a draw whose exact product with 7 is below 4 selects
    the clip at position 4: the product is rounded to 4 before it is
    floored. *)
Example rounded_draw :
  run getFileExt_spec trace_seven boot = Some state_seven /\
  mp3s (this state_seven) = ["a"; "b"; "c"; "d"; "e"; "f"; "g"] /\
  (value draw_below_four * inject_Z 7 < inject_Z 4)%Q /\
  times draw_below_four 7 = mkDouble 9007199254740992 (-51) /\
  getRandomClip draw_below_four (this state_seven) =
  (Normal (Resolve ("e.mp3", None)), this state_seven).
Proof. repeat split. Qed.

(** ** More about [getGlob] *)

(** X1. [getGlob] returns what precedes the first '.' of the path: the
    empty string when the path has no '.', and [base] when the path is
    [base], without a '.', followed by '.' and anything. *)
Theorem getGlob_splits_at_first_dot (key : string) :
  (indexOf "." key = -1 -> getGlob key = "") /\
  (forall base rest,
     key = (base ++ String "." rest)%string -> indexOf "." base = -1 ->
     getGlob key = base).
Proof.
  split; [apply getGlob_no_dot|].
  intros base rest -> Hb. now apply getGlob_one_dot.
Qed.

(** X2. The glob is empty, so that [init] skips the key, exactly when the
    key has no '.' or starts with '.'. *)
Theorem getGlob_empty_iff (key : string) :
  getGlob key = "" <-> indexOf "." key = -1 \/ indexOf "." key = 0.
Proof.
  destruct key as [|a t]; [split; [now left | reflexivity]|].
  destruct (Ascii.eqb a ".") eqn:Ea.
  - apply Ascii.eqb_eq in Ea. subst a. split; [now right | reflexivity].
  - destruct (Z.eqb_spec (indexOf "." t) (-1)) as [Et|Et].
    + assert (Hk : indexOf "." (String a t) = -1).
      { simpl. rewrite Ea, Et. reflexivity. }
      split; [now left | intros _; now apply getGlob_no_dot].
    + rewrite getGlob_cons by assumption.
      pose proof (indexOf_ge "." t) as Hge.
      simpl indexOf. rewrite Ea.
      apply Z.eqb_neq in Et. rewrite Et. apply Z.eqb_neq in Et.
      split; [discriminate | intros [H|H]; lia].
Qed.

(** X3. The glob never holds a '.', and the path starts with it. *)
Theorem getGlob_is_dotless_prefix (key : string) :
  indexOf "." (getGlob key) = -1 /\
  exists rest, key = (getGlob key ++ rest)%string.
Proof.
  induction key as [|a t [IH1 [rest IH2]]].
  - split; [reflexivity | now exists ""].
  - destruct (Ascii.eqb a ".") eqn:Ea.
    + apply Ascii.eqb_eq in Ea. subst a. rewrite getGlob_dot.
      split; [reflexivity | now exists (String "." t)].
    + destruct (Z.eqb_spec (indexOf "." t) (-1)) as [Et|Et].
      * rewrite getGlob_no_dot by (simpl; now rewrite Ea, Et).
        split; [reflexivity | now exists (String a t)].
      * rewrite getGlob_cons by assumption. split.
        -- simpl. now rewrite Ea, IH1.
        -- exists rest. simpl. now rewrite <- IH2.
Qed.

(** ** The callbacks of [process] and of [convert] *)

Lemma obj_put_keeps o g v k :
  obj_get o g <> None -> obj_get o k <> None ->
  obj_get (obj_put o g v) k <> None.
Proof.
  intros Hg Hk. destruct (string_dec g k) as [->|Hne].
  - rewrite obj_get_put_eq. discriminate.
  - now rewrite obj_get_put_ne.
Qed.

(** X20. Whatever its receiver and whatever the store answers, the
    callback of [process] leaves [initialized], [paths], [mp3s], the keys
    of [files], every recording's encodings and every entry other than
    the one of its glob as they were: it can only set one transcript. *)
Theorem process_callback_frame
    (recv : Receiver) (data : Item) (r : S3Result string) (st : Files) :
  let st' := snd (process_callback recv data r st) in
  initialized st' = initialized st /\ paths st' = paths st /\
  mp3s st' = mp3s st /\ map fst (files st') = map fst (files st) /\
  (forall g, option_map exts (obj_get (files st') g) =
             option_map exts (obj_get (files st) g)) /\
  (forall g, g <> item_glob data ->
             obj_get (files st') g = obj_get (files st) g).
Proof.
  cbv zeta. destruct r as [err|body]; [simpl; auto 10|].
  destruct recv; [|simpl; auto 10].
  unfold process_callback, files_on, assign_sentence, obj_lookup. unfold_m.
  destruct (obj_get (files st) (item_glob data)) as [rec|] eqn:E;
    unfold_m; [|destruct (inherited (item_glob data)); simpl; auto 10].
  repeat split.
  - apply obj_put_keys_present. eapply obj_get_Some_key; eassumption.
  - intros g. destruct (string_dec (item_glob data) g) as [<-|Hne].
    + now rewrite obj_get_put_eq, E.
    + now rewrite obj_get_put_ne.
  - intros g Hne. apply obj_get_put_ne. congruence.
Qed.

(** X21. Whatever its receiver and whatever the store answers, the
    [putObject] callback of [convert] leaves [initialized], [paths],
    [mp3s], the keys of [files] and every transcript as they were; the
    encodings of a recording are afterwards what they were, or, for the
    glob of the job only, what they were followed by '.mp3'. *)
Theorem convert_put_callback_frame
    (recv : Receiver) (job : Job) (r : S3Result unit) (st : Files) :
  let st' := snd (convert_put_callback recv job r st) in
  initialized st' = initialized st /\ paths st' = paths st /\
  mp3s st' = mp3s st /\ map fst (files st') = map fst (files st) /\
  forall g rec,
    obj_get (files st) g = Some rec ->
    exists rec',
      obj_get (files st') g = Some rec' /\ sentence rec' = sentence rec /\
      (exts rec' = exts rec \/
       g = job_glob job /\ exts rec' = exts rec ++ [MP3_EXT]).
Proof.
  cbv zeta.
  assert (Hsame : forall g rec,
            obj_get (files st) g = Some rec ->
            exists rec',
              obj_get (files st) g = Some rec' /\
              sentence rec' = sentence rec /\
              (exts rec' = exts rec \/
               g = job_glob job /\ exts rec' = exts rec ++ [MP3_EXT])).
  { intros g rec E. exists rec. auto. }
  destruct r as [err|u]; [simpl; auto 10|].
  destruct recv; [|simpl; auto 10].
  unfold convert_put_callback, files_on, update_file. unfold_m.
  destruct (obj_get (files st) (job_glob job)) as [rec0|] eqn:E;
    unfold_m; [|auto 10].
  repeat split.
  - apply obj_put_keys_present. eapply obj_get_Some_key; eassumption.
  - intros g rec Eg. destruct (string_dec (job_glob job) g) as [<-|Hne].
    + rewrite obj_get_put_eq. exists (push_ext MP3_EXT rec0).
      assert (rec0 = rec) by congruence. subst rec0. simpl. auto.
    + rewrite obj_get_put_ne by assumption. exists rec. auto.
Qed.

Lemma batch_eta b : mkBatch (b_this b) (b_finished b) (b_cb b) = b.
Proof. now destruct b. Qed.

(** X22. Called as the store client calls them, not on the instance, the
    callbacks of one call of [convert] never touch the catalog and never
    count a job as finished: [cb] is called once for each callback that
    receives an error, and never otherwise. *)
Theorem convert_off_instance_completes_by_errors_only
    (arg : JobsArg) (evs : list BatchEvent) (b : Batch) :
  Forall (put_on ThisForeign) evs ->
  batch_run arg evs b =
  mkBatch (b_this b) (b_finished b)
    (b_cb b + length (filter is_error evs)).
Proof.
  revert b. induction evs as [|e evs IH]; intros b Hall; simpl.
  - rewrite Nat.add_0_r. symmetry. apply batch_eta.
  - inversion Hall as [|? ? He Hrest]; subst.
    rewrite IH by assumption.
    destruct e as [[err|u]|recv job [err|u]]; simpl in *;
      try subst recv; unfold_m; f_equal; lia.
Qed.

Lemma put_known_kept o g v e :
  obj_get o g <> None -> put_known o e -> put_known (obj_put o g v) e.
Proof.
  destruct e as [r|recv job r]; simpl; [trivial|].
  intros Hg Hk. now apply obj_put_keeps.
Qed.

(** The count of [cb] and of [finished] when every [putObject] callback
    runs on the instance. *)
Lemma batch_run_on_instance (arg : JobsArg) (evs : list BatchEvent) :
  forall b,
    Forall (put_on ThisFiles) evs ->
    Forall (put_known (files (b_this b))) evs ->
    let n := Z.of_nat (length (as_array arg)) in
    let succ := Z.of_nat (length (filter is_put_success evs)) in
    let b' := batch_run arg evs b in
    b_finished b' = b_finished b + succ /\
    b_cb b' =
    (b_cb b + length (filter is_error evs) +
     completion_calls (b_finished b) n succ)%nat.
Proof.
  induction evs as [|e evs IH]; intros b Hon Hkn; cbv zeta;
    unfold completion_calls in *.
  - simpl. split; [lia|].
    destruct (Z.ltb_spec (b_finished b) (Z.of_nat (length (as_array arg))));
      destruct (Z.leb_spec (Z.of_nat (length (as_array arg)))
                  (b_finished b + 0));
      simpl; lia.
  - inversion Hon as [|? ? He Hrest]; subst.
    inversion Hkn as [|? ? Hke Hkrest]; subst.
    set (n := Z.of_nat (length (as_array arg))) in *.
    destruct e as [[err|u]|recv job [err|u]].
    + (* getObject failed *)
      simpl.
      destruct (IH (mkBatch (b_this b) (b_finished b) (S (b_cb b)))
                  Hrest Hkrest) as [H1 H2].
      cbv zeta in H1, H2. simpl in H1, H2. fold n in H2.
      split; [exact H1 | rewrite H2; lia].
    + (* getObject succeeded *)
      simpl. destruct (IH b Hrest Hkrest) as [H1 H2].
      cbv zeta in H1, H2. fold n in H2. split; [exact H1 | rewrite H2; lia].
    + (* putObject failed *)
      simpl.
      destruct (IH (mkBatch (b_this b) (b_finished b) (S (b_cb b)))
                  Hrest Hkrest) as [H1 H2].
      cbv zeta in H1, H2. simpl in H1, H2. fold n in H2.
      split; [exact H1 | rewrite H2; lia].
    + (* putObject succeeded *)
      simpl in He, Hke. subst recv.
      destruct (obj_get (files (b_this b)) (job_glob job)) as [rec|] eqn:E;
        [|congruence].
      set (st1 := set_files
                    (obj_put (files (b_this b)) (job_glob job)
                       (push_ext MP3_EXT rec)) (b_this b)).
      assert (Hfire :
        batch_fire arg (PutCb ThisFiles job (S3Data u)) b =
        mkBatch st1 (b_finished b + 1)
          (if b_finished b + 1 =? n then S (b_cb b) else b_cb b)).
      { unfold batch_fire, convert_put, in_batch, convert_put_callback,
          files_on, update_file, call_cb.
        unfold_m. rewrite E. unfold_m. fold n.
        destruct (b_finished b + 1 =? n); reflexivity. }
      assert (Hk1 : Forall (put_known (files st1)) evs).
      { eapply Forall_impl; [|exact Hkrest].
        intros e He'. apply put_known_kept; [congruence | assumption]. }
      change (batch_run arg (PutCb ThisFiles job (S3Data u) :: evs) b)
        with (batch_run arg evs
                (batch_fire arg (PutCb ThisFiles job (S3Data u)) b)).
      rewrite Hfire.
      destruct (IH (mkBatch st1 (b_finished b + 1)
                      (if b_finished b + 1 =? n
                       then S (b_cb b) else b_cb b)) Hrest Hk1) as [H1 H2].
      cbv zeta in H1, H2. simpl in H1, H2. fold n in H2.
      simpl filter. simpl length.
      set (sr := length (filter is_put_success evs)) in *.
      split; [rewrite H1; lia|]. rewrite H2.
      replace (Z.of_nat (S sr)) with (Z.of_nat sr + 1) by lia.
      destruct (Z.eqb_spec (b_finished b + 1) n) as [En|Nn];
        destruct (Z.ltb_spec (b_finished b + 1) n);
        destruct (Z.ltb_spec (b_finished b) n);
        destruct (Z.leb_spec n (b_finished b + 1 + Z.of_nat sr));
        destruct (Z.leb_spec n (b_finished b + (Z.of_nat sr + 1)));
        simpl; lia.
Qed.

(** X23. When every [putObject] callback of one call of [convert] runs
    on the instance, for globs that have entries, [finished] ends as the
    number of successful writes, and [cb] is called once for each callback
    that receives an error and once more if the successful writes reach
    the number of jobs: a failed job is reported at once, and is not
    counted as finished. *)
Theorem convert_on_instance_counts
    (arg : JobsArg) (evs : list BatchEvent) (st : Files) :
  Forall (put_on ThisFiles) evs ->
  Forall (put_known (files st)) evs ->
  let n := Z.of_nat (length (as_array arg)) in
  let succ := Z.of_nat (length (filter is_put_success evs)) in
  let b' := batch_run arg evs (new_Batch st) in
  b_finished b' = succ /\
  b_cb b' =
  (length (filter is_error evs) + completion_calls 0 n succ)%nat.
Proof.
  intros Hon Hkn.
  destruct (batch_run_on_instance arg evs (new_Batch st) Hon Hkn)
    as [H1 H2].
  cbv zeta in *. simpl in H1, H2. split; [exact H1 | exact H2].
Qed.

(** ** Further properties of the runs *)

Section Further.

Variable getFileExt : string -> string.

Lemma in_remove_nth {A} (l : list A) i x : In x (remove_nth i l) -> In x l.
Proof.
  unfold remove_nth. intros H. apply in_app_iff in H as [H|H].
  - rewrite <- (firstn_skipn i l). apply in_app_iff. now left.
  - rewrite <- (firstn_skipn (S i) l). apply in_app_iff. now right.
Qed.

Lemma remove_nth_NoDup {A B} (f : A -> B) (l : list A) i :
  NoDup (map f l) -> NoDup (map f (remove_nth i l)).
Proof.
  intros H. destruct (nth_error l i) as [x|] eqn:E.
  - destruct (nth_error_remove_split _ _ _ E) as [l1 [l2 [El ->]]].
    rewrite El, map_app in H. simpl in H. rewrite map_app.
    eapply NoDup_remove_1; eassumption.
  - apply nth_error_None in E. unfold remove_nth.
    rewrite firstn_all2 by assumption.
    rewrite skipn_all2 by lia. now rewrite app_nil_r.
Qed.

(** What a callback that touches the entry of [g] leaves under a key. *)
Lemma touched_get f g st st' k :
  touched f g st st' ->
  obj_get (files st') k = obj_get (files st) k \/
  (k = g /\ exists r, obj_get (files st) k = Some r /\
                      obj_get (files st') k = Some (f r)).
Proof.
  intros [->|[r [E ->]]]; [now left|]. simpl.
  destruct (string_dec g k) as [->|Hne].
  - right. split; [reflexivity|]. exists r. now rewrite obj_get_put_eq.
  - left. now apply obj_get_put_ne.
Qed.

Lemma scan_files_dom key o g :
  obj_get (scan_files getFileExt key o) g <> None <->
  obj_get o g <> None \/
  (g <> "" /\ inherited g = false /\ getGlob key = g).
Proof.
  destruct (string_dec (getGlob key) "") as [E0|N0].
  - rewrite scan_files_skip by assumption. split; [now left|].
    intros [H|[H1 [_ H2]]]; [assumption | congruence].
  - destruct (string_dec g (getGlob key)) as [->|Hne].
    + destruct (obj_get o (getGlob key)) as [r|] eqn:E.
      * rewrite scan_files_get_same by (try assumption; left; congruence).
        split; [intros _; left; discriminate | discriminate].
      * destruct (inherited (getGlob key)) eqn:Ei.
        -- rewrite scan_files_inherited by assumption. rewrite E.
           split; [congruence | intros [H|[_ [H _]]]; congruence].
        -- rewrite scan_files_get_same by (try assumption; now right).
           split; [intros _; right; auto | discriminate].
    + rewrite scan_files_get_other by assumption.
      split; [now left | intros [H|[_ [_ H]]]; [assumption | congruence]].
Qed.

(** The scan creates an entry for exactly the globs of the keys it goes
    through that are no names of Object.prototype. *)
Lemma scan_all_dom contents : forall o g,
  obj_get (scan_all getFileExt contents o) g <> None <->
  obj_get o g <> None \/
  (g <> "" /\ inherited g = false /\
   exists key, In key contents /\ getGlob key = g).
Proof.
  induction contents as [|key t IH]; intros o g; simpl.
  - split; [now left | intros [H|[_ [_ [key [[] _]]]]]; assumption].
  - rewrite IH, scan_files_dom. split.
    + intros [[H|[H1 [H2 H3]]]|[H1 [H2 [k [Hk Hg]]]]].
      * now left.
      * right. split; [assumption|]. split; [assumption|]. exists key. auto.
      * right. split; [assumption|]. split; [assumption|]. exists k. auto.
    + intros [H|[H1 [H2 [k [[<-|Hk] Hg]]]]].
      * left. now left.
      * left. right. auto.
      * right. split; [assumption|]. split; [assumption|]. now exists k.
Qed.

Lemma key_items_ok key it :
  In it (key_items getFileExt key) ->
  item_ok getFileExt it /\ item_path it = key.
Proof.
  unfold key_items, item_ok.
  destruct (String.eqb_spec (getGlob key) "") as [E|N]; [intros []|].
  destruct (String.eqb_spec (getFileExt key) ".txt") as [Et|Nt];
    [|intros []].
  intros [<-|[]]. simpl. auto.
Qed.

Lemma key_exts_no_txt g key x :
  In x (key_exts getFileExt g key) -> x <> ".txt".
Proof.
  unfold key_exts.
  destruct (String.eqb (getGlob key) ""); [intros []|].
  destruct (String.eqb_spec (getFileExt key) ".txt") as [Et|Nt];
    [intros []|].
  destruct (String.eqb (getGlob key) g); [|intros []].
  intros [<-|[]]. assumption.
Qed.

(** Every event that fires has one of the shapes of [fired]. *)
Lemma fire_fired e s s' :
  Inv s -> fire getFileExt e s = Some s' -> fired getFileExt e s s'.
Proof.
  intros HI Hf. destruct e as [|r|i recv r|i recv r| |err|].
  - simpl in Hf. destruct (listing s) eqn:HL; try discriminate.
    injection Hf as <-. now constructor.
  - destruct r as [err|contents].
    + simpl in Hf. destruct (listing s) eqn:HL; try discriminate.
      injection Hf as <-. now constructor.
    + rewrite fire_listing_data in Hf by assumption.
      destruct (listing s) eqn:HL; try discriminate. injection Hf as <-.
      destruct (inv_before s HI) as [Hthis [Htq [Hcp Hcq]]];
        [rewrite HL; discriminate|].
      constructor; try assumption.
      pose proof (inv_called s HI) as Hc.
      pose proof (inv_no_reject s HI) as Hr.
      pose proof (inv_ready s HI) as Hy. rewrite Hthis in Hy. simpl in Hy.
      destruct (initPromise s) as [[| |e]|].
      * reflexivity.
      * destruct Hy as [_ Hy]. discriminate Hy. reflexivity.
      * exfalso. now apply (Hr e).
      * exfalso. apply Hc; [rewrite HL; discriminate | reflexivity].
  - simpl in Hf.
    destruct (nth_error (txtQueue s) i) as [item|] eqn:En; [|discriminate].
    injection Hf as <-.
    assert (HL : listing s = Listed).
    { apply queued_Listed; [assumption|]. left.
      eapply nth_error_nonempty; eassumption. }
    replace (snd (on_this (process_callback recv item r)
                    (set_txtQueue (remove_nth i (txtQueue s)) s)))
      with (set_this (snd (process_callback recv item r (this s)))
              (set_txtQueue (remove_nth i (txtQueue s)) s)).
    + now constructor.
    + unfold on_this. simpl.
      now destruct (process_callback recv item r (this s)).
  - simpl in Hf.
    destruct (nth_error (convQueue s) i) as [job|] eqn:En; [|discriminate].
    injection Hf as <-.
    assert (HL : listing s = Listed).
    { apply queued_Listed; [assumption|]. right; left.
      eapply nth_error_nonempty; eassumption. }
    replace (snd (on_this (convert_put_callback recv job r)
                    (set_convQueue (remove_nth i (convQueue s)) s)))
      with (set_this (snd (convert_put_callback recv job r (this s)))
              (set_convQueue (remove_nth i (convQueue s)) s)).
    + now constructor.
    + unfold on_this. simpl.
      now destruct (convert_put_callback recv job r (this s)).
  - simpl in Hf. destruct (convPromise s) as [[| |e]|] eqn:Ec;
      try discriminate. injection Hf as <-.
    constructor; [|assumption].
    apply queued_Listed; [assumption|]. right; right. congruence.
  - simpl in Hf. destruct (convPromise s) as [[| |e]|] eqn:Ec;
      try discriminate. injection Hf as <-.
    constructor; [|assumption].
    apply queued_Listed; [assumption|]. right; right. congruence.
  - simpl in Hf. destruct (convPromise s) as [[| |e]|] eqn:Ec;
      try discriminate.
    destruct (thenRan s) eqn:Et; [discriminate|]. injection Hf as <-.
    assert (HL : listing s = Listed).
    { apply queued_Listed; [assumption|]. right; right. congruence. }
    rewrite then_callback_known by (simpl; apply (inv_known s HI)).
    simpl.
    assert (Hip : settle Fulfilled (initPromise s) = Some Fulfilled).
    { pose proof (inv_called s HI) as Hc.
      pose proof (inv_no_reject s HI) as Hr.
      destruct (initPromise s) as [[| |e]|]; simpl; try reflexivity.
      - exfalso. now apply (Hr e).
      - exfalso. apply Hc; [rewrite HL; discriminate | reflexivity]. }
    rewrite Hip, HL, Ec. now constructor.
Qed.

Lemma has_mp3_touched f g st st' k :
  (forall r x, In x (exts r) -> In x (exts (f r))) ->
  touched f g st st' ->
  has_mp3 (files st) k = true -> has_mp3 (files st') k = true.
Proof.
  intros Hf Ht H. apply has_mp3_In in H as [r [E Hin]]. apply has_mp3_In.
  destruct (touched_get _ _ _ _ k Ht) as [Hk|[_ [r0 [E0 E1]]]].
  - exists r. split; [congruence | assumption].
  - exists (f r0). split; [assumption|]. apply Hf. congruence.
Qed.

Lemma Inv2_touched f g s s' :
  (forall r x, In x (exts r) -> In x (exts (f r))) ->
  (forall r, ~ In ".txt" (exts r) -> ~ In ".txt" (exts (f r))) ->
  Inv2 getFileExt s -> touched f g (this s) (this s') ->
  thenRan s' = thenRan s -> convPromise s' = convPromise s ->
  incl (txtQueue s') (txtQueue s) -> incl (convQueue s') (convQueue s) ->
  NoDup (map job_glob (convQueue s')) ->
  Inv2 getFileExt s'.
Proof.
  intros Hgrow Htxt [J1 J2 J3 J4 J5 J6 J0 J7 J8 J9 J10] Ht Hth Hcp Htq Hcq
    Hnd.
  destruct (touched_fields _ _ _ _ Ht) as [Hi [Hp [Hm [Hk Hg]]]].
  constructor.
  - rewrite Hth, Hi. exact J1.
  - rewrite Hth, Hi, Hcp. exact J2.
  - rewrite Hcp, Hp. exact J3.
  - rewrite Hm. exact J4.
  - rewrite Hm. intros k Hin. eapply has_mp3_touched; eauto.
  - rewrite Hi, Hm. exact J6.
  - intros k Hk'.
    destruct (touched_get _ _ _ _ k Ht) as [Hsame|[_ [r0 [E0 _]]]].
    + rewrite Hsame. now apply J0.
    + rewrite (J0 k Hk') in E0. discriminate.
  - intros it Hin. destruct (J7 it (Htq it Hin)) as [Hok He].
    split; [assumption | intros Hn; now apply Hg, He].
  - intros k r' E'.
    destruct (touched_get _ _ _ _ k Ht) as [Hsame|[_ [r0 [E0 E1]]]].
    + apply (J8 k r'). congruence.
    + rewrite E1 in E'. injection E' as <-. apply Htxt. now apply (J8 k r0).
  - intros j Hin. destruct (J9 j (Hcq j Hin)) as [Hpj [Hcj [r [E Hr]]]].
    split; [now rewrite Hp | split; [assumption|]].
    destruct (touched_get _ _ _ _ (job_glob j) Ht)
      as [Hsame|[_ [r0 [E0 E1]]]].
    + exists r. split; [congruence | assumption].
    + exists (f r0). split; [assumption|]. apply Hgrow. congruence.
  - exact Hnd.
Qed.

Lemma after_listing_Inv2 contents s :
  Inv s -> Inv2 getFileExt s ->
  listing s = Requested -> this s = new_Files -> txtQueue s = [] ->
  convPromise s = None -> convQueue s = [] ->
  Inv2 getFileExt (after_listing getFileExt contents s).
Proof.
  intros HI HJ HL Hthis Htq Hcp Hcq.
  assert (Hth : thenRan s = false).
  { destruct (thenRan s) eqn:Et; [|reflexivity].
    pose proof (i2_then _ s HJ Et) as H. rewrite Hthis in H. discriminate. }
  set (o := scan_all getFileExt (scanned getFileExt contents) []).
  assert (Hown : own_names o).
  { apply scan_all_own_names, own_names_nil. }
  assert (Hitems : forall it,
            In it (transcript_items getFileExt
                     (scanned getFileExt contents)) ->
            item_ok getFileExt it /\
            (inherited (item_glob it) = false ->
             obj_get o (item_glob it) <> None)).
  { intros it Hin. apply in_flat_map in Hin as [key [Hk Hin]].
    apply key_items_ok in Hin as [Hok Hpath]. split; [assumption|].
    intros Hn. apply scan_all_dom. right. destruct Hok as [Hg [Hne _]].
    split; [assumption|]. split; [assumption|].
    exists key. split; [assumption | congruence]. }
  assert (Hno : forall g r, obj_get o g = Some r -> ~ In ".txt" (exts r)).
  { intros g r E Hin. apply scanned_entry in E. rewrite E in Hin.
    apply in_flat_map in Hin as [key [_ Hin]].
    now apply key_exts_no_txt in Hin. }
  assert (Hpd : NoDup (Object_keys o)).
  { eapply Permutation_NoDup; [symmetry; apply Object_keys_perm|].
    apply scan_all_NoDup. constructor. }
  unfold after_listing. rewrite Hthis, Htq, Hcp, Hcq, Hth. simpl.
  fold o. destruct (scan_completes getFileExt contents).
  - revert Hpd. generalize (Object_keys o) as pl.
    intros [|p pl] Hpd.
    + constructor; simpl; auto; try discriminate; try apply NoDup_nil;
        try (intros x Hx; now destruct Hx); try (intros H; now elim H).
    + destruct (filter _ (p :: pl)) as [|m ms] eqn:Ef.
      * constructor; simpl; auto; try discriminate; try apply NoDup_nil;
          try (intros x Hx; now destruct Hx).
      * change (job_for o m ++ flat_map (job_for o) ms)
          with (flat_map (job_for o) (m :: ms)).
        rewrite <- Ef.
        constructor; cbn [this files paths mp3s initialized thenRan
                            convPromise convQueue txtQueue app];
          auto; try discriminate; try apply NoDup_nil;
          try (intros x Hx; now destruct Hx).
        -- intros j Hj. apply in_flat_map in Hj as [g [Hg Hj]].
           apply filter_In in Hg as [Hg _].
           apply job_for_In in Hj as [r [E [Hjg Hfc]]].
           destruct Hfc as [pre [post [Ee [Hc _]]]].
           unfold job_ok. cbn [paths files]. rewrite Hjg.
           split; [assumption | split; [assumption|]].
           exists r. split; [assumption|].
           rewrite Ee. apply in_app_iff. right. now left.
        -- apply jobs_NoDup, NoDup_filter, Hpd.
  - constructor; simpl; auto; try discriminate; try apply NoDup_nil;
      try (intros x Hx; now destruct Hx); try (intros H; now elim H).
Qed.

(** Firing an event keeps the second invariant. *)
Lemma fired_Inv2 e s s' :
  Inv s -> Inv2 getFileExt s -> fired getFileExt e s s' ->
  Inv2 getFileExt s'.
Proof.
  intros HI HJ Hf.
  destruct Hf as [s HL|s err HL|s contents HL Hthis Htq Hcp Hcq Hip
                  |s i recv r item HL En|s i recv r job HL En
                  |s HL Hc|s err HL Hc|s HL Hc Ht].
  - destruct HJ. constructor; assumption.
  - destruct HJ. constructor; assumption.
  - now apply after_listing_Inv2.
  - destruct (process_callback_touched recv item r (this s)) as [body Htc].
    eapply (Inv2_touched (set_sentence body) (item_glob item) s);
      try eassumption; try reflexivity.
    + intros rec x Hx. exact Hx.
    + intros rec Hx. exact Hx.
    + simpl. intros x Hx. eapply in_remove_nth; eassumption.
    + apply incl_refl.
    + apply (i2_jobs_nodup _ s HJ).
  - pose proof (convert_put_callback_touched recv job r (this s)) as Htc.
    eapply (Inv2_touched (push_ext MP3_EXT) (job_glob job) s);
      try eassumption; try reflexivity.
    + intros rec x Hx. simpl. apply in_app_iff. now left.
    + intros rec Hx Hin. simpl in Hin. apply in_app_iff in Hin as [Hin|Hin].
      * now apply Hx.
      * destruct Hin as [Hin|[]]. discriminate.
    + apply incl_refl.
    + simpl. intros x Hx. eapply in_remove_nth; eassumption.
    + simpl. apply remove_nth_NoDup. apply (i2_jobs_nodup _ s HJ).
  - destruct HJ as [J1 J2 J3 J4 J5 J6 J0 J7 J8 J9 J10].
    constructor; simpl; auto.
    + intros H. destruct (J2 H) as [H1|H1]; [now left | congruence].
    + intros _. apply J3. congruence.
  - destruct HJ as [J1 J2 J3 J4 J5 J6 J0 J7 J8 J9 J10].
    constructor; simpl; auto.
    + intros H. destruct (J2 H) as [H1|H1]; [now left | congruence].
    + intros _. apply J3. congruence.
  - destruct HJ as [J1 J2 J3 J4 J5 J6 J0 J7 J8 J9 J10].
    constructor; simpl; auto.
    + intros _. apply J3. congruence.
    + apply NoDup_filter, (inv_paths s HI).
    + intros g Hg. apply filter_In in Hg. tauto.
    + discriminate.
Qed.

Lemma boot_Inv2 : Inv2 getFileExt boot.
Proof.
  constructor; simpl; auto; try discriminate; try apply NoDup_nil;
    try (intros x Hx; now destruct Hx).
Qed.

Lemma run_Inv2 tr : forall s s',
  Inv s -> Inv2 getFileExt s -> run getFileExt tr s = Some s' ->
  Inv2 getFileExt s'.
Proof.
  induction tr as [|e tr IH]; intros s s' HI HJ Hr; simpl in Hr.
  - now injection Hr as <-.
  - destruct (fire getFileExt e s) as [s1|] eqn:Ef; [|discriminate].
    apply (IH s1 s'); [| |assumption].
    + eapply fire_Inv; eassumption.
    + apply (fired_Inv2 e s s1 HI HJ). now apply fire_fired.
Qed.

Lemma reachable_Inv2 tr s :
  run getFileExt tr boot = Some s -> Inv2 getFileExt s.
Proof. apply run_Inv2; [apply boot_Inv | apply boot_Inv2]. Qed.

(** A relation that every step respects holds between the two ends of
    every run. *)
Lemma run_steps (R : Sys -> Sys -> Prop) :
  (forall s, R s s) ->
  (forall a b c, R a b -> R b c -> R a c) ->
  (forall e s s',
     Inv s -> Inv2 getFileExt s -> fired getFileExt e s s' -> R s s') ->
  forall tr s s',
    Inv s -> Inv2 getFileExt s -> run getFileExt tr s = Some s' -> R s s'.
Proof.
  intros Hrefl Htrans Hstep.
  induction tr as [|e tr IH]; intros s s' HI HJ Hr; simpl in Hr.
  - injection Hr as <-. apply Hrefl.
  - destruct (fire getFileExt e s) as [s1|] eqn:Ef; [|discriminate].
    pose proof (fire_fired e s s1 HI Ef) as Hf.
    apply (Htrans s s1 s').
    + now apply (Hstep e).
    + apply IH; [| |assumption].
      * eapply fire_Inv; eassumption.
      * eapply fired_Inv2; eassumption.
Qed.

Lemma run_app tr1 : forall tr2 s s',
  run getFileExt (tr1 ++ tr2) s = Some s' <->
  exists s1, run getFileExt tr1 s = Some s1 /\
             run getFileExt tr2 s1 = Some s'.
Proof.
  induction tr1 as [|e tr1 IH]; intros tr2 s s'; simpl.
  - split; [intros H; now exists s | intros [s1 [[= <-] H]]; exact H].
  - destruct (fire getFileExt e s) as [s0|]; [apply IH|].
    split; [discriminate | intros [s1 [H _]]; discriminate].
Qed.

(** The catalog and the transcript queue that the listing callback
    leaves. *)
Lemma after_listing_catalog contents s :
  files (this (after_listing getFileExt contents s)) =
    scan_all getFileExt (scanned getFileExt contents) (files (this s)) /\
  txtQueue (after_listing getFileExt contents s) =
    txtQueue s ++
    transcript_items getFileExt (scanned getFileExt contents) /\
  paths (this (after_listing getFileExt contents s)) =
    (if scan_completes getFileExt contents
     then Object_keys (files (this (after_listing getFileExt contents s)))
     else paths (this s)).
Proof.
  unfold after_listing.
  destruct (scan_completes getFileExt contents); [|repeat split].
  destruct (Object_keys _) as [|p pl] eqn:Ek; [repeat split|].
  - simpl. now rewrite Ek.
  - destruct (filter _ (p :: pl)); repeat split; simpl; now rewrite Ek.
Qed.

Lemma Object_keys_get o g : In g (Object_keys o) <-> obj_get o g <> None.
Proof.
  rewrite Object_keys_In. split; [apply obj_get_key|].
  destruct (obj_get o g) as [r|] eqn:E; [|congruence].
  intros _. eapply obj_get_Some_key; eassumption.
Qed.

(** X4. The listing callback leaves an entry in [files] for exactly the
    globs of the keys its scan went through that are not empty and are no
    names of Object.prototype; when the scan reaches its end these are the
    globs of [paths], and when it throws [paths] is left empty. *)
Theorem catalog_holds_the_listed_globs
    (tr : list Event) (s : Sys) (contents : list string) (s' : Sys) :
  run getFileExt tr boot = Some s ->
  fire getFileExt (ListingCb (S3Data contents)) s = Some s' ->
  (forall g,
     obj_get (files (this s')) g <> None <->
     g <> "" /\ inherited g = false /\
     exists key, In key (scanned getFileExt contents) /\ getGlob key = g) /\
  (scan_completes getFileExt contents = true ->
   scanned getFileExt contents = contents /\
   forall g, In g (paths (this s')) <-> obj_get (files (this s')) g <> None) /\
  (scan_completes getFileExt contents = false -> paths (this s') = []).
Proof.
  intros Hr Hf. apply reachable_Inv in Hr.
  apply (fire_fired _ _ _ Hr) in Hf.
  inversion Hf as [| |s0 c HL Hthis Htq Hcp Hcq Hip| | | | |]; subst.
  destruct (after_listing_catalog contents s) as [Ef [_ Ep]].
  rewrite Ep, Ef, Hthis. simpl. split; [|split].
  - intros g. rewrite scan_all_dom. simpl. split; [|now right].
    intros [H|H]; [congruence | assumption].
  - intros Hc. rewrite Hc. split; [now apply scanned_complete|].
    intros g. apply Object_keys_get.
  - intros Hc. now rewrite Hc.
Qed.

(** X5. In every state of a run, each queued transcript item is the one
    the scan pushed for a key with the extension '.txt': its glob is the
    glob of its path and is not empty, and it has an entry in [files]
    exactly when it is no name of Object.prototype. *)
Theorem transcript_items_wellformed (tr : list Event) (s : Sys) :
  run getFileExt tr boot = Some s ->
  forall it, In it (txtQueue s) ->
    item_glob it = getGlob (item_path it) /\ item_glob it <> "" /\
    getFileExt (item_path it) = ".txt" /\
    (inherited (item_glob it) = false <->
     exists r, obj_get (files (this s)) (item_glob it) = Some r).
Proof.
  intros Hr it Hin. apply reachable_Inv2 in Hr.
  destruct (i2_items _ s Hr it Hin) as [[H1 [H2 H3]] H4].
  repeat split; try assumption.
  - intros Hn. specialize (H4 Hn).
    destruct (obj_get (files (this s)) (item_glob it)) as [r|];
      [now exists r | congruence].
  - intros [r E]. destruct (inherited (item_glob it)) eqn:Ei; [|reflexivity].
    rewrite (i2_own _ s Hr _ Ei) in E. discriminate.
Qed.

(** X6. In every state of a run, no recording has '.txt' among its
    encodings: the scan queues the transcripts instead, and a conversion
    appends '.mp3' only. *)
Theorem encodings_never_hold_txt
    (tr : list Event) (s : Sys) (g : string) (r : Recording) :
  run getFileExt tr boot = Some s ->
  obj_get (files (this s)) g = Some r -> ~ In ".txt" (exts r).
Proof.
  intros Hr. apply reachable_Inv2 in Hr. apply (i2_no_txt _ s Hr).
Qed.

(** X7. The listing callback itself sets [initialized], and resolves the
    promise of [init], exactly when no listed key gives an entry: each has
    an empty glob, or is a transcript whose glob is a name of
    Object.prototype.  Otherwise readiness waits for the [then] callback,
    also when no recording lacks '.mp3'. *)
Theorem listing_ready_iff_no_glob
    (tr : list Event) (s : Sys) (contents : list string) (s' : Sys) :
  run getFileExt tr boot = Some s ->
  fire getFileExt (ListingCb (S3Data contents)) s = Some s' ->
  (initialized (this s') = true <->
   forall key, In key contents ->
     getGlob key = "" \/
     inherited (getGlob key) = true /\ getFileExt key = ".txt") /\
  (initPromise s' = Some Fulfilled <->
   forall key, In key contents ->
     getGlob key = "" \/
     inherited (getGlob key) = true /\ getFileExt key = ".txt").
Proof.
  intros Hr Hf. apply reachable_Inv in Hr.
  pose proof (fire_Inv _ _ _ _ Hr Hf) as HI'.
  assert (Hmain : initialized (this s') = true <->
                  forall key, In key contents ->
                    getGlob key = "" \/
                    inherited (getGlob key) = true /\
                    getFileExt key = ".txt").
  { apply (fire_fired _ _ _ Hr) in Hf.
    inversion Hf as [| |s0 c HL Hthis Htq Hcp Hcq Hip| | | | |]; subst.
    set (o := scan_all getFileExt (scanned getFileExt contents) []).
    assert (Hdom : forall g,
              obj_get o g <> None <->
              g <> "" /\ inherited g = false /\
              exists key, In key (scanned getFileExt contents) /\
                          getGlob key = g).
    { intros g. unfold o. rewrite scan_all_dom. simpl. split; [|now right].
      intros [H|H]; [congruence | assumption]. }
    pose proof (Object_keys_get o) as Hk.
    unfold after_listing. rewrite Hthis. simpl. fold o.
    destruct (scan_completes getFileExt contents) eqn:Ec.
    - rewrite (scanned_complete _ _ Ec) in Hdom.
      assert (Hno : forall key, In key contents ->
                aborts getFileExt key = false).
      { intros key Hin. rewrite <- (scanned_complete _ _ Ec) in Hin.
        now apply scanned_In in Hin. }
      destruct (Object_keys o) as [|p pl].
      + simpl. split; [|reflexivity]. intros _ key Hin.
        destruct (string_dec (getGlob key) "") as [E|N]; [now left|].
        right. destruct (inherited (getGlob key)) eqn:Ei.
        * split; [reflexivity|].
          destruct (aborts_false _ _ (Hno key Hin)) as [H|[H|H]];
            [contradiction | congruence | assumption].
        * exfalso. apply (Hk (getGlob key)). apply Hdom.
          split; [assumption|]. split; [assumption|]. now exists key.
      + assert (Hp : exists key,
                  In key contents /\ getGlob key <> "" /\
                  inherited (getGlob key) = false).
        { destruct (Hdom p) as [Hd _].
          destruct Hd as [Hne [Hn [key [Hin Hg]]]];
            [apply Hk; now left|].
          exists key. rewrite Hg. auto. }
        destruct Hp as [key [Hin [Hne Hn]]].
        destruct (filter _ (p :: pl)); simpl;
          (split; [discriminate|]; intros H; exfalso;
           destruct (H key Hin) as [H1|[H1 _]]; congruence).
    - simpl. split; [discriminate|]. intros H. exfalso.
      apply scan_completes_false in Ec as [key [Hin Ha]].
      apply aborts_true in Ha as [Hne [_ Htxt]].
      destruct (H key Hin) as [H1|[_ H1]]; contradiction. }
  split; [exact Hmain|].
  rewrite <- Hmain. symmetry. apply (inv_ready s' HI').
Qed.

(** X8. Once the listing has been scanned, the globs are frozen: no later
    event changes [paths], the keys of [files] or their order. *)
Theorem globs_frozen_after_listing
    (tr1 tr2 : list Event) (s s' : Sys) :
  run getFileExt tr1 boot = Some s -> listing s = Listed ->
  run getFileExt tr2 s = Some s' ->
  listing s' = Listed /\ paths (this s') = paths (this s) /\
  map fst (files (this s')) = map fst (files (this s)).
Proof.
  intros Hr HL Hr2.
  pose proof (reachable_Inv _ _ _ Hr) as HI.
  pose proof (reachable_Inv2 _ _ Hr) as HJ.
  revert HL.
  apply (run_steps
           (fun a b => listing a = Listed ->
                       listing b = Listed /\
                       paths (this b) = paths (this a) /\
                       map fst (files (this b)) = map fst (files (this a))))
    with (tr := tr2); try assumption.
  - auto.
  - intros a b c Hab Hbc Ha. destruct (Hab Ha) as [Hb [H1 H2]].
    destruct (Hbc Hb) as [Hc [H3 H4]]. repeat split; congruence.
  - intros e a b HIa HJa Hf Ha.
    destruct Hf as [a HL|a err HL|a contents HL Hthis Htq Hcp Hcq Hip
                    |a i recv r item HL En|a i recv r job HL En
                    |a HL Hc|a err HL Hc|a HL Hc Ht];
      try congruence; try (repeat split; assumption).
    + destruct (process_callback_touched recv item r (this a)) as [body Htc].
      destruct (touched_fields _ _ _ _ Htc) as [_ [Hp [_ [Hk _]]]].
      repeat split; assumption.
    + pose proof (convert_put_callback_touched recv job r (this a)) as Htc.
      destruct (touched_fields _ _ _ _ Htc) as [_ [Hp [_ [Hk _]]]].
      repeat split; assumption.
Qed.

Lemma kept_refl a : kept a a.
Proof.
  intros g r E. exists r, []. rewrite app_nil_r. auto.
Qed.

Lemma kept_same a b : files (this b) = files (this a) -> kept a b.
Proof. intros H g r E. rewrite H. now apply kept_refl. Qed.

Lemma kept_touched f g a b :
  (forall r, exists extra,
     exts (f r) = exts r ++ extra /\
     (sentence r <> None -> sentence (f r) <> None)) ->
  touched f g (this a) (this b) -> kept a b.
Proof.
  intros Hf Ht k r E.
  destruct (touched_get _ _ _ _ k Ht) as [Hsame|[_ [r0 [E0 E1]]]].
  - exists r, []. rewrite app_nil_r. split; [congruence | auto].
  - assert (r0 = r) by congruence. subst r0.
    destruct (Hf r) as [extra [He Hs]]. exists (f r), extra. auto.
Qed.

(** X9. Encodings only grow and a loaded transcript is never lost: between
    two states of a run, every recording is still there, its encodings are
    what they were followed by what was appended since, and its transcript,
    once set, is not null. *)
Theorem recordings_only_grow
    (tr1 tr2 : list Event) (s s' : Sys) (g : string) (r : Recording) :
  run getFileExt tr1 boot = Some s -> run getFileExt tr2 s = Some s' ->
  obj_get (files (this s)) g = Some r ->
  exists r' extra,
    obj_get (files (this s')) g = Some r' /\
    exts r' = exts r ++ extra /\
    (sentence r <> None -> sentence r' <> None).
Proof.
  intros Hr Hr2.
  pose proof (reachable_Inv _ _ _ Hr) as HI.
  pose proof (reachable_Inv2 _ _ Hr) as HJ.
  revert g r. change (kept s s').
  apply (run_steps kept) with (tr := tr2); try assumption.
  - apply kept_refl.
  - intros a b c Hab Hbc k r E.
    destruct (Hab k r E) as [r1 [x1 [E1 [X1 S1]]]].
    destruct (Hbc k r1 E1) as [r2 [x2 [E2 [X2 S2]]]].
    exists r2, (x1 ++ x2). rewrite X2, X1, app_assoc. auto.
  - intros e a b HIa HJa Hf.
    destruct Hf as [a HL|a err HL|a contents HL Hthis Htq Hcp Hcq Hip
                    |a i recv r item HL En|a i recv r job HL En
                    |a HL Hc|a err HL Hc|a HL Hc Ht];
      try (now apply kept_same).
    + intros k r E. rewrite Hthis in E. discriminate.
    + destruct (process_callback_touched recv item r (this a)) as [body Htc].
      apply (kept_touched (set_sentence body) (item_glob item));
        [|exact Htc].
      intros rec. exists []. rewrite app_nil_r. simpl.
      split; [reflexivity | discriminate].
    + pose proof (convert_put_callback_touched recv job r (this a)) as Htc.
      apply (kept_touched (push_ext MP3_EXT) (job_glob job)); [|exact Htc].
      intros rec. exists [MP3_EXT]. simpl. auto.
Qed.

(** X10. Ready is final: once [initialized] is set it stays set, the
    promise of [init] is fulfilled, and neither [paths] nor [mp3s] changes
    again, whatever callbacks still arrive. *)
Theorem ready_is_final (tr1 tr2 : list Event) (s s' : Sys) :
  run getFileExt tr1 boot = Some s -> initialized (this s) = true ->
  run getFileExt tr2 s = Some s' ->
  initialized (this s') = true /\ initPromise s' = Some Fulfilled /\
  paths (this s') = paths (this s) /\ mp3s (this s') = mp3s (this s).
Proof.
  intros Hr Hi Hr2.
  pose proof (reachable_Inv _ _ _ Hr) as HI.
  pose proof (reachable_Inv2 _ _ Hr) as HJ.
  assert (H : initialized (this s') = true /\
              paths (this s') = paths (this s) /\
              mp3s (this s') = mp3s (this s)).
  { revert Hi.
    apply (run_steps
             (fun a b => initialized (this a) = true ->
                         initialized (this b) = true /\
                         paths (this b) = paths (this a) /\
                         mp3s (this b) = mp3s (this a)))
      with (tr := tr2); try assumption.
    - auto.
    - intros a b c Hab Hbc Ha. destruct (Hab Ha) as [Hb [H1 H2]].
      destruct (Hbc Hb) as [Hc [H3 H4]]. repeat split; congruence.
    - intros e a b HIa HJa Hf Ha.
      destruct Hf as [a HL|a err HL|a contents HL Hthis Htq Hcp Hcq Hip
                      |a i recv r item HL En|a i recv r job HL En
                      |a HL Hc|a err HL Hc|a HL Hc Ht];
        try (repeat split; assumption).
      + rewrite Hthis in Ha. discriminate.
      + destruct (process_callback_touched recv item r (this a))
          as [body Htc].
        destruct (touched_fields _ _ _ _ Htc) as [Hin [Hp [Hm _]]].
        simpl. repeat split; congruence.
      + pose proof (convert_put_callback_touched recv job r (this a))
          as Htc.
        destruct (touched_fields _ _ _ _ Htc) as [Hin [Hp [Hm _]]].
        simpl. repeat split; congruence.
      + destruct (i2_ready _ a HJa Ha) as [H1|H1]; congruence. }
  destruct H as [H1 [H2 H3]]. repeat split; try assumption.
  apply (inv_ready s'); [|assumption].
  eapply run_Inv; eassumption.
Qed.

(** X11. The promise of [init] is never rejected, whatever fails, and it
    is fulfilled exactly when [initialized] is set. *)
Theorem init_promise_follows_the_flag (tr : list Event) (s : Sys) :
  run getFileExt tr boot = Some s ->
  (forall err, initPromise s <> Some (Rejected err)) /\
  (initPromise s = Some Fulfilled <-> initialized (this s) = true).
Proof.
  intros Hr. apply reachable_Inv in Hr. split.
  - apply (inv_no_reject s Hr).
  - symmetry. apply (inv_ready s Hr).
Qed.

(** X12. When the conversion queue emits 'error' before 'drain', the
    conversion promise is rejected and nothing handles it: from then on
    [initialized] stays false and the promise of [init] stays pending for
    ever. *)
Theorem queue_error_leaves_init_pending
    (tr1 tr2 : list Event) (s s' : Sys) (err : string) :
  run getFileExt tr1 boot = Some s ->
  convPromise s = Some (Rejected err) ->
  run getFileExt tr2 s = Some s' ->
  convPromise s' = Some (Rejected err) /\
  initialized (this s') = false /\ initPromise s' = Some Pending.
Proof.
  intros Hr Hc Hr2.
  pose proof (reachable_Inv _ _ _ Hr) as HI.
  pose proof (reachable_Inv2 _ _ Hr) as HJ.
  assert (Hc' : convPromise s' = Some (Rejected err)).
  { revert Hc.
    apply (run_steps
             (fun a b => convPromise a = Some (Rejected err) ->
                         convPromise b = Some (Rejected err)))
      with (tr := tr2); try assumption.
    - auto.
    - auto.
    - intros e a b HIa HJa Hf Ha.
      destruct Hf as [a HL|a err0 HL|a contents HL Hthis Htq Hcp Hcq Hip
                      |a i recv r item HL En|a i recv r job HL En
                      |a HL Hp|a err0 HL Hp|a HL Hp Ht];
        try assumption; congruence. }
  pose proof (run_Inv _ _ _ _ HI Hr2) as HI'.
  pose proof (run_Inv2 _ _ _ HI HJ Hr2) as HJ'.
  assert (Hi : initialized (this s') = false).
  { destruct (initialized (this s')) eqn:Ei; [|reflexivity].
    destruct (inv_ready_after s' HI' Ei) as [_ [Hp|Hp]]; [|congruence].
    exfalso. apply (i2_conv _ s' HJ'); [congruence | assumption]. }
  repeat split; try assumption.
  pose proof (inv_called s' HI') as Hcalled.
  pose proof (inv_no_reject s' HI') as Hnr.
  pose proof (inv_ready s' HI') as Hy.
  assert (HL : listing s' = Listed).
  { apply queued_Listed; [assumption|]. right; right. congruence. }
  destruct (initPromise s') as [[| |e]|].
  - reflexivity.
  - destruct Hy as [_ Hy]. rewrite Hy in Hi; [discriminate | reflexivity].
  - exfalso. now apply (Hnr e).
  - exfalso. apply Hcalled; [rewrite HL; discriminate | reflexivity].
Qed.

(** X13. In every state of a run the list [mp3s] has no duplicates, every
    glob in it has an entry with '.mp3' among its encodings, and it is
    empty as long as [initialized] is false. *)
Theorem canonical_list_invariant (tr : list Event) (s : Sys) :
  run getFileExt tr boot = Some s ->
  NoDup (mp3s (this s)) /\
  (forall g, In g (mp3s (this s)) ->
     exists r, obj_get (files (this s)) g = Some r /\ In MP3_EXT (exts r)) /\
  (initialized (this s) = false -> mp3s (this s) = []).
Proof.
  intros Hr. apply reachable_Inv2 in Hr. split; [|split].
  - apply (i2_mp3s_nodup _ s Hr).
  - intros g Hg. apply has_mp3_In. now apply (i2_mp3s_has _ s Hr).
  - apply (i2_mp3s_late _ s Hr).
Qed.

(** X14. In every state of a run, the queued conversion jobs are for
    distinct globs of [paths], and the source extension of each is '.ogg'
    or '.m4a' and is among the encodings of its glob. *)
Theorem queued_jobs_invariant (tr : list Event) (s : Sys) :
  run getFileExt tr boot = Some s ->
  NoDup (map job_glob (convQueue s)) /\
  forall j, In j (convQueue s) ->
    In (job_glob j) (paths (this s)) /\
    (job_ext j = ".ogg" \/ job_ext j = ".m4a") /\
    exists r, obj_get (files (this s)) (job_glob j) = Some r /\
              In (job_ext j) (exts r).
Proof.
  intros Hr. apply reachable_Inv2 in Hr. split.
  - apply (i2_jobs_nodup _ s Hr).
  - intros j Hj. destruct (i2_jobs _ s Hr j Hj) as [H1 [H2 H3]].
    repeat split; try assumption.
    simpl in H2. destruct H2 as [H2|[H2|[]]]; auto.
Qed.

Lemma filter_split {A} (f : A -> bool) (l : list A) :
  Permutation (filter (fun x => negb (f x)) l ++ filter f l) l.
Proof.
  induction l as [|x l IH]; simpl; [constructor|].
  destruct (f x); simpl.
  - rewrite <- Permutation_middle. now constructor.
  - now constructor.
Qed.

Lemma filter_nil_iff {A} (f : A -> bool) (l : list A) :
  filter f l = [] <-> forall x, In x l -> f x = false.
Proof.
  induction l as [|x l IH]; simpl.
  - split; [intros _ y [] | reflexivity].
  - destruct (f x) eqn:E.
    + split; [discriminate|]. intros H.
      rewrite (H x) in E; [discriminate | now left].
    + rewrite IH. split.
      * intros H y [<-|Hy]; [assumption | now apply H].
      * intros H y Hy. apply H. now right.
Qed.

(** X15. In every state of a run, [getMissingMP3s] and [generateMP3List]
    split [paths] in two: both complete, the first leaves the instance
    alone, and the globs it returns together with the new [mp3s] are the
    globs of [paths], none of them in both. *)
Theorem missing_and_canonical_split_paths (tr : list Event) (s : Sys) :
  run getFileExt tr boot = Some s ->
  exists missing st',
    getMissingMP3s (this s) = (Normal missing, this s) /\
    generateMP3List (this s) = (Normal tt, st') /\
    Permutation (missing ++ mp3s st') (paths (this s)) /\
    forall g, ~ (In g missing /\ In g (mp3s st')).
Proof.
  intros Hr. apply reachable_Inv in Hr.
  pose proof (inv_known s Hr) as Hk.
  eexists. eexists. split; [now apply getMissingMP3s_known|].
  split; [now apply generateMP3List_known|].
  simpl. split; [apply filter_split|].
  intros g [H1 H2]. apply filter_In in H1 as [_ H1].
  apply filter_In in H2 as [_ H2]. rewrite H2 in H1. discriminate.
Qed.

(** X16. [generateMP3List] starts from an empty list: what [mp3s] held
    before has no effect on its result, and running it again changes
    nothing. *)
Theorem generateMP3List_idempotent (tr : list Event) (s : Sys) :
  run getFileExt tr boot = Some s ->
  exists st1,
    generateMP3List (this s) = (Normal tt, st1) /\
    generateMP3List st1 = (Normal tt, st1) /\
    forall ms, generateMP3List (set_mp3s ms (this s)) = (Normal tt, st1).
Proof.
  intros Hr. apply reachable_Inv in Hr.
  pose proof (inv_known s Hr) as Hk.
  eexists. split; [now apply generateMP3List_known|]. split.
  - now rewrite generateMP3List_known.
  - intros ms. now rewrite generateMP3List_known.
Qed.

(** X17. In every state of a run, [convertMissingToMP3s] returns an
    already resolved promise, with no queue created, exactly when every
    glob of [paths] has '.mp3' among its encodings. *)
Theorem normalization_is_a_no_op_iff_all_canonical
    (tr : list Event) (s : Sys) :
  run getFileExt tr boot = Some s ->
  (convertMissingToMP3s (this s) = (Normal NothingToConvert, this s) <->
   forall g, In g (paths (this s)) ->
     exists r, obj_get (files (this s)) g = Some r /\ In MP3_EXT (exts r)).
Proof.
  intros Hr. apply reachable_Inv in Hr.
  rewrite (convertMissingToMP3s_known getFileExt) by exact (inv_known s Hr).
  assert (Hn : filter (fun g => negb (has_mp3 (files (this s)) g))
                 (paths (this s)) = [] <->
               forall g, In g (paths (this s)) ->
                 exists r, obj_get (files (this s)) g = Some r /\
                           In MP3_EXT (exts r)).
  { rewrite filter_nil_iff. split; intros H g Hg.
    - apply has_mp3_In. specialize (H g Hg).
      now apply negb_false_iff in H.
    - apply negb_false_iff. apply has_mp3_In. now apply H. }
  rewrite <- Hn.
  destruct (filter _ (paths (this s))) as [|m ms].
  - split; reflexivity.
  - split; discriminate.
Qed.

Lemma flat_map_nil {A B} (f : A -> list B) (l : list A) :
  (forall x, In x l -> f x = []) -> flat_map f l = [].
Proof.
  induction l as [|x l IH]; intros H; simpl; [reflexivity|].
  rewrite (H x) by now left. apply IH. intros y Hy. apply H. now right.
Qed.

(** X18. When some glob of [paths] lacks '.mp3' and no such glob has
    '.ogg' or '.m4a' among its encodings, [convertMissingToMP3s] creates
    its queue and returns a pending promise without pushing any job. *)
Theorem unconvertible_catalog_queues_nothing (tr : list Event) (s : Sys) :
  run getFileExt tr boot = Some s ->
  (exists g, In g (paths (this s)) /\ has_mp3 (files (this s)) g = false) ->
  (forall g r,
     In g (paths (this s)) -> obj_get (files (this s)) g = Some r ->
     ~ In MP3_EXT (exts r) -> ~ In ".ogg" (exts r) /\ ~ In ".m4a" (exts r)) ->
  convertMissingToMP3s (this s) = (Normal (Converting []), this s).
Proof.
  intros Hr [g0 [Hg0 Hm0]] Hnone. apply reachable_Inv in Hr.
  rewrite (convertMissingToMP3s_known getFileExt) by exact (inv_known s Hr).
  set (o := files (this s)) in *.
  assert (Hin : In g0 (filter (fun g => negb (has_mp3 o g)) (paths (this s)))).
  { apply filter_In. split; [assumption | now rewrite Hm0]. }
  assert (Hj : flat_map (job_for o)
                 (filter (fun g => negb (has_mp3 o g)) (paths (this s))) = []).
  { apply flat_map_nil. intros g Hg. apply filter_In in Hg as [Hp Hm].
    apply negb_true_iff in Hm. unfold job_for.
    destruct (obj_get o g) as [r|] eqn:E; [|reflexivity].
    assert (Hno : ~ In MP3_EXT (exts r)).
    { intros H. assert (Ht : has_mp3 o g = true)
        by (apply has_mp3_In; now exists r). congruence. }
    destruct (Hnone g r Hp E Hno) as [Ho Hm4].
    assert (Hp0 : pickExt (exts r) = None).
    { apply pickExt_None. intros x Hx [<-|[<-|[]]]; contradiction. }
    now rewrite Hp0. }
  destruct (filter _ (paths (this s))) as [|m ms]; [destruct Hin|].
  now rewrite Hj.
Qed.

(** What [getRandomClip] returns once the glob drawn is known. *)
Lemma getRandomClip_at rnd s glob :
  Inv s -> initialized (this s) = true ->
  arr_get (mp3s (this s))
    (Math_floor (times rnd (Z.of_nat (length (mp3s (this s)))))) =
  Some glob ->
  exists info,
    obj_get (files (this s)) glob = Some info /\
    getRandomClip rnd (this s) =
    (Normal (Resolve ((glob ++ MP3_EXT)%string, sentence info)), this s).
Proof.
  intros HI Hi Hg.
  pose proof (arr_get_In _ _ _ Hg) as Hin.
  pose proof (inv_mp3s s HI glob Hin) as Hp.
  destruct (obj_get (files (this s)) glob) as [info|] eqn:E;
    [|exfalso; now apply (inv_known s HI glob Hp)].
  exists info. split; [reflexivity|].
  unfold getRandomClip, bind, reads, ret, sentence_of. rewrite Hi.
  cbn [negb].
  replace (Z.of_nat (length (mp3s (this s))) =? 0) with false.
  - rewrite Hg. cbn [js_string]. unfold obj_lookup. rewrite E. reflexivity.
  - symmetry. apply Z.eqb_neq. destruct (mp3s (this s)); [destruct Hin|].
    simpl length. lia.
Qed.

(** X19. Every glob of [mp3s] can be drawn: when the catalog is ready,
    for each position of [mp3s], an array of fewer than 2^32 elements as
    every array is, there is a double in [0, 1), a multiple of 2^-33, for
    which [getRandomClip] returns the glob at that position with '.mp3'
    appended, and its transcript. *)
Theorem getRandomClip_reaches_every_clip
    (tr : list Event) (s : Sys) (i : nat) (glob : string) :
  run getFileExt tr boot = Some s -> initialized (this s) = true ->
  Z.of_nat (length (mp3s (this s))) < 2 ^ 32 ->
  nth_error (mp3s (this s)) i = Some glob ->
  exists rnd info,
    is_double rnd /\ (value rnd < 1)%Q /\ expo rnd = -33 /\
    obj_get (files (this s)) glob = Some info /\
    getRandomClip rnd (this s) =
    (Normal (Resolve ((glob ++ MP3_EXT)%string, sentence info)), this s).
Proof.
  intros Hr Hi Hlen Hn. apply reachable_Inv in Hr.
  assert (Hlt : (i < length (mp3s (this s)))%nat).
  { apply nth_error_Some. congruence. }
  set (n := Z.of_nat (length (mp3s (this s)))) in *.
  destruct (draw_for_index (Z.of_nat i) n) as [Hd [Hv Hf]];
    [lia | assumption|].
  set (rnd := mkDouble ((Z.of_nat i * 2 ^ 33 + n - 1) / n) (-33)) in *.
  destruct (getRandomClip_at rnd s glob Hr Hi) as [info [E Hcall]].
  { fold n. rewrite Hf. unfold arr_get.
    replace (Z.of_nat i <? 0) with false by (symmetry; apply Z.ltb_ge; lia).
    now rewrite Nat2Z.id. }
  exists rnd, info. repeat split; try assumption; apply Hd.
Qed.

Lemma append_length (a s : string) :
  String.length (a ++ s) = (String.length a + String.length s)%nat.
Proof. induction a as [|c a IH]; simpl; [reflexivity | now rewrite IH]. Qed.

Lemma append_cancel_r (a : string) : forall b s,
  (a ++ s)%string = (b ++ s)%string -> a = b.
Proof.
  induction a as [|c a IH]; intros [|d b] s H; simpl in H.
  - reflexivity.
  - apply (f_equal String.length) in H. simpl in H.
    rewrite append_length in H. lia.
  - apply (f_equal String.length) in H. simpl in H.
    rewrite append_length in H. lia.
  - injection H as -> H. f_equal. now apply (IH b s).
Qed.

(** X24. The doubles that select one glob: when the catalog is ready,
    [getRandomClip] returns the glob at position [i] of [mp3s] exactly for
    the draws [rnd] in [0, 1) whose exact product with [mp3s.length] is at
    least [i] less half the gap between [i] and the double before it, and
    below [i + 1] less half the gap below [i + 1].  The code floors the
    rounded product, so a product that close below [i + 1] selects the
    next position. *)
Theorem getRandomClip_draw_interval
    (tr : list Event) (s : Sys) (i : nat) (glob : string) (rnd : Double) :
  run getFileExt tr boot = Some s -> initialized (this s) = true ->
  nth_error (mp3s (this s)) i = Some glob ->
  is_double rnd -> (value rnd < 1)%Q ->
  Z.of_nat (length (mp3s (this s))) < 2 ^ 32 ->
  ((exists t,
      getRandomClip rnd (this s) =
      (Normal (Resolve ((glob ++ MP3_EXT)%string, t)), this s)) <->
   (inject_Z (Z.of_nat i) - half_gap (Z.of_nat i) <=
    value rnd * inject_Z (Z.of_nat (length (mp3s (this s)))))%Q /\
   (value rnd * inject_Z (Z.of_nat (length (mp3s (this s)))) <
    inject_Z (Z.of_nat i + 1) - half_gap (Z.of_nat i + 1))%Q).
Proof.
  intros Hr Hi Hn Hd Hv Hlen.
  pose proof (reachable_Inv _ _ _ Hr) as HI.
  pose proof (reachable_Inv2 _ _ Hr) as HJ.
  assert (Hlt : (i < length (mp3s (this s)))%nat).
  { apply nth_error_Some. congruence. }
  set (n := Z.of_nat (length (mp3s (this s)))) in *.
  rewrite <- (floor_times_eq rnd n (Z.of_nat i)) by (try assumption; lia).
  assert (Hrange : 0 <= Math_floor (times rnd n) < n).
  { apply random_index_range; try assumption. lia. }
  destruct (arr_get_in_range (mp3s (this s)) _ Hrange) as [g' Hg'].
  destruct (getRandomClip_at rnd s g' HI Hi Hg') as [info [E Hcall]].
  unfold arr_get in Hg'. fold n in Hg'.
  replace (Math_floor (times rnd n) <? 0) with false in Hg'
    by (symmetry; apply Z.ltb_ge; lia).
  split.
  - intros [t Ht]. rewrite Hcall in Ht.
    assert (Hsame : g' = glob).
    { injection Ht as Hk _. now apply append_cancel_r in Hk. }
    subst g'.
    assert (Hidx : Z.to_nat (Math_floor (times rnd n)) = i).
    { pose proof (i2_mp3s_nodup _ s HJ) as Hnd.
      rewrite NoDup_nth_error in Hnd. apply Hnd; [lia | congruence]. }
    lia.
  - intros Hq. rewrite Hq, Nat2Z.id in Hg'.
    assert (Hsame : g' = glob) by congruence.
    subst g'. now exists (sentence info).
Qed.

(** X26. A scan cut short is final: when the listing callback is left by
    the exception of its scan, nothing is started, and whatever callbacks
    still arrive, [paths] and [mp3s] stay empty, [initialized] stays false
    and the promise of [init] stays pending. *)
Theorem cut_scan_leaves_init_pending
    (tr1 tr2 : list Event) (s0 s s' : Sys) (contents : list string) :
  run getFileExt tr1 boot = Some s0 ->
  fire getFileExt (ListingCb (S3Data contents)) s0 = Some s ->
  scan_completes getFileExt contents = false ->
  run getFileExt tr2 s = Some s' ->
  initialized (this s') = false /\ initPromise s' = Some Pending /\
  convPromise s' = None /\ paths (this s') = [] /\ mp3s (this s') = [].
Proof.
  intros Hr0 Hf Hc Hr.
  pose proof (reachable_Inv _ _ _ Hr0) as HI0.
  pose proof (reachable_Inv2 _ _ Hr0) as HJ0.
  pose proof (fire_Inv _ _ _ _ HI0 Hf) as HI.
  pose proof (fired_Inv2 _ _ _ HI0 HJ0 (fire_fired _ _ _ HI0 Hf)) as HJ.
  set (P := fun a : Sys =>
              listing a = Listed /\ convPromise a = None /\
              initialized (this a) = false /\ paths (this a) = []).
  assert (HP : P s).
  { rewrite fire_listing_data in Hf by assumption.
    destruct (listing s0) eqn:HL; try discriminate. injection Hf as <-.
    destruct (inv_before s0 HI0) as [Hthis [_ [Hcp _]]];
      [rewrite HL; discriminate|].
    unfold P, after_listing. rewrite Hc, Hthis, Hcp. simpl. auto. }
  assert (HP' : P s').
  { revert HP.
    apply (run_steps (fun a b => P a -> P b)) with (tr := tr2);
      try assumption.
    - auto.
    - auto.
    - intros e a b HIa HJa Hfab [Ha1 [Ha2 [Ha3 Ha4]]]. unfold P.
      destruct Hfab as [a HL|a err HL|a c HL Hthis Htq Hcp Hcq Hip
                        |a i recv r item HL En|a i recv r job HL En
                        |a HL Hp|a err HL Hp|a HL Hp Ht];
        try congruence.
      + destruct (process_callback_touched recv item r (this a))
          as [body Htc].
        destruct (touched_fields _ _ _ _ Htc) as [Hin [Hp _]].
        simpl. repeat split; congruence.
      + pose proof (convert_put_callback_touched recv job r (this a))
          as Htc.
        destruct (touched_fields _ _ _ _ Htc) as [Hin [Hp _]].
        simpl. repeat split; congruence. }
  destruct HP' as [HL [Hcp [Hi Hp]]].
  pose proof (run_Inv _ _ _ _ HI Hr) as HI'.
  pose proof (run_Inv2 _ _ _ HI HJ Hr) as HJ'.
  repeat split; try assumption.
  - pose proof (inv_called s' HI') as Hcalled.
    pose proof (inv_no_reject s' HI') as Hnr.
    pose proof (inv_ready s' HI') as Hy.
    destruct (initPromise s') as [[| |e]|].
    + reflexivity.
    + destruct Hy as [_ Hy]. rewrite Hy in Hi; [discriminate | reflexivity].
    + exfalso. now apply (Hnr e).
    + exfalso. apply Hcalled; [rewrite HL; discriminate | reflexivity].
  - now apply (i2_mp3s_late _ s' HJ').
Qed.

Lemma scan_all_sentence contents : forall o g r,
  obj_get (scan_all getFileExt contents o) g = Some r ->
  sentence r = sentence (entry_or_new o g).
Proof.
  induction contents as [|key t IH]; intros o g r H; simpl in *.
  - unfold entry_or_new. now rewrite H.
  - apply IH in H. rewrite H. unfold entry_or_new at 1.
    destruct (obj_get (scan_files getFileExt key o) g) as [r1|] eqn:E1.
    + now apply scan_files_entry in E1.
    + assert (E0 : obj_get o g = None).
      { destruct (obj_get o g) eqn:E0; [|reflexivity].
        exfalso. apply (scan_files_keeps getFileExt key o g); congruence. }
      unfold entry_or_new. now rewrite E0.
Qed.

(** X25. As long as the callback of [process] is called off the
    instance, no transcript is loaded: at every point of such a run every
    recording has a null [sentence]. *)
Theorem off_instance_transcripts_stay_null
    (tr : list Event) (s : Sys) (g : string) (r : Recording) :
  Forall process_off_instance tr -> run getFileExt tr boot = Some s ->
  obj_get (files (this s)) g = Some r -> sentence r = None.
Proof.
  intros Hoff Hr. revert g r.
  assert (Hgen : forall tr a b,
            Forall process_off_instance tr -> Inv a ->
            (forall g r, obj_get (files (this a)) g = Some r ->
                         sentence r = None) ->
            run getFileExt tr a = Some b ->
            forall g r, obj_get (files (this b)) g = Some r ->
                        sentence r = None).
  { clear. induction tr as [|e tr IH]; intros a b Hoff HI HP Hr; simpl in Hr.
    - now injection Hr as <-.
    - destruct (fire getFileExt e a) as [a1|] eqn:Ef; [|discriminate].
      inversion Hoff as [|? ? He Hrest]; subst.
      apply (IH a1 b Hrest); [eapply fire_Inv; eassumption | | assumption].
      pose proof (fire_fired e a a1 HI Ef) as Hf.
      destruct Hf as [a HL|a err HL|a contents HL Hthis Htq Hcp Hcq Hip
                      |a i recv r item HL En|a i recv r job HL En
                      |a HL Hc|a err HL Hc|a HL Hc Ht];
        try exact HP.
      + intros g r E.
        destruct (after_listing_catalog contents a) as [Efl _].
        rewrite Efl, Hthis in E. simpl in E.
        now apply scan_all_sentence in E.
      + simpl in He. subst recv. intros g r0.
        destruct r as [err|body]; simpl; apply HP.
      + intros g r0 E. simpl in E.
        pose proof (convert_put_callback_touched recv job r (this a)) as Htc.
        destruct (touched_get _ _ _ _ g Htc) as [Hsame|[_ [r1 [E0 E1]]]].
        * rewrite Hsame in E. now apply (HP g r0).
        * rewrite E1 in E. injection E as <-. simpl. now apply (HP g r1). }
  apply (Hgen tr boot s Hoff boot_Inv); [|assumption].
  intros g r E. discriminate.
Qed.

End Further.

(** ** The further properties at concrete runs *)

Lemma catalog_holds_the_listed_globs_witness :
  run getFileExt_spec [CallInit] boot = Some state_called /\
  fire getFileExt_spec (ListingCb (S3Data contents_cut)) state_called =
  Some state_cut /\
  (forall g,
     obj_get (files (this state_cut)) g <> None <->
     g <> "" /\ inherited g = false /\
     exists key,
       In key (scanned getFileExt_spec contents_cut) /\ getGlob key = g) /\
  (scan_completes getFileExt_spec contents_cut = true ->
   scanned getFileExt_spec contents_cut = contents_cut /\
   forall g, In g (paths (this state_cut)) <->
             obj_get (files (this state_cut)) g <> None) /\
  (scan_completes getFileExt_spec contents_cut = false ->
   paths (this state_cut) = []).
Proof.
  split; [reflexivity|]. split; [reflexivity|].
  apply (catalog_holds_the_listed_globs getFileExt_spec [CallInit]
           state_called contents_cut state_cut); reflexivity.
Defined.

Lemma transcript_items_wellformed_witness :
  run getFileExt_spec trace_named boot = Some state_named /\
  In (mkItem "toString.txt" "toString") (txtQueue state_named) /\
  item_glob (mkItem "toString.txt" "toString") =
  getGlob (item_path (mkItem "toString.txt" "toString")) /\
  item_glob (mkItem "toString.txt" "toString") <> "" /\
  getFileExt_spec (item_path (mkItem "toString.txt" "toString")) = ".txt" /\
  (inherited (item_glob (mkItem "toString.txt" "toString")) = false <->
   exists r,
     obj_get (files (this state_named))
       (item_glob (mkItem "toString.txt" "toString")) = Some r).
Proof.
  split; [reflexivity|]. split; [left; reflexivity|].
  apply (transcript_items_wellformed getFileExt_spec trace_named
           state_named); [reflexivity | left; reflexivity].
Defined.

Lemma encodings_never_hold_txt_witness :
  run getFileExt_spec trace_listed boot = Some state_listed /\
  obj_get (files (this state_listed)) "a" = Some (mkRecording None [".ogg"]) /\
  ~ In ".txt" (exts (mkRecording None [".ogg"])).
Proof.
  split; [reflexivity|]. split; [reflexivity|].
  apply (encodings_never_hold_txt getFileExt_spec trace_listed state_listed
           "a" (mkRecording None [".ogg"])); reflexivity.
Defined.

Lemma listing_ready_iff_no_glob_witness :
  run getFileExt_spec [CallInit] boot = Some state_called /\
  fire getFileExt_spec (ListingCb (S3Data contents_named)) state_called =
  Some state_named /\
  (initialized (this state_named) = true <->
   forall key, In key contents_named ->
     getGlob key = "" \/
     inherited (getGlob key) = true /\ getFileExt_spec key = ".txt").
Proof.
  split; [reflexivity|]. split; [reflexivity|].
  apply (listing_ready_iff_no_glob getFileExt_spec [CallInit] state_called
           contents_named state_named); reflexivity.
Defined.

Lemma globs_frozen_after_listing_witness :
  run getFileExt_spec trace_listed boot = Some state_listed /\
  listing state_listed = Listed /\
  run getFileExt_spec (scenario_tail ThisFiles) state_listed =
  Some state_scenario_on_instance /\
  listing state_scenario_on_instance = Listed /\
  paths (this state_scenario_on_instance) = paths (this state_listed) /\
  map fst (files (this state_scenario_on_instance)) =
  map fst (files (this state_listed)).
Proof.
  split; [reflexivity|]. split; [reflexivity|]. split; [reflexivity|].
  apply (globs_frozen_after_listing getFileExt_spec trace_listed
           (scenario_tail ThisFiles) state_listed
           state_scenario_on_instance); reflexivity.
Defined.

Lemma recordings_only_grow_witness :
  run getFileExt_spec trace_listed boot = Some state_listed /\
  run getFileExt_spec (scenario_tail ThisFiles) state_listed =
  Some state_scenario_on_instance /\
  obj_get (files (this state_listed)) "a" = Some (mkRecording None [".ogg"]) /\
  exists r' extra,
    obj_get (files (this state_scenario_on_instance)) "a" = Some r' /\
    exts r' = exts (mkRecording None [".ogg"]) ++ extra /\
    (sentence (mkRecording None [".ogg"]) <> None -> sentence r' <> None).
Proof.
  split; [reflexivity|]. split; [reflexivity|]. split; [reflexivity|].
  apply (recordings_only_grow getFileExt_spec trace_listed
           (scenario_tail ThisFiles) state_listed
           state_scenario_on_instance "a" (mkRecording None [".ogg"]));
    reflexivity.
Defined.

Lemma ready_is_final_witness :
  run getFileExt_spec trace_ready boot = Some state_ready /\
  initialized (this state_ready) = true /\
  run getFileExt_spec late_transcript state_ready = Some state_ready_later /\
  initialized (this state_ready_later) = true /\
  initPromise state_ready_later = Some Fulfilled /\
  paths (this state_ready_later) = paths (this state_ready) /\
  mp3s (this state_ready_later) = mp3s (this state_ready).
Proof.
  split; [reflexivity|]. split; [reflexivity|]. split; [reflexivity|].
  apply (ready_is_final getFileExt_spec trace_ready late_transcript
           state_ready state_ready_later); reflexivity.
Defined.

Lemma init_promise_follows_the_flag_witness :
  run getFileExt_spec trace_ready boot = Some state_ready /\
  (forall err, initPromise state_ready <> Some (Rejected err)) /\
  (initPromise state_ready = Some Fulfilled <->
   initialized (this state_ready) = true).
Proof.
  split; [reflexivity|].
  apply (init_promise_follows_the_flag getFileExt_spec trace_ready
           state_ready).
  reflexivity.
Defined.

Lemma queue_error_leaves_init_pending_witness :
  run getFileExt_spec trace_queue_error boot = Some state_queue_error /\
  convPromise state_queue_error = Some (Rejected "boom") /\
  run getFileExt_spec after_queue_error state_queue_error =
  Some state_queue_error_later /\
  convPromise state_queue_error_later = Some (Rejected "boom") /\
  initialized (this state_queue_error_later) = false /\
  initPromise state_queue_error_later = Some Pending.
Proof.
  split; [reflexivity|]. split; [reflexivity|]. split; [reflexivity|].
  apply (queue_error_leaves_init_pending getFileExt_spec trace_queue_error
           after_queue_error state_queue_error state_queue_error_later
           "boom"); reflexivity.
Defined.

Lemma canonical_list_invariant_witness :
  run getFileExt_spec (trace_scenario ThisFiles) boot =
  Some state_scenario_on_instance /\
  NoDup (mp3s (this state_scenario_on_instance)) /\
  (forall g, In g (mp3s (this state_scenario_on_instance)) ->
     exists r, obj_get (files (this state_scenario_on_instance)) g = Some r /\
               In MP3_EXT (exts r)) /\
  (initialized (this state_scenario_on_instance) = false ->
   mp3s (this state_scenario_on_instance) = []).
Proof.
  split; [reflexivity|].
  apply (canonical_list_invariant getFileExt_spec (trace_scenario ThisFiles)
           state_scenario_on_instance).
  reflexivity.
Defined.

Lemma queued_jobs_invariant_witness :
  run getFileExt_spec trace_listed boot = Some state_listed /\
  NoDup (map job_glob (convQueue state_listed)) /\
  forall j, In j (convQueue state_listed) ->
    In (job_glob j) (paths (this state_listed)) /\
    (job_ext j = ".ogg" \/ job_ext j = ".m4a") /\
    exists r, obj_get (files (this state_listed)) (job_glob j) = Some r /\
              In (job_ext j) (exts r).
Proof.
  split; [reflexivity|].
  apply (queued_jobs_invariant getFileExt_spec trace_listed state_listed).
  reflexivity.
Defined.

Lemma missing_and_canonical_split_paths_witness :
  run getFileExt_spec trace_listed boot = Some state_listed /\
  exists missing st',
    getMissingMP3s (this state_listed) = (Normal missing, this state_listed) /\
    generateMP3List (this state_listed) = (Normal tt, st') /\
    Permutation (missing ++ mp3s st') (paths (this state_listed)) /\
    forall g, ~ (In g missing /\ In g (mp3s st')).
Proof.
  split; [reflexivity|].
  apply (missing_and_canonical_split_paths getFileExt_spec trace_listed
           state_listed).
  reflexivity.
Defined.

Lemma generateMP3List_idempotent_witness :
  run getFileExt_spec trace_listed boot = Some state_listed /\
  exists st1,
    generateMP3List (this state_listed) = (Normal tt, st1) /\
    generateMP3List st1 = (Normal tt, st1) /\
    forall ms,
      generateMP3List (set_mp3s ms (this state_listed)) = (Normal tt, st1).
Proof.
  split; [reflexivity|].
  apply (generateMP3List_idempotent getFileExt_spec trace_listed
           state_listed).
  reflexivity.
Defined.

Lemma normalization_is_a_no_op_iff_all_canonical_witness :
  run getFileExt_spec trace_ready boot = Some state_ready /\
  (convertMissingToMP3s (this state_ready) =
   (Normal NothingToConvert, this state_ready) <->
   forall g, In g (paths (this state_ready)) ->
     exists r, obj_get (files (this state_ready)) g = Some r /\
               In MP3_EXT (exts r)).
Proof.
  split; [reflexivity|].
  apply (normalization_is_a_no_op_iff_all_canonical getFileExt_spec
           trace_ready state_ready).
  reflexivity.
Defined.

Lemma unconvertible_catalog_queues_nothing_witness :
  run getFileExt_spec trace_wav boot = Some state_wav /\
  convertMissingToMP3s (this state_wav) =
  (Normal (Converting []), this state_wav).
Proof.
  split; [reflexivity|].
  apply (unconvertible_catalog_queues_nothing getFileExt_spec trace_wav
           state_wav).
  - reflexivity.
  - exists "c". split; [left; reflexivity | reflexivity].
  - intros g r [<-|[]] E _. injection E as <-. simpl.
    split; intros [H|[]]; discriminate.
Defined.

Lemma getRandomClip_reaches_every_clip_witness :
  run getFileExt_spec (trace_scenario ThisFiles) boot =
  Some state_scenario_on_instance /\
  initialized (this state_scenario_on_instance) = true /\
  Z.of_nat (length (mp3s (this state_scenario_on_instance))) < 2 ^ 32 /\
  nth_error (mp3s (this state_scenario_on_instance)) 1 = Some "b" /\
  exists rnd info,
    is_double rnd /\ (value rnd < 1)%Q /\ expo rnd = -33 /\
    obj_get (files (this state_scenario_on_instance)) "b" = Some info /\
    getRandomClip rnd (this state_scenario_on_instance) =
    (Normal (Resolve (("b" ++ MP3_EXT)%string, sentence info)),
     this state_scenario_on_instance).
Proof.
  split; [reflexivity|]. split; [reflexivity|]. split; [reflexivity|].
  split; [reflexivity|].
  apply (getRandomClip_reaches_every_clip getFileExt_spec
           (trace_scenario ThisFiles) state_scenario_on_instance 1 "b");
    reflexivity.
Defined.

Lemma cut_scan_leaves_init_pending_witness :
  run getFileExt_spec [CallInit] boot = Some state_called /\
  fire getFileExt_spec (ListingCb (S3Data contents_cut)) state_called =
  Some state_cut /\
  scan_completes getFileExt_spec contents_cut = false /\
  run getFileExt_spec late_transcript state_cut = Some state_cut_later /\
  initialized (this state_cut_later) = false /\
  initPromise state_cut_later = Some Pending /\
  convPromise state_cut_later = None /\ paths (this state_cut_later) = [] /\
  mp3s (this state_cut_later) = [].
Proof.
  split; [reflexivity|]. split; [reflexivity|]. split; [reflexivity|].
  split; [reflexivity|].
  apply (cut_scan_leaves_init_pending getFileExt_spec [CallInit]
           late_transcript state_called state_cut state_cut_later
           contents_cut); reflexivity.
Defined.

Lemma convert_off_instance_completes_by_errors_only_witness :
  Forall (put_on ThisForeign) (two_jobs_callbacks ThisForeign) /\
  batch_run two_jobs (two_jobs_callbacks ThisForeign)
    (new_Batch (this state_listed)) =
  mkBatch (this state_listed) 0 1.
Proof.
  assert (H : Forall (put_on ThisForeign) (two_jobs_callbacks ThisForeign))
    by (repeat constructor).
  split; [exact H|].
  apply (convert_off_instance_completes_by_errors_only two_jobs
           (two_jobs_callbacks ThisForeign) (new_Batch (this state_listed)) H).
Defined.

Lemma convert_on_instance_counts_witness :
  Forall (put_on ThisFiles) (two_jobs_callbacks ThisFiles) /\
  Forall (put_known (files (this state_listed)))
    (two_jobs_callbacks ThisFiles) /\
  b_finished (batch_run two_jobs (two_jobs_callbacks ThisFiles)
                (new_Batch (this state_listed))) = 1 /\
  b_cb (batch_run two_jobs (two_jobs_callbacks ThisFiles)
          (new_Batch (this state_listed))) = 1%nat.
Proof.
  assert (H1 : Forall (put_on ThisFiles) (two_jobs_callbacks ThisFiles))
    by (repeat constructor).
  assert (H2 : Forall (put_known (files (this state_listed)))
                 (two_jobs_callbacks ThisFiles))
    by (repeat constructor; discriminate).
  split; [exact H1|]. split; [exact H2|].
  apply (convert_on_instance_counts two_jobs (two_jobs_callbacks ThisFiles)
           (this state_listed) H1 H2).
Defined.

Lemma getRandomClip_draw_interval_witness :
  run getFileExt_spec trace_seven boot = Some state_seven /\
  initialized (this state_seven) = true /\
  nth_error (mp3s (this state_seven)) 4 = Some "e" /\
  is_double draw_below_four /\ (value draw_below_four < 1)%Q /\
  Z.of_nat (length (mp3s (this state_seven))) < 2 ^ 32 /\
  ((exists t,
      getRandomClip draw_below_four (this state_seven) =
      (Normal (Resolve (("e" ++ MP3_EXT)%string, t)), this state_seven)) <->
   (inject_Z (Z.of_nat 4) - half_gap (Z.of_nat 4) <=
    value draw_below_four *
    inject_Z (Z.of_nat (length (mp3s (this state_seven)))))%Q /\
   (value draw_below_four *
    inject_Z (Z.of_nat (length (mp3s (this state_seven)))) <
    inject_Z (Z.of_nat 4 + 1) - half_gap (Z.of_nat 4 + 1))%Q).
Proof.
  assert (Hd : is_double draw_below_four)
    by (unfold is_double; simpl; lia).
  assert (Hv : (value draw_below_four < 1)%Q) by reflexivity.
  split; [reflexivity|]. split; [reflexivity|]. split; [reflexivity|].
  split; [exact Hd|]. split; [exact Hv|]. split; [reflexivity|].
  apply (getRandomClip_draw_interval getFileExt_spec trace_seven
           state_seven 4 "e" draw_below_four);
    try reflexivity; assumption.
Defined.

Lemma off_instance_transcripts_stay_null_witness :
  Forall process_off_instance (trace_scenario ThisForeign) /\
  run getFileExt_spec (trace_scenario ThisForeign) boot =
  Some state_scenario_off_instance /\
  obj_get (files (this state_scenario_off_instance)) "a" =
  Some (mkRecording None [".ogg"]) /\
  sentence (mkRecording None [".ogg"]) = None.
Proof.
  assert (H : Forall process_off_instance (trace_scenario ThisForeign))
    by (repeat constructor).
  split; [exact H|]. split; [reflexivity|]. split; [reflexivity|].
  apply (off_instance_transcripts_stay_null getFileExt_spec
           (trace_scenario ThisForeign) state_scenario_off_instance "a"
           (mkRecording None [".ogg"]) H); reflexivity.
Defined.
